(** * RepoLens: parser, repository graph and lane layout

    A shallow embedding of the Git visualisation core (parser.ts, graph.ts,
    visualization.ts, the types they share, the allow list of executor.ts
    and the validation of mutations.ts) together with the properties the
    specification states about it and further properties of the same code. *)

From stdpp Require Import gmap strings list sorting pretty relations.
From Stdlib Require Import ZArith Lia.
From Stdlib Require Ascii String.

Open Scope Z_scope.

(** ** JavaScript strings

    A JavaScript string is a sequence of UTF-16 code units. *)

Abbreviation jsstring := (list N).

Definition js (s : string) : jsstring :=
  Ascii.N_of_ascii <$> String.list_ascii_of_string s.

(** [WhiteSpace] and [LineTerminator] code units: what [String.prototype.trim]
    strips and what the regular expression class [\s] matches. *)
Definition isWhiteSpace (c : N) : bool :=
  ((9 <=? c) && (c <=? 13) || (c =? 32) || (c =? 160) || (c =? 5760)
   || (8192 <=? c) && (c <=? 8202) || (c =? 8232) || (c =? 8233)
   || (c =? 8239) || (c =? 8287) || (c =? 12288) || (c =? 65279))%N.

Fixpoint trimStart (s : jsstring) : jsstring :=
  match s with
  | c :: s' => if isWhiteSpace c then trimStart s' else s
  | [] => []
  end.

Definition trimEnd (s : jsstring) : jsstring := reverse (trimStart (reverse s)).

Definition trim (s : jsstring) : jsstring := trimEnd (trimStart s).

(** [s.split(sep)] for a separator of one code unit. *)
Fixpoint split (sep : N) (s : jsstring) : list jsstring :=
  match s with
  | [] => [[]]
  | c :: s' =>
      if (c =? sep)%N then [] :: split sep s'
      else match split sep s' with
           | f :: fs => (c :: f) :: fs
           | [] => [[c]]
           end
  end.

(** [s.split(/\s+/)]: the pieces between maximal runs of white space. *)
Fixpoint splitWhiteSpace_go (piece : jsstring) (inRun : bool) (s : jsstring)
  : list jsstring :=
  match s with
  | [] => [reverse piece]
  | c :: s' =>
      if isWhiteSpace c
      then if inRun then splitWhiteSpace_go piece true s'
           else reverse piece :: splitWhiteSpace_go [] true s'
      else splitWhiteSpace_go (c :: piece) false s'
  end.

Definition splitWhiteSpace (s : jsstring) : list jsstring :=
  splitWhiteSpace_go [] false s.

(** [parts.join(sep)] *)
Fixpoint join (sep : jsstring) (parts : list jsstring) : jsstring :=
  match parts with
  | [] => []
  | [p] => p
  | p :: ps => p ++ sep ++ join sep ps
  end.

(** [s.substring(0, n)] *)
Definition substring0 (n : nat) (s : jsstring) : jsstring := take n s.

(** [toLowerCase], on the letters A-Z. The parser of commits and refs
    applies it to a string that passed [isValidHash], whose only letters are
    ASCII; for [toCommitHash] and [parseHead] see there. *)
Definition toLowerCase (s : jsstring) : jsstring :=
  (fun c => if (65 <=? c) && (c <=? 90) then c + 32 else c)%N <$> s.

(** Template-literal rendering of a non-negative integer. *)
Definition numberToString (n : nat) : jsstring := js (pretty n).

(** ** types.ts *)

Abbreviation CommitHash := (list N).

Definition isLowerHexDigit (c : N) : bool :=
  ((48 <=? c) && (c <=? 57) || (97 <=? c) && (c <=? 102))%N.

Definition isHexDigit (c : N) : bool :=
  (isLowerHexDigit c || (65 <=? c) && (c <=? 70))%N.

(** [/^[a-f0-9]{40}$/.test(value)] *)
Definition isCommitHash (value : jsstring) : bool :=
  (length value =? 40)%nat && forallb isLowerHexDigit value.

Definition unsafeCommitHash (value : jsstring) : CommitHash :=
  toLowerCase (trim value).

(** Field names that several interfaces share carry a prefix here:
    [refName], [refType] and [refIsHead] for [GitRef], [vr...] for
    [VisualRef], [vcHash] and [vcRefs] for [VisualCommit], [vgCommits] for
    [VisualGraph], [eid] and [edgeType] for the [id] and [type] of
    [VisualEdge], [graphHead] for [RepositoryGraph.head]. *)

Record GitIdentity := { name : jsstring; email : jsstring }.

Record Commit := {
  hash : CommitHash;
  parents : list CommitHash;
  author : GitIdentity;
  committer : GitIdentity;
  authoredAt : Z;
  committedAt : Z;
  subject : jsstring;
  body : jsstring;
}.

Inductive RefType := local | remote | tag.

Record GitRef := {
  refName : jsstring;
  fullName : jsstring;
  commitHash : CommitHash;
  refType : RefType;
  refIsHead : bool;
}.

(** ** Regular expressions

    [matchGlob] and [matchesProtectedPattern] build the source of a regular
    expression from a pattern and hand it to [new RegExp]. After their two
    replacements the source consists of identity escapes (a backslash and the
    character it protects), the two characters [.*] for every star of the
    pattern, question marks, which the replacements leave as they are, and
    ordinary pattern characters. *)

Inductive Completion (A : Type) :=
  | Returns (a : A)
  | Throws.
Arguments Returns {A} a.
Arguments Throws {A}.

Module RegExp.

Inductive Term :=
  | Char (c : N)          (* a pattern character or an identity escape *)
  | OptionalChar (c : N)  (* an atom followed by [?] or by the lazy [??] *)
  | AnyStar.              (* [.*], or the lazy [.*?] *)

Definition BACKSLASH : N := 92%N.
Definition DOT : N := 46%N.
Definition STAR : N := 42%N.
Definition QUESTION : N := 63%N.

(** The terms of a source; [None] is the [SyntaxError] the constructor
    throws for a quantifier that has nothing to repeat. The function reads
    the sources described above: there a dot always has its star and a
    backslash always has the character it protects, so the [None] of those
    two branches is never reached. *)
Fixpoint parseTerms (src : jsstring) : option (list Term) :=
  match src with
  | [] => Some []
  | c :: rest =>
      if (c =? QUESTION)%N then None
      else if (c =? DOT)%N then
        match rest with
        | s :: rest1 =>
            if (s =? STAR)%N then
              match rest1 with
              | q :: rest2 =>
                  if (q =? QUESTION)%N
                  then cons AnyStar <$> parseTerms rest2
                  else cons AnyStar <$> parseTerms rest1
              | [] => Some [AnyStar]
              end
            else None
        | [] => None
        end
      else if (c =? BACKSLASH)%N then
        match rest with
        | e :: rest1 =>
            match rest1 with
            | q :: rest2 =>
                if (q =? QUESTION)%N then
                  match rest2 with
                  | q2 :: rest3 =>
                      if (q2 =? QUESTION)%N
                      then cons (OptionalChar e) <$> parseTerms rest3
                      else cons (OptionalChar e) <$> parseTerms rest2
                  | [] => Some [OptionalChar e]
                  end
                else cons (Char e) <$> parseTerms rest1
            | [] => Some [Char e]
            end
        | [] => None
        end
      else
        match rest with
        | q :: rest1 =>
            if (q =? QUESTION)%N then
              match rest1 with
              | q2 :: rest2 =>
                  if (q2 =? QUESTION)%N
                  then cons (OptionalChar c) <$> parseTerms rest2
                  else cons (OptionalChar c) <$> parseTerms rest1
              | [] => Some [OptionalChar c]
              end
            else cons (Char c) <$> parseTerms rest
        | [] => Some [Char c]
        end
  end.

(** [.] matches any code unit except the line terminators. *)
Definition isLineTerminator (c : N) : bool :=
  ((c =? 10) || (c =? 13) || (c =? 8232) || (c =? 8233))%N.

(** Whether the terms match the whole of [s]. Greedy and lazy quantifiers
    accept the same strings, so one constructor stands for both. *)
Fixpoint matchTerms (ts : list Term) (s : jsstring) : bool :=
  match ts with
  | [] => match s with [] => true | _ => false end
  | Char c :: ts' =>
      match s with
      | d :: s' => (d =? c)%N && matchTerms ts' s'
      | [] => false
      end
  | OptionalChar c :: ts' =>
      match s with
      | d :: s' => (d =? c)%N && matchTerms ts' s'
      | [] => false
      end || matchTerms ts' s
  | AnyStar :: ts' =>
      (fix star (s : jsstring) : bool :=
         matchTerms ts' s ||
         match s with
         | d :: s' => negb (isLineTerminator d) && star s'
         | [] => false
         end) s
  end.

(** [new RegExp('^' + body + '$').test(value)]. The two anchors tie the
    match to the whole of [value]; a question mark directly after [^] has
    nothing to repeat, which [parseTerms] reports for a leading one. *)
Definition testAnchored (body value : jsstring) : Completion bool :=
  match parseTerms body with
  | Some ts => Returns (matchTerms ts value)
  | None => Throws
  end.

(** [s.replace(/[.+^${}()|[\]\\]/g, '\\$&')] *)
Definition isEscaped (c : N) : bool :=
  ((c =? 46) || (c =? 43) || (c =? 94) || (c =? 36) || (c =? 123) || (c =? 125)
   || (c =? 40) || (c =? 41) || (c =? 124) || (c =? 91) || (c =? 93) || (c =? 92))%N.

Definition escapeSpecials (s : jsstring) : jsstring :=
  s ≫= (fun c => if isEscaped c then [BACKSLASH; c] else [c]).

(** [s.replace(/\*/g, '.*')] *)
Definition starsToDotStar (s : jsstring) : jsstring :=
  s ≫= (fun c => if (c =? STAR)%N then [DOT; STAR] else [c]).

End RegExp.

(** ** parser.ts *)

Module Parser.

Definition FIELD_SEPARATOR : N := 0%N.
Definition RECORD_SEPARATOR : N := 1%N.
Definition EXPECTED_FIELDS : nat := 10.

Inductive ParseErrorType := malformed_record | invalid_hash | invalid_date.

Record ParseError := {
  errorType : ParseErrorType;
  message : jsstring;
  record : option jsstring;
  field : option jsstring;
}.

Record ParseCommitsResult := {
  commits : list Commit;
  errors : list ParseError;
}.

(** The result of [parseCommitRecord]: [{ ok: true, commit }] or
    [{ ok: false, error }]. *)
Inductive RecordResult :=
  | Ok (commit : Commit)
  | Err (error : ParseError).

(** [/^[a-f0-9]{40}$/i.test(value)]: the [i] flag lets A-F through; no code
    unit outside ASCII canonicalises to an ASCII letter. *)
Definition isValidHash (value : jsstring) : bool :=
  (length value =? 40)%nat && forallb isHexDigit value.

Definition parseParentHashes (raw : jsstring) : list CommitHash :=
  let trimmed := trim raw in
  match trimmed with
  | [] => []
  | _ =>
      (fun h => unsafeCommitHash (toLowerCase h)) <$>
        List.filter isValidHash
          (List.filter (fun h => (0 <? length h)%nat) (splitWhiteSpace trimmed))
  end.

(** Array destructuring: a missing element reads as [undefined], which every
    use below replaces by the empty string. *)
Definition fieldAt (fields : list jsstring) (i : nat) : jsstring :=
  default [] (fields !! i).

Section WithDate.

(** [new Date(s).getTime()], [None] standing for [NaN]. What strings the
    host accepts beyond the ISO format is implementation-defined, so the
    parser is stated over any such function. *)
Variable dateTime : jsstring -> option Z.

Definition parseDate (raw : jsstring) : option Z :=
  let trimmed := trim raw in
  match trimmed with
  | [] => None
  | _ => dateTime trimmed
  end.

Definition parseCommitRecord (record : jsstring) : RecordResult :=
  let fields := split FIELD_SEPARATOR record in
  if (length fields <? EXPECTED_FIELDS - 1)%nat then
    Err {| errorType := malformed_record;
           message := js "Expected at least " ++ numberToString (EXPECTED_FIELDS - 1)
                      ++ js " fields, got " ++ numberToString (length fields);
           record := Some (substring0 100 record);
           field := None |}
  else
    let hashRaw := fieldAt fields 0 in
    let parentsRaw := fieldAt fields 1 in
    let authorName := fieldAt fields 2 in
    let authorEmail := fieldAt fields 3 in
    let authorDateRaw := fieldAt fields 4 in
    let committerName := fieldAt fields 5 in
    let committerEmail := fieldAt fields 6 in
    let commitDateRaw := fieldAt fields 7 in
    let subject := fieldAt fields 8 in
    let bodyParts := drop 9 fields in
    let hash := trim hashRaw in
    if bool_decide (hash = []) || negb (isValidHash hash) then
      Err {| errorType := invalid_hash;
             message := js "Invalid commit hash: " ++ hash;
             field := Some (js "hash");
             record := Some (substring0 100 record) |}
    else
      let parents := parseParentHashes parentsRaw in
      match parseDate authorDateRaw, parseDate commitDateRaw with
      | None, _ =>
          Err {| errorType := invalid_date;
                 message := js "Invalid author date: " ++ authorDateRaw;
                 field := Some (js "authoredAt");
                 record := Some (substring0 100 record) |}
      | Some _, None =>
          Err {| errorType := invalid_date;
                 message := js "Invalid commit date: " ++ commitDateRaw;
                 field := Some (js "committedAt");
                 record := Some (substring0 100 record) |}
      | Some authoredAt, Some committedAt =>
          Ok {| hash := unsafeCommitHash hash;
                parents := parents;
                author := {| name := authorName; email := authorEmail |};
                committer := {| name := committerName; email := committerEmail |};
                authoredAt := authoredAt;
                committedAt := committedAt;
                subject := subject;
                body := trim (join [FIELD_SEPARATOR] bodyParts) |}
      end.

(** The records the loop of [parseCommits] visits. *)
Definition commitRecords (raw : jsstring) : list jsstring :=
  List.filter (fun r => (0 <? length (trim r))%nat) (split RECORD_SEPARATOR raw).

Definition pushResult (acc : ParseCommitsResult) (record : jsstring)
  : ParseCommitsResult :=
  match parseCommitRecord record with
  | Ok commit => {| commits := commits acc ++ [commit]; errors := errors acc |}
  | Err error => {| commits := commits acc; errors := errors acc ++ [error] |}
  end.

Definition parseCommits (raw : jsstring) : ParseCommitsResult :=
  if bool_decide (raw = []) || (length (trim raw) =? 0)%nat then
    {| commits := []; errors := [] |}
  else
    foldl pushResult {| commits := []; errors := [] |} (commitRecords raw).

End WithDate.

(** *** Protected-branch patterns *)

Definition matchGlob (value pattern : jsstring) : Completion bool :=
  if bool_decide (pattern = value) then Returns true
  else
    let regexPattern := RegExp.starsToDotStar (RegExp.escapeSpecials pattern) in
    RegExp.testAnchored regexPattern value.

Fixpoint matchesProtectedPattern (name : jsstring) (patterns : list jsstring)
  : Completion bool :=
  match patterns with
  | [] => Returns false
  | pattern :: rest =>
      match matchGlob name pattern with
      | Throws => Throws
      | Returns true => Returns true
      | Returns false => matchesProtectedPattern name rest
      end
  end.

End Parser.

(** ** graph.ts

    A JavaScript [Map] is modelled as a finite map. The order in which a
    [Map] lists its entries is not kept: the modelled code either sorts the
    keys it reads or does not depend on their order. *)

Record RepositoryGraph := {
  commits : gmap CommitHash Commit;
  refs : list GitRef;
  graphHead : option CommitHash;
  headRef : option jsstring;
  children : gmap CommitHash (list CommitHash);
  commitsByRef : gmap jsstring CommitHash;
  refsByCommit : gmap CommitHash (list GitRef);
  roots : list CommitHash;
  topologicalOrder : list CommitHash;
}.

(** [let l = m.get(k); if (!l) { l = []; m.set(k, l) } l.push(x)] *)
Definition pushAt {K V} `{Countable K} (k : K) (x : V) (m : gmap K (list V))
  : gmap K (list V) :=
  <[k := default [] (m !! k) ++ [x]]> m.

Definition buildGraph (commitList : list Commit) (refList : list GitRef)
    (headCommit : option CommitHash) (headRefName : option jsstring)
  : RepositoryGraph :=
  let commitMap :=
    foldl (fun m commit => <[hash commit := commit]> m) ∅ commitList in
  let childrenMap :=
    foldl (fun m commit =>
             foldl (fun m parentHash => pushAt parentHash (hash commit) m)
                   m (parents commit))
          ∅ commitList in
  let byRef :=
    foldl (fun m ref =>
             <[fullName ref := commitHash ref]> (<[refName ref := commitHash ref]> m))
          ∅ refList in
  let byCommit :=
    foldl (fun m ref => pushAt (commitHash ref) ref m) ∅ refList in
  let rootList :=
    List.filter
      (fun commit =>
         match parents commit with
         | [] => true
         | ps => negb (existsb (fun p => bool_decide (is_Some (commitMap !! p))) ps)
         end)
      commitList in
  {| commits := commitMap;
     refs := refList;
     graphHead := headCommit;
     headRef := headRefName;
     children := childrenMap;
     commitsByRef := byRef;
     refsByCommit := byCommit;
     roots := hash <$> rootList;
     topologicalOrder := hash <$> commitList |}.

(** The parents the traversals read for a hash: those of the loaded commit,
    none when the commit is not loaded. *)
Definition parentsOf (graph : RepositoryGraph) (h : CommitHash) : list CommitHash :=
  match commits graph !! h with
  | Some commit => parents commit
  | None => []
  end.

(** [for (const parent of commit.parents)
       if (!seen.has(parent)) { seen.add(parent); queue.push(parent) }] *)
Fixpoint enqueueUnseen (ps : list CommitHash) (seen : gset CommitHash)
    (queue : list CommitHash) : gset CommitHash * list CommitHash :=
  match ps with
  | [] => (seen, queue)
  | parent :: ps' =>
      if decide (parent ∈ seen) then enqueueUnseen ps' seen queue
      else enqueueUnseen ps' ({[parent]} ∪ seen) (queue ++ [parent])
  end.

(** The first loop of [findMergeBase]; [None] when the fuel runs out. *)
Fixpoint collectAncestors (fuel : nat) (graph : RepositoryGraph)
    (ancestors1 : gset CommitHash) (queue1 : list CommitHash)
  : option (gset CommitHash) :=
  match queue1 with
  | [] => Some ancestors1
  | current :: rest =>
      match fuel with
      | O => None
      | S fuel' =>
          let '(seen, queue) := enqueueUnseen (parentsOf graph current) ancestors1 rest in
          collectAncestors fuel' graph seen queue
      end
  end.

Inductive ScanResult :=
  | Found (parent : CommitHash)
  | Continue (visited : gset CommitHash) (queue2 : list CommitHash).

(** The inner loop of the second search, with its early [return parent]. *)
Fixpoint scanParents (ancestors1 : gset CommitHash) (ps : list CommitHash)
    (visited : gset CommitHash) (queue2 : list CommitHash) : ScanResult :=
  match ps with
  | [] => Continue visited queue2
  | parent :: ps' =>
      if decide (parent ∈ ancestors1) then Found parent
      else if decide (parent ∈ visited) then scanParents ancestors1 ps' visited queue2
      else scanParents ancestors1 ps' ({[parent]} ∪ visited) (queue2 ++ [parent])
  end.

(** The second loop; the inner [option] is the [CommitHash | null] result. *)
Fixpoint searchBase (fuel : nat) (graph : RepositoryGraph)
    (ancestors1 visited : gset CommitHash) (queue2 : list CommitHash)
  : option (option CommitHash) :=
  match queue2 with
  | [] => Some None
  | current :: rest =>
      match fuel with
      | O => None
      | S fuel' =>
          match scanParents ancestors1 (parentsOf graph current) visited rest with
          | Found parent => Some (Some parent)
          | Continue visited' queue' => searchBase fuel' graph ancestors1 visited' queue'
          end
      end
  end.

Definition findMergeBaseWith (fuel : nat) (graph : RepositoryGraph)
    (hash1 hash2 : CommitHash) : option (option CommitHash) :=
  match collectAncestors fuel graph {[hash1]} [hash1] with
  | None => None
  | Some ancestors1 =>
      if decide (hash2 ∈ ancestors1) then Some (Some hash2)
      else searchBase fuel graph ancestors1 {[hash2]} [hash2]
  end.

(** Every hash a loaded commit names as a parent. *)
Definition namedParents (graph : RepositoryGraph) : gset CommitHash :=
  ⋃ ((fun entry => list_to_set (parents entry.2)) <$> map_to_list (commits graph)).

(** Each loop takes a hash off its queue per round and no hash enters a queue
    twice, so one round per named parent and one for the start are enough. *)
Definition traversalFuel (graph : RepositoryGraph) : nat :=
  S (size (namedParents graph)).

Definition findMergeBase (graph : RepositoryGraph) (hash1 hash2 : CommitHash)
  : option (option CommitHash) :=
  findMergeBaseWith (traversalFuel graph) graph hash1 hash2.

(** ** visualization.ts *)

Record VisualRef := {
  vrName : jsstring;
  vrType : RefType;
  vrIsHead : bool;
  isProtected : bool;
}.

Inductive EdgeType := EdgeStraight | EdgeMerge | EdgeFork.

Global Instance EdgeType_eq_dec : EqDecision EdgeType.
Proof. solve_decision. Defined.

Record VisualEdge := {
  eid : jsstring;
  fromHash : CommitHash;
  toHash : CommitHash;
  fromRow : Z;
  fromLane : Z;
  toRow : Z;
  toLane : Z;
  edgeType : EdgeType;
  parentIndex : nat;
}.

Record VisualCommit := {
  vcHash : CommitHash;
  row : Z;
  lane : Z;
  isMerge : bool;
  isBranchTip : bool;
  isRoot : bool;
  isHead : bool;
  vcRefs : list VisualRef;
  edgeIds : list jsstring;
}.

Record VisualGraph := {
  vgCommits : list VisualCommit;
  edges : list VisualEdge;
  totalRows : Z;
  totalLanes : Z;
  commitByHash : gmap CommitHash VisualCommit;
  commitByRow : gmap Z VisualCommit;
  edgeById : gmap jsstring VisualEdge;
  activeLanesAtRow : gmap Z (list Z);
}.

(** [protectedBranches ?? []] *)
Record LayoutOptions := { protectedBranches : list jsstring }.

Record LaneState := {
  laneByCommit : gmap CommitHash Z;
  activeLanes : gmap Z CommitHash;
  freeLanes : list Z;
  maxLane : Z;
}.

(** [xs.sort((a, b) => a - b)] *)
Definition sortAscending (xs : list Z) : list Z := merge_sort Z.le xs.

Definition allocateLane (state : LaneState) : Z * LaneState :=
  match freeLanes state with
  | _ :: _ =>
      let sorted := sortAscending (freeLanes state) in
      (default 0 (head sorted),
       {| laneByCommit := laneByCommit state; activeLanes := activeLanes state;
          freeLanes := tail sorted; maxLane := maxLane state |})
  | [] =>
      (maxLane state + 1,
       {| laneByCommit := laneByCommit state; activeLanes := activeLanes state;
          freeLanes := freeLanes state; maxLane := maxLane state + 1 |})
  end.

Definition freeLane (state : LaneState) (l : Z) : LaneState :=
  {| laneByCommit := laneByCommit state;
     activeLanes := delete l (activeLanes state);
     freeLanes := if bool_decide (l ∈ freeLanes state) then freeLanes state
                  else freeLanes state ++ [l];
     maxLane := maxLane state |}.

Definition reserveLane (state : LaneState) (h : CommitHash) (l : Z) : LaneState :=
  {| laneByCommit := <[h := l]> (laneByCommit state);
     activeLanes := activeLanes state;
     freeLanes := freeLanes state; maxLane := maxLane state |}.

Definition occupyLane (state : LaneState) (l : Z) (h : CommitHash) : LaneState :=
  {| laneByCommit := laneByCommit state;
     activeLanes := <[l := h]> (activeLanes state);
     freeLanes := freeLanes state; maxLane := maxLane state |}.

Definition releaseLane (state : LaneState) (l : Z) : LaneState :=
  {| laneByCommit := laneByCommit state;
     activeLanes := delete l (activeLanes state);
     freeLanes := freeLanes state; maxLane := maxLane state |}.

(** The copy of [matchesProtectedPattern] in visualization.ts. *)
Fixpoint matchesProtectedPattern (name : jsstring) (patterns : list jsstring)
  : Completion bool :=
  match patterns with
  | [] => Returns false
  | pattern :: rest =>
      if bool_decide (pattern = name) then Returns true
      else
        match RegExp.testAnchored
                (RegExp.starsToDotStar (RegExp.escapeSpecials pattern)) name with
        | Throws => Throws
        | Returns true => Returns true
        | Returns false => matchesProtectedPattern name rest
        end
  end.

Definition toVisualRef (options : LayoutOptions) (ref : GitRef) : Completion VisualRef :=
  match matchesProtectedPattern (refName ref) (protectedBranches options) with
  | Throws => Throws
  | Returns protected =>
      Returns {| vrName := refName ref; vrType := refType ref;
                 vrIsHead := refIsHead ref; isProtected := protected |}
  end.

(** [refsAtCommit.map((ref) => toVisualRef(ref, options))] *)
Fixpoint toVisualRefs (options : LayoutOptions) (refsAtCommit : list GitRef)
  : Completion (list VisualRef) :=
  match refsAtCommit with
  | [] => Returns []
  | ref :: rest =>
      match toVisualRef options ref with
      | Throws => Throws
      | Returns v =>
          match toVisualRefs options rest with
          | Throws => Throws
          | Returns vs => Returns (v :: vs)
          end
      end
  end.

(** The template literal [`${hash}-${parentHash}-${parentIndex}`]. *)
Definition edgeIdOf (h parentHash : CommitHash) (index : nat) : jsstring :=
  h ++ js "-" ++ parentHash ++ js "-" ++ numberToString index.

Definition edgeTypeOf (parentCount index : nat) (l parentLane : Z) : EdgeType :=
  if (1 <? parentCount)%nat && (0 <? index)%nat then EdgeMerge
  else if negb (l =? parentLane) then EdgeFork
  else EdgeStraight.

(** The lane of one parent: a lane reserved earlier, the commit's own lane
    for the first parent, a newly allocated lane otherwise. *)
Definition parentLaneOf (state : LaneState) (l : Z) (index : nat)
    (parentHash : CommitHash) : Z * LaneState :=
  match laneByCommit state !! parentHash with
  | Some reserved => (reserved, state)
  | None =>
      if (index =? 0)%nat then (l, reserveLane state parentHash l)
      else
        let '(fresh, state') := allocateLane state in
        (fresh, reserveLane state' parentHash fresh)
  end.

(** The edge object built for one parent; [toRow] is filled in later. *)
Definition newEdge (h : CommitHash) (r l : Z) (parentCount index : nat)
    (parentHash : CommitHash) (parentLane : Z) : VisualEdge :=
  {| eid := edgeIdOf h parentHash index; fromHash := h; toHash := parentHash;
     fromRow := r; fromLane := l; toRow := -1; toLane := parentLane;
     edgeType := edgeTypeOf parentCount index l parentLane;
     parentIndex := index |}.

Record EdgeLoop := {
  loopState : LaneState;
  loopEdges : list VisualEdge;
  loopEdgeIds : list jsstring;
  loopEdgeById : gmap jsstring VisualEdge;
}.

(** The loop over [commit.parents], from [parentIndex] on. *)
Fixpoint linkParents (h : CommitHash) (r l : Z) (parentCount : nat)
    (index : nat) (ps : list CommitHash) (acc : EdgeLoop) : EdgeLoop :=
  match ps with
  | [] => acc
  | parentHash :: ps' =>
      let '(parentLane, state) := parentLaneOf (loopState acc) l index parentHash in
      let edgeId := edgeIdOf h parentHash index in
      let edge := newEdge h r l parentCount index parentHash parentLane in
      linkParents h r l parentCount (S index) ps'
        {| loopState := state;
           loopEdges := loopEdges acc ++ [edge];
           loopEdgeIds := loopEdgeIds acc ++ [edgeId];
           loopEdgeById := <[edgeId := edge]> (loopEdgeById acc) |}
  end.

(** What [createVisualGraph] has built after some rows. *)
Record Layout := {
  laneState : LaneState;
  laidCommits : list VisualCommit;
  laidEdges : list VisualEdge;
  laidCommitByHash : gmap CommitHash VisualCommit;
  laidCommitByRow : gmap Z VisualCommit;
  laidEdgeById : gmap jsstring VisualEdge;
  laidActiveLanesAtRow : gmap Z (list Z);
}.

Definition emptyLayout : Layout :=
  {| laneState := {| laneByCommit := ∅; activeLanes := ∅; freeLanes := []; maxLane := -1 |};
     laidCommits := []; laidEdges := []; laidCommitByHash := ∅;
     laidCommitByRow := ∅; laidEdgeById := ∅; laidActiveLanesAtRow := ∅ |}.

(** [Array.from(state.activeLanes.keys())]; the caller sorts it, so the
    order in which the keys are listed does not show. *)
Definition activeLaneKeys (state : LaneState) : list Z :=
  (map_to_list (activeLanes state)).*1.

(** One round of the main loop for a loaded commit, after its refs were
    converted. *)
Definition placeCommit (graph : RepositoryGraph) (r : Z) (h : CommitHash)
    (commit : Commit) (refsAtCommit : list GitRef) (visualRefs : list VisualRef)
    (layout : Layout) : Layout :=
  let '(l, state) :=
    match laneByCommit (laneState layout) !! h with
    | Some reserved => (reserved, laneState layout)
    | None => allocateLane (laneState layout)
    end in
  let state := occupyLane state l h in
  let linked :=
    linkParents h r l (length (parents commit)) 0 (parents commit)
      {| loopState := state; loopEdges := laidEdges layout;
         loopEdgeIds := []; loopEdgeById := laidEdgeById layout |} in
  let state := loopState linked in
  let childList := default [] (children graph !! h) in
  let hasChildInSameLane :=
    existsb (fun childHash =>
               match laidCommitByHash layout !! childHash with
               | Some child => lane child =? l
               | None => false
               end) childList in
  let state :=
    if (length childList =? 0)%nat || negb hasChildInSameLane then
      let isLaneReservedForParent :=
        existsb (fun p => bool_decide (laneByCommit state !! p = Some l))
                (parents commit) in
      if negb isLaneReservedForParent && (0 <? l) then freeLane state l else state
    else state in
  let currentActiveLanes := sortAscending (activeLaneKeys state) in
  let state :=
    if bool_decide (activeLanes state !! l = Some h) then releaseLane state l
    else state in
  let visualCommit :=
    {| vcHash := h; row := r; lane := l;
       isMerge := (1 <? length (parents commit))%nat;
       isBranchTip := (0 <? length refsAtCommit)%nat;
       isRoot := (length (parents commit) =? 0)%nat
                 || forallb (fun p => negb (bool_decide (is_Some (commits graph !! p))))
                            (parents commit);
       isHead := bool_decide (Some h = graphHead graph);
       vcRefs := visualRefs;
       edgeIds := loopEdgeIds linked |} in
  {| laneState := state;
     laidCommits := laidCommits layout ++ [visualCommit];
     laidEdges := loopEdges linked;
     laidCommitByHash := <[h := visualCommit]> (laidCommitByHash layout);
     laidCommitByRow := <[r := visualCommit]> (laidCommitByRow layout);
     laidEdgeById := loopEdgeById linked;
     laidActiveLanesAtRow := <[r := currentActiveLanes]> (laidActiveLanesAtRow layout) |}.

(** The main loop, from row [r] on. *)
Fixpoint layoutRows (graph : RepositoryGraph) (options : LayoutOptions)
    (r : nat) (orderedHashes : list CommitHash) (layout : Layout)
  : Completion Layout :=
  match orderedHashes with
  | [] => Returns layout
  | h :: rest =>
      match commits graph !! h with
      | None => layoutRows graph options (S r) rest layout
      | Some commit =>
          let refsAtCommit := default [] (refsByCommit graph !! h) in
          match toVisualRefs options refsAtCommit with
          | Throws => Throws
          | Returns visualRefs =>
              layoutRows graph options (S r) rest
                (placeCommit graph (Z.of_nat r) h commit refsAtCommit visualRefs layout)
          end
      end
  end.

(** The second pass over one edge. *)
Definition fillToRow (byHash : gmap CommitHash VisualCommit) (edge : VisualEdge)
  : VisualEdge :=
  match byHash !! toHash edge with
  | Some parentCommit =>
      {| eid := eid edge; fromHash := fromHash edge; toHash := toHash edge;
         fromRow := fromRow edge; fromLane := fromLane edge;
         toRow := row parentCommit; toLane := toLane edge;
         edgeType := edgeType edge; parentIndex := parentIndex edge |}
  | None => edge
  end.

Definition createVisualGraph (graph : RepositoryGraph) (options : LayoutOptions)
  : Completion VisualGraph :=
  let orderedHashes := reverse (topologicalOrder graph) in
  match layoutRows graph options 0 orderedHashes emptyLayout with
  | Throws => Throws
  | Returns layout =>
      let byHash := laidCommitByHash layout in
      Returns
        {| vgCommits := laidCommits layout;
           edges := fillToRow byHash <$> laidEdges layout;
           totalRows := Z.of_nat (length (laidCommits layout));
           totalLanes := maxLane (laneState layout) + 1;
           commitByHash := byHash;
           commitByRow := laidCommitByRow layout;
           edgeById :=
             foldl (fun m edge =>
                      match byHash !! toHash edge with
                      | Some _ => <[eid edge := fillToRow byHash edge]> m
                      | None => m
                      end)
                   (laidEdgeById layout) (laidEdges layout);
           activeLanesAtRow := laidActiveLanesAtRow layout |}
  end.

(** *** Layout queries *)




(** The numbers [getBoundingBox] computes with: integers and the two
    infinities its accumulators start from. *)
Inductive Num := NegInfinity | Finite (z : Z) | Infinity.

Definition Math_min (a b : Num) : Num :=
  match a, b with
  | NegInfinity, _ | _, NegInfinity => NegInfinity
  | Infinity, x | x, Infinity => x
  | Finite x, Finite y => Finite (Z.min x y)
  end.

Definition Math_max (a b : Num) : Num :=
  match a, b with
  | Infinity, _ | _, Infinity => Infinity
  | NegInfinity, x | x, NegInfinity => x
  | Finite x, Finite y => Finite (Z.max x y)
  end.

Record BoundingBox := {
  minRow : Num;
  maxRow : Num;
  minLane : Num;
  boxMaxLane : Num;
}.

Definition includeCommit (box : BoundingBox) (commit : VisualCommit) : BoundingBox :=
  {| minRow := Math_min (minRow box) (Finite (row commit));
     maxRow := Math_max (maxRow box) (Finite (row commit));
     minLane := Math_min (minLane box) (Finite (lane commit));
     boxMaxLane := Math_max (boxMaxLane box) (Finite (lane commit)) |}.

Definition includeEdge (box : BoundingBox) (edge : VisualEdge) : BoundingBox :=
  {| minRow := minRow box;
     maxRow := maxRow box;
     minLane := Math_min (Math_min (minLane box) (Finite (fromLane edge)))
                         (Finite (toLane edge));
     boxMaxLane := Math_max (Math_max (boxMaxLane box) (Finite (fromLane edge)))
                            (Finite (toLane edge)) |}.

Definition getBoundingBox (commitList : list VisualCommit) (edgeList : list VisualEdge)
  : BoundingBox :=
  match commitList with
  | [] => {| minRow := Finite 0; maxRow := Finite 0;
             minLane := Finite 0; boxMaxLane := Finite 0 |}
  | _ =>
      let start := {| minRow := Infinity; maxRow := NegInfinity;
                      minLane := Infinity; boxMaxLane := NegInfinity |} in
      foldl includeEdge (foldl includeCommit start commitList) edgeList
  end.

(** *** Lane optimisation *)

Definition edgesCross (e1 e2 : VisualEdge) : bool :=
  let e1MinRow := Z.min (fromRow e1) (toRow e1) in
  let e1MaxRow := Z.max (fromRow e1) (toRow e1) in
  let e2MinRow := Z.min (fromRow e2) (toRow e2) in
  let e2MaxRow := Z.max (fromRow e2) (toRow e2) in
  if (e1MaxRow <=? e2MinRow) || (e2MaxRow <=? e1MinRow) then false
  else
    let e1Dir := toLane e1 - fromLane e1 in
    let e2Dir := toLane e2 - fromLane e2 in
    if (e1Dir =? 0) || (e2Dir =? 0) then false
    else
      let e1Left := Z.min (fromLane e1) (toLane e1) in
      let e1Right := Z.max (fromLane e1) (toLane e1) in
      let e2Left := Z.min (fromLane e2) (toLane e2) in
      let e2Right := Z.max (fromLane e2) (toLane e2) in
      if (e1Right <=? e2Left) || (e2Right <=? e1Left) then false
      else negb (Bool.eqb (0 <? e1Dir) (0 <? e2Dir)).

(** The double loop over [i < j]: each edge against the edges after it. *)
Fixpoint countCrossings (edgeList : list VisualEdge) : nat :=
  match edgeList with
  | [] => 0%nat
  | e :: rest => (length (List.filter (edgesCross e) rest) + countCrossings rest)%nat
  end.

(** [mapping.get(l) ?? l] *)
Definition mapLane (mapping : gmap Z Z) (l : Z) : Z := default l (mapping !! l).

Definition remapEdge (mapping : gmap Z Z) (e : VisualEdge) : VisualEdge :=
  {| eid := eid e; fromHash := fromHash e; toHash := toHash e;
     fromRow := fromRow e; fromLane := mapLane mapping (fromLane e);
     toRow := toRow e; toLane := mapLane mapping (toLane e);
     edgeType := edgeType e; parentIndex := parentIndex e |}.

Definition remapEdgeLanes (edgeList : list VisualEdge) (mapping : gmap Z Z)
  : list VisualEdge :=
  remapEdge mapping <$> edgeList.

Definition remapCommit (mapping : gmap Z Z) (c : VisualCommit) : VisualCommit :=
  {| vcHash := vcHash c; row := row c; lane := mapLane mapping (lane c);
     isMerge := isMerge c; isBranchTip := isBranchTip c; isRoot := isRoot c;
     isHead := isHead c; vcRefs := vcRefs c; edgeIds := edgeIds c |}.

Definition applyLaneMapping (graph : VisualGraph) (mapping : gmap Z Z) : VisualGraph :=
  let newCommits := remapCommit mapping <$> vgCommits graph in
  let newEdges := remapEdge mapping <$> edges graph in
  {| vgCommits := newCommits;
     edges := newEdges;
     totalRows := totalRows graph;
     totalLanes := totalLanes graph;
     commitByHash := foldl (fun m c => <[vcHash c := c]> m) ∅ newCommits;
     commitByRow := foldl (fun m c => <[row c := c]> m) ∅ newCommits;
     edgeById := foldl (fun m e => <[eid e := e]> m) ∅ newEdges;
     activeLanesAtRow :=
       (fun lanes => sortAscending (mapLane mapping <$> lanes))
         <$> activeLanesAtRow graph |}.

Definition identityMapping (lanes : Z) : gmap Z Z :=
  foldl (fun m i => <[i := i]> m) ∅ (seqZ 0 lanes).

Record SwapLoop := {
  laneMapping : gmap Z Z;
  improved : bool;
}.

(** One round of the inner [for]: try swapping [l] and [l + 1]. The
    comparison is against [crossings], the count of the input graph. *)
Definition trySwap (graph : VisualGraph) (crossings : nat) (acc : SwapLoop) (l : Z)
  : SwapLoop :=
  let a := default 0 (laneMapping acc !! l) in
  let b := default 0 (laneMapping acc !! (l + 1)) in
  let newMapping := <[l + 1 := a]> (<[l := b]> (laneMapping acc)) in
  let newEdges := remapEdgeLanes (edges graph) newMapping in
  let newCrossings := countCrossings newEdges in
  if (newCrossings <? crossings)%nat then
    {| laneMapping := newMapping; improved := true |}
  else acc.

(** One round of the [while] loop: the [for] over the adjacent lane pairs. *)
Definition swapPass (graph : VisualGraph) (crossings : nat) (mapping : gmap Z Z)
  : SwapLoop :=
  foldl (trySwap graph crossings) {| laneMapping := mapping; improved := false |}
        (seqZ 0 (totalLanes graph - 1)).

(** The [while (improved)] loop; [None] when the fuel runs out. *)
Fixpoint swapUntilStable (fuel : nat) (graph : VisualGraph) (crossings : nat)
    (mapping : gmap Z Z) : option (gmap Z Z) :=
  match fuel with
  | O => None
  | S fuel' =>
      let pass := swapPass graph crossings mapping in
      if improved pass then swapUntilStable fuel' graph crossings (laneMapping pass)
      else Some (laneMapping pass)
  end.

Definition isIdentity (mapping : gmap Z Z) : bool :=
  forallb (fun kv => fst kv =? snd kv) (map_to_list mapping).

Definition optimizeLanes (fuel : nat) (graph : VisualGraph) : option VisualGraph :=
  let crossings := countCrossings (edges graph) in
  if (crossings =? 0)%nat then Some graph
  else
    match swapUntilStable fuel graph crossings (identityMapping (totalLanes graph)) with
    | None => None
    | Some mapping =>
        if isIdentity mapping then Some graph
        else Some (applyLaneMapping graph mapping)
    end.

(** ** graph.ts: traversal utilities *)

(** [graph.children.get(h) ?? []] *)
Definition childrenOf (graph : RepositoryGraph) (h : CommitHash) : list CommitHash :=
  default [] (children graph !! h).

(** [current.depth > maxDepth], for a bound that is an integer or an
    infinity. *)
Definition deeperThan (depth : nat) (maxDepth : Num) : bool :=
  match maxDepth with
  | Infinity => false
  | Finite m => m <? Z.of_nat depth
  | NegInfinity => true
  end.

(** [for (const x of xs)
       if (!visited.has(x)) { visited.add(x); queue.push({ hash: x, depth }) }] *)
Fixpoint enqueueAtDepth (xs : list CommitHash) (depth : nat) (visited : gset CommitHash)
    (queue : list (CommitHash * nat)) : gset CommitHash * list (CommitHash * nat) :=
  match xs with
  | [] => (visited, queue)
  | x :: xs' =>
      if decide (x ∈ visited) then enqueueAtDepth xs' depth visited queue
      else enqueueAtDepth xs' depth ({[x]} ∪ visited) (queue ++ [(x, depth)])
  end.

(** The [while] loop of [getAncestors] and of [getDescendants]; [next] is
    what the loop reads for a hash, parents in one and children in the
    other. [None] when the fuel runs out. *)
Fixpoint walkToDepth (next : CommitHash -> list CommitHash) (fuel : nat) (maxDepth : Num)
    (visited : gset CommitHash) (queue : list (CommitHash * nat))
    (found : list CommitHash) : option (list CommitHash) :=
  match queue with
  | [] => Some found
  | (h, depth) :: rest =>
      match fuel with
      | O => None
      | S fuel' =>
          if deeperThan depth maxDepth
          then walkToDepth next fuel' maxDepth visited rest found
          else
            let '(visited', queue') := enqueueAtDepth (next h) (S depth) visited rest in
            walkToDepth next fuel' maxDepth visited' queue' (found ++ [h])
      end
  end.

Definition getAncestors (graph : RepositoryGraph) (commitHash : CommitHash)
    (maxDepth : Num) : option (list CommitHash) :=
  match commits graph !! commitHash with
  | None => Some []
  | Some commit =>
      let '(visited, queue) := enqueueAtDepth (parents commit) 1 ∅ [] in
      walkToDepth (parentsOf graph) (traversalFuel graph) maxDepth visited queue []
  end.

(** Every hash the child index lists as a child. *)
Definition namedChildren (graph : RepositoryGraph) : gset CommitHash :=
  ⋃ ((fun entry => list_to_set entry.2) <$> map_to_list (children graph)).

Definition descendantFuel (graph : RepositoryGraph) : nat :=
  S (size (namedChildren graph)).

Definition getDescendants (graph : RepositoryGraph) (commitHash : CommitHash)
    (maxDepth : Num) : option (list CommitHash) :=
  let '(visited, queue) := enqueueAtDepth (childrenOf graph commitHash) 1 ∅ [] in
  walkToDepth (childrenOf graph) (descendantFuel graph) maxDepth visited queue [].


(** *** isAncestor *)

Inductive AncestorScan :=
  | AncestorFound
  | AncestorNotYet (visited : gset CommitHash) (queue : list CommitHash).

(** The inner loop of [isAncestor], with its early [return true]. *)
Fixpoint scanForAncestor (potentialAncestor : CommitHash) (ps : list CommitHash)
    (visited : gset CommitHash) (queue : list CommitHash) : AncestorScan :=
  match ps with
  | [] => AncestorNotYet visited queue
  | parent :: ps' =>
      if decide (parent = potentialAncestor) then AncestorFound
      else if decide (parent ∈ visited)
           then scanForAncestor potentialAncestor ps' visited queue
           else scanForAncestor potentialAncestor ps' ({[parent]} ∪ visited)
                                (queue ++ [parent])
  end.

Fixpoint searchAncestor (fuel : nat) (graph : RepositoryGraph)
    (potentialAncestor : CommitHash) (visited : gset CommitHash)
    (queue : list CommitHash) : option bool :=
  match queue with
  | [] => Some false
  | current :: rest =>
      match fuel with
      | O => None
      | S fuel' =>
          match scanForAncestor potentialAncestor (parentsOf graph current) visited rest with
          | AncestorFound => Some true
          | AncestorNotYet visited' queue' =>
              searchAncestor fuel' graph potentialAncestor visited' queue'
          end
      end
  end.

Definition isAncestor (graph : RepositoryGraph) (potentialAncestor commit : CommitHash)
  : option bool :=
  if decide (potentialAncestor = commit) then Some false
  else searchAncestor (traversalFuel graph) graph potentialAncestor {[commit]} [commit].

(** *** getCommitsBetween *)

Record BetweenLoop := {
  betweenVisited : gset CommitHash;
  betweenQueue : list CommitHash;
  betweenResult : list CommitHash;
}.

(** [for (const parent of commit.parents)
       if (!visited.has(parent)) {
         visited.add(parent);
         if (!excluded.has(parent)) { result.push(parent); queue2.push(parent) } }] *)
Fixpoint visitIncluded (excluded : gset CommitHash) (ps : list CommitHash)
    (acc : BetweenLoop) : BetweenLoop :=
  match ps with
  | [] => acc
  | parent :: ps' =>
      if decide (parent ∈ betweenVisited acc) then visitIncluded excluded ps' acc
      else if decide (parent ∈ excluded) then
        visitIncluded excluded ps'
          {| betweenVisited := {[parent]} ∪ betweenVisited acc;
             betweenQueue := betweenQueue acc;
             betweenResult := betweenResult acc |}
      else
        visitIncluded excluded ps'
          {| betweenVisited := {[parent]} ∪ betweenVisited acc;
             betweenQueue := betweenQueue acc ++ [parent];
             betweenResult := betweenResult acc ++ [parent] |}
  end.

Fixpoint collectBetween (fuel : nat) (graph : RepositoryGraph)
    (excluded : gset CommitHash) (acc : BetweenLoop) : option (list CommitHash) :=
  match betweenQueue acc with
  | [] => Some (betweenResult acc)
  | current :: rest =>
      match fuel with
      | O => None
      | S fuel' =>
          collectBetween fuel' graph excluded
            (visitIncluded excluded (parentsOf graph current)
               {| betweenVisited := betweenVisited acc;
                  betweenQueue := rest;
                  betweenResult := betweenResult acc |})
      end
  end.

Definition getCommitsBetween (graph : RepositoryGraph) (includeRef excludeRef : CommitHash)
  : option (list CommitHash) :=
  match collectAncestors (traversalFuel graph) graph {[excludeRef]} [excludeRef] with
  | None => None
  | Some excluded =>
      collectBetween (traversalFuel graph) graph excluded
        {| betweenVisited := {[includeRef]};
           betweenQueue := [includeRef];
           betweenResult := if decide (includeRef ∈ excluded) then [] else [includeRef] |}
  end.

(** ** More of types.ts and parser.ts

    [toCommitHash] and [parseHead] lowercase a string before they test it.
    [toLowerCase] above changes the letters A-Z only; no other code unit
    lowercases to a hexadecimal digit, so the tests below give the answer
    they give in JavaScript. *)

Global Instance RefType_eq_dec : EqDecision RefType.
Proof. solve_decision. Defined.

(** [toCommitHash]; [Throws] is its [throw new Error]. *)
Definition toCommitHash (value : jsstring) : Completion CommitHash :=
  let trimmed := toLowerCase (trim value) in
  if isCommitHash trimmed then Returns trimmed else Throws.

(** [s.startsWith(prefix)], [s.endsWith(suffix)], [s.slice(n)] for
    [0 <= n], [s.indexOf(c)] with [None] for -1. *)
Fixpoint startsWith (prefix s : jsstring) : bool :=
  match prefix, s with
  | [], _ => true
  | c :: prefix', d :: s' => (c =? d)%N && startsWith prefix' s'
  | _ :: _, [] => false
  end.

Definition endsWith (suffix s : jsstring) : bool :=
  startsWith (reverse suffix) (reverse s).

Definition sliceFrom (n : nat) (s : jsstring) : jsstring := drop n s.

Fixpoint indexOf (c : N) (s : jsstring) : option nat :=
  match s with
  | [] => None
  | d :: s' => if (d =? c)%N then Some 0%nat else S <$> indexOf c s'
  end.

Module Refs.

Definition SLASH : N := 47%N.
Definition NEWLINE : N := 10%N.

Record Branch := {
  branchRef : GitRef;
  remoteName : option jsstring;
  branchIsProtected : bool;
}.

Record Tag := {
  tagRef : GitRef;
  isAnnotated : bool;
}.

(** What [parseRefLine] hands back as [ref]: a [Branch] or a [Tag], both of
    which are [GitRef]s. *)
Inductive ParsedRef :=
  | BranchRef (branch : Branch)
  | TagRef (t : Tag).

Definition gitRefOf (ref : ParsedRef) : GitRef :=
  match ref with
  | BranchRef branch => branchRef branch
  | TagRef t => tagRef t
  end.

(** [{ ok: true, ref }], [{ ok: false, error }] or [{ ok: false, skip: true }] *)
Inductive RefLineResult :=
  | RefOk (ref : ParsedRef)
  | RefErr (error : Parser.ParseError)
  | RefSkip.

Record ParseRefsResult := {
  refs : list GitRef;
  branches : list Branch;
  tags : list Tag;
  errors : list Parser.ParseError;
}.

Record ParseRefsOptions := {
  headBranch : option jsstring;
  protectedPatterns : list jsstring;
}.

Definition extractRemoteName (name : jsstring) : jsstring :=
  match indexOf SLASH name with
  | None => name
  | Some slashIndex => substring0 slashIndex name
  end.

Definition parseRefLine (line : jsstring) (headBranchName : option jsstring)
    (patterns : list jsstring) : Completion RefLineResult :=
  let parts := splitWhiteSpace (trim line) in
  if (length parts <? 2)%nat then
    Returns (RefErr
      {| Parser.errorType := Parser.malformed_record;
         Parser.message := js "Expected at least 2 parts in ref line, got "
                           ++ numberToString (length parts);
         Parser.record := Some line;
         Parser.field := None |})
  else
    let hash := Parser.fieldAt parts 0 in
    let fullName := Parser.fieldAt parts 1 in
    let objectType := parts !! 2%nat in
    if bool_decide (hash = []) || negb (Parser.isValidHash hash) then
      Returns (RefErr
        {| Parser.errorType := Parser.invalid_hash;
           Parser.message := js "Invalid ref hash: " ++ hash;
           Parser.record := Some line;
           Parser.field := None |})
    else if bool_decide (fullName = []) then
      Returns (RefErr
        {| Parser.errorType := Parser.malformed_record;
           Parser.message := js "Missing ref name";
           Parser.record := Some line;
           Parser.field := None |})
    else
      let commitHash := unsafeCommitHash (toLowerCase hash) in
      if startsWith (js "refs/heads/") fullName then
        let name := sliceFrom (length (js "refs/heads/")) fullName in
        match Parser.matchesProtectedPattern name patterns with
        | Throws => Throws
        | Returns protected =>
            Returns (RefOk (BranchRef
              {| branchRef := {| refName := name; fullName := fullName;
                                 commitHash := commitHash; refType := local;
                                 refIsHead := bool_decide (Some name = headBranchName) |};
                 remoteName := None;
                 branchIsProtected := protected |}))
        end
      else if startsWith (js "refs/remotes/") fullName then
        let name := sliceFrom (length (js "refs/remotes/")) fullName in
        if endsWith (js "/HEAD") name then Returns RefSkip
        else
          let remoteOfName := extractRemoteName name in
          match Parser.matchesProtectedPattern name patterns with
          | Throws => Throws
          | Returns protected =>
              Returns (RefOk (BranchRef
                {| branchRef := {| refName := name; fullName := fullName;
                                   commitHash := commitHash; refType := remote;
                                   refIsHead := false |};
                   remoteName := Some remoteOfName;
                   branchIsProtected := protected |}))
          end
      else if startsWith (js "refs/tags/") fullName then
        let name := sliceFrom (length (js "refs/tags/")) fullName in
        Returns (RefOk (TagRef
          {| tagRef := {| refName := name; fullName := fullName;
                          commitHash := commitHash; refType := tag;
                          refIsHead := false |};
             isAnnotated := bool_decide (objectType = Some (js "tag")) |}))
      else Returns RefSkip.

(** The body of the loop of [parseRefs] for one result. *)
Definition pushRef (acc : ParseRefsResult) (result : RefLineResult) : ParseRefsResult :=
  match result with
  | RefOk (BranchRef branch) =>
      {| refs := refs acc ++ [branchRef branch];
         branches := branches acc ++ [branch];
         tags := tags acc; errors := errors acc |}
  | RefOk (TagRef t) =>
      {| refs := refs acc ++ [tagRef t];
         branches := branches acc;
         tags := tags acc ++ [t]; errors := errors acc |}
  | RefErr error =>
      {| refs := refs acc; branches := branches acc; tags := tags acc;
         errors := errors acc ++ [error] |}
  | RefSkip => acc
  end.

Fixpoint parseRefLines (lines : list jsstring) (options : ParseRefsOptions)
    (acc : ParseRefsResult) : Completion ParseRefsResult :=
  match lines with
  | [] => Returns acc
  | line :: rest =>
      match parseRefLine line (headBranch options) (protectedPatterns options) with
      | Throws => Throws
      | Returns result => parseRefLines rest options (pushRef acc result)
      end
  end.

(** The lines the loop of [parseRefs] visits. *)
Definition refLines (raw : jsstring) : list jsstring :=
  List.filter (fun line => (0 <? length (trim line))%nat) (split NEWLINE raw).

Definition parseRefs (raw : jsstring) (options : ParseRefsOptions)
  : Completion ParseRefsResult :=
  let empty := {| refs := []; branches := []; tags := []; errors := [] |} in
  if bool_decide (raw = []) || (length (trim raw) =? 0)%nat then Returns empty
  else parseRefLines (refLines raw) options empty.

Record HeadState := {
  parsedHeadRef : option jsstring;
  parsedHeadCommit : option CommitHash;
}.

(** [parseHead]; [if (output)] fails for [null] and for the empty string. *)
Definition parseHead (symbolicRefOutput revParseOutput : option jsstring) : HeadState :=
  {| parsedHeadRef :=
       match symbolicRefOutput with
       | Some output =>
           if bool_decide (output = []) then None
           else
             let trimmed := trim output in
             if (0 <? length trimmed)%nat then Some trimmed else None
       | None => None
       end;
     parsedHeadCommit :=
       match revParseOutput with
       | Some output =>
           if bool_decide (output = []) then None
           else
             let trimmed := toLowerCase (trim output) in
             if Parser.isValidHash trimmed then Some (unsafeCommitHash trimmed) else None
       | None => None
       end |}.

End Refs.

(** ** More of visualization.ts *)

(** The rows the loop of [getVisibleCommits] visits: from [startRow] up,
    while [row <= endRow && row < graph.totalRows]. *)
Definition visibleRows (graph : VisualGraph) (startRow endRow : Z) : list Z :=
  seqZ startRow (Z.min endRow (totalRows graph - 1) - startRow + 1).

Definition getVisibleCommits (graph : VisualGraph) (startRow endRow : Z)
  : list VisualCommit :=
  omap (fun r => commitByRow graph !! r) (visibleRows graph startRow endRow).

Record Point := {
  pointRow : Z;
  pointLane : Z;
}.

(** [Math.floor((edge.fromRow + edge.toRow) / 2)] is the quotient rounded
    down, which is what [/] on [Z] computes. *)
Definition getEdgePath (edge : VisualEdge) : list Point :=
  [{| pointRow := fromRow edge; pointLane := fromLane edge |}]
  ++ (if bool_decide (fromLane edge <> toLane edge) then
        match edgeType edge with
        | EdgeMerge => [{| pointRow := fromRow edge; pointLane := toLane edge |}]
        | _ =>
            let midRow := (fromRow edge + toRow edge) / 2 in
            [{| pointRow := midRow; pointLane := fromLane edge |};
             {| pointRow := midRow; pointLane := toLane edge |}]
        end
      else [])
  ++ [{| pointRow := toRow edge; pointLane := toLane edge |}].

(** ** graph.ts: statistics *)

Record GraphStats := {
  totalCommits : nat;
  totalBranches : nat;
  totalTags : nat;
  totalRoots : nat;
  mergeCommits : nat;
  maxParents : nat;
  oldestCommit : option Z;
  newestCommit : option Z;
}.

(** The four variables of the loop of [getGraphStats]. *)
Record StatsLoop := {
  loopMerges : nat;
  loopMaxParents : nat;
  loopOldest : option Z;
  loopNewest : option Z;
}.

(** The body of [for (const commit of graph.commits.values())]. A [Date] is
    its time value, as in [Commit]; [!oldestCommit] tests for [null]. *)
Definition countCommit (acc : StatsLoop) (commit : Commit) : StatsLoop :=
  {| loopMerges :=
       if (1 <? length (parents commit))%nat then S (loopMerges acc) else loopMerges acc;
     loopMaxParents :=
       if (loopMaxParents acc <? length (parents commit))%nat
       then length (parents commit) else loopMaxParents acc;
     loopOldest :=
       match loopOldest acc with
       | None => Some (committedAt commit)
       | Some oldest =>
           if committedAt commit <? oldest then Some (committedAt commit) else Some oldest
       end;
     loopNewest :=
       match loopNewest acc with
       | None => Some (committedAt commit)
       | Some newest =>
           if newest <? committedAt commit then Some (committedAt commit) else Some newest
       end |}.

Definition countCommits (commitList : list Commit) : StatsLoop :=
  foldl countCommit
        {| loopMerges := 0; loopMaxParents := 0; loopOldest := None; loopNewest := None |}
        commitList.

(** The loop visits the values of the [Map] in insertion order, [map_to_list]
    lists them in another; [countCommits_Permutation] shows that the order
    does not matter. *)
Definition getGraphStats (graph : RepositoryGraph) : GraphStats :=
  let loop := countCommits (map_to_list (commits graph)).*2 in
  let branches := filter (fun r => refType r = local \/ refType r = remote) (refs graph) in
  let tags := filter (fun r => refType r = tag) (refs graph) in
  {| totalCommits := size (commits graph);
     totalBranches := length branches;
     totalTags := length tags;
     totalRoots := length (roots graph);
     mergeCommits := loopMerges loop;
     maxParents := loopMaxParents loop;
     oldestCommit := loopOldest loop;
     newestCommit := loopNewest loop |}.

(** ** executor.ts: the allow list *)

Module Executor.

Definition SAFE_SUBCOMMANDS : list jsstring :=
  [js "rev-parse"; js "status";
   js "log"; js "show-ref"; js "for-each-ref"; js "symbolic-ref"; js "branch"; js "tag";
   js "show"; js "cat-file"; js "ls-tree"; js "ls-files";
   js "diff"; js "diff-tree";
   js "remote";
   js "config"].

Definition DANGEROUS_FLAGS : list jsstring :=
  [js "--delete"; js "-d"; js "-D"; js "--force"; js "-f"; js "--move"; js "-m"; js "-M";
   js "--set-upstream"; js "-u"; js "--unset"; js "--remove-section";
   js "--rename-section"; js "--replace-all"; js "--add"].

Definition readFlags : list jsstring :=
  [js "--get"; js "--get-all"; js "--list"; js "-l"; js "--get-regexp"].

Definition unsafeRemoteOps : list jsstring :=
  [js "add"; js "remove"; js "rm"; js "rename"; js "set-url"; js "set-head";
   js "set-branches"; js "prune"].

(** The code unit of [=]. *)
Definition EQUALS : N := 61%N.

(** [validateCommand]: [Returns tt] when the command may run, [Throws] for
    the [GitExecutorError] of type [unsafe_command]. A [Set]'s [has] and an
    array's [includes] are membership; [a.includes('=')] looks for the code
    unit in the string. *)
Definition validateCommand (args : list jsstring) : Completion unit :=
  match args with
  | [] => Throws
  | subcommand :: _ =>
      if bool_decide (subcommand = []) || negb (bool_decide (subcommand ∈ SAFE_SUBCOMMANDS))
      then Throws
      else if existsb (fun arg => bool_decide (arg ∈ DANGEROUS_FLAGS)) args then Throws
      else
        let hasReadFlag := existsb (fun a => bool_decide (a ∈ readFlags)) args in
        let hasWritePattern := existsb (fun a => bool_decide (EQUALS ∈ a)) args in
        if bool_decide (subcommand = js "config") && (negb hasReadFlag || hasWritePattern)
        then Throws
        else if bool_decide (subcommand = js "remote")
                && existsb (fun a => bool_decide (a ∈ unsafeRemoteOps)) args
        then Throws
        else Returns tt
  end.

(** The command builders of [GitCommands], but for [log], whose arguments
    print a number and dates. An optional parameter is an [option];
    [options?.nameOnly] is the boolean it is tested as. *)
Module GitCommands.

Definition refs : list jsstring :=
  [js "for-each-ref"; js "--format=%(objectname) %(refname) %(objecttype)";
   js "refs/heads"; js "refs/remotes"; js "refs/tags"].

Definition headRef : list jsstring := [js "symbolic-ref"; js "--short"; js "HEAD"].

Definition headCommit : list jsstring := [js "rev-parse"; js "HEAD"].

Definition verifyRepo : list jsstring := [js "rev-parse"; js "--git-dir"].

Definition listTree (commitish : jsstring) (path : option jsstring) : list jsstring :=
  let args := [js "ls-tree"; js "-r"; js "--name-only"; commitish] in
  match path with
  | Some p => if bool_decide (p = []) then args else args ++ [js "--"; p]
  | None => args
  end.

Definition showFile (commitish path : jsstring) : list jsstring :=
  [js "show"; commitish ++ js ":" ++ path].

Definition diff (from to : jsstring) (nameOnly : bool) : list jsstring :=
  let args := [js "diff"; from; to] in
  if nameOnly then args ++ [js "--name-only"] else args.

Definition getConfig (key : jsstring) : list jsstring := [js "config"; js "--get"; key].

Definition listConfig : list jsstring := [js "config"; js "--list"].

End GitCommands.

End Executor.

(** ** mutations.ts: validation *)

Module Mutations.

Inductive BranchType := LocalBranch | RemoteBranch.

Record MutationBase := {
  description : jsstring;
  command : list jsstring;
  isDestructive : bool;
  mutationWarnings : list jsstring;
}.

Inductive Mutation :=
  | BranchDelete (base : MutationBase) (branchName : jsstring) (branchType : BranchType)
                 (isFullyMerged force : bool) (commitHash : CommitHash)
  | BranchRename (base : MutationBase) (oldName newName : jsstring)
  | TagDelete (base : MutationBase) (tagName : jsstring) (commitHash : CommitHash).

Record ValidationResult := {
  valid : bool;
  errors : list jsstring;
  warnings : list jsstring;
}.

Record MutationConfig := {
  protectedBranches : list jsstring;
  allowForceDelete : bool;
  allowDeleteCurrentBranch : bool;
  allowDeleteRemote : bool;
}.

Definition DEFAULT_MUTATION_CONFIG : MutationConfig :=
  {| protectedBranches :=
       [js "main"; js "master"; js "develop"; js "release/*"; js "production"];
     allowForceDelete := false;
     allowDeleteCurrentBranch := false;
     allowDeleteRemote := false |}.

(** [isProtectedBranch]: the third copy of the matcher. It builds a regular
    expression only for a pattern that holds a star. *)
Fixpoint isProtectedBranch (name : jsstring) (patterns : list jsstring) : Completion bool :=
  match patterns with
  | [] => Returns false
  | pattern :: rest =>
      if bool_decide (pattern = name) then Returns true
      else if bool_decide (RegExp.STAR ∈ pattern) then
        match RegExp.testAnchored (RegExp.starsToDotStar (RegExp.escapeSpecials pattern))
                                  name with
        | Throws => Throws
        | Returns true => Returns true
        | Returns false => isProtectedBranch name rest
        end
      else isProtectedBranch name rest
  end.

(** The two arrays [validateMutation] hands to the checks, which push to
    them. *)
Record Findings := {
  foundErrors : list jsstring;
  foundWarnings : list jsstring;
}.

Definition pushError (message : jsstring) (acc : Findings) : Findings :=
  {| foundErrors := foundErrors acc ++ [message]; foundWarnings := foundWarnings acc |}.

Definition pushWarning (message : jsstring) (acc : Findings) : Findings :=
  {| foundErrors := foundErrors acc; foundWarnings := foundWarnings acc ++ [message] |}.

Definition validateBranchDelete (branchName : jsstring) (branchType : BranchType)
    (isFullyMerged force : bool) (config : MutationConfig) (graph : RepositoryGraph)
    (acc : Findings) : Completion Findings :=
  match isProtectedBranch branchName (protectedBranches config) with
  | Throws => Throws
  | Returns protected =>
      let acc :=
        if protected
        then pushError (js "Branch '" ++ branchName
                        ++ js "' is protected and cannot be deleted") acc
        else acc in
      let acc :=
        if bool_decide (headRef graph = Some branchName) then
          if negb (allowDeleteCurrentBranch config)
          then pushError (js "Cannot delete the current branch '" ++ branchName
                          ++ js "'. Switch to another branch first.") acc
          else pushWarning
                 (js "You are deleting the current branch. HEAD will become detached.") acc
        else acc in
      let acc :=
        match branchType with
        | RemoteBranch =>
            pushWarning
              (js "This will only delete the local remote-tracking branch, not the branch on the remote server.")
              (if negb (allowDeleteRemote config)
               then pushError
                      (js "Remote branch deletion is disabled. Enable 'allowDeleteRemote' to allow this.")
                      acc
               else acc)
        | LocalBranch => acc
        end in
      let acc :=
        if negb isFullyMerged then
          if negb force && negb (allowForceDelete config)
          then pushError (js "Branch '" ++ branchName
                          ++ js "' is not fully merged. Use force delete or merge it first.")
                         acc
          else if force
          then pushWarning (js "Branch '" ++ branchName
                            ++ js "' is not fully merged. Deleting it may result in lost commits.")
                           acc
          else acc
        else acc in
      Returns acc
  end.

Definition validateBranchRename (oldName newName : jsstring) (config : MutationConfig)
    (graph : RepositoryGraph) (acc : Findings) : Completion Findings :=
  match isProtectedBranch oldName (protectedBranches config) with
  | Throws => Throws
  | Returns oldProtected =>
      let acc :=
        if oldProtected
        then pushError (js "Branch '" ++ oldName
                        ++ js "' is protected and cannot be renamed") acc
        else acc in
      match isProtectedBranch newName (protectedBranches config) with
      | Throws => Throws
      | Returns newProtected =>
          let acc :=
            if newProtected
            then pushWarning (js "New name '" ++ newName
                              ++ js "' matches a protected branch pattern") acc
            else acc in
          let existingBranch :=
            List.find (fun r => bool_decide (refType r = local)
                                && bool_decide (refName r = newName)) (refs graph) in
          Returns (match existingBranch with
                   | Some _ => pushError (js "Branch '" ++ newName ++ js "' already exists") acc
                   | None => acc
                   end)
      end
  end.

Definition validateTagDelete (acc : Findings) : Findings :=
  pushWarning
    (js "This will only delete the local tag. If it was pushed, it will still exist on the remote.")
    acc.

Definition validateMutation (mutation : Mutation) (config : MutationConfig)
    (graph : RepositoryGraph) : Completion ValidationResult :=
  let start := {| foundErrors := []; foundWarnings := [] |} in
  let checked :=
    match mutation with
    | BranchDelete _ branchName branchType isFullyMerged force _ =>
        validateBranchDelete branchName branchType isFullyMerged force config graph start
    | BranchRename _ oldName newName =>
        validateBranchRename oldName newName config graph start
    | TagDelete _ _ _ => Returns (validateTagDelete start)
    end in
  match checked with
  | Throws => Throws
  | Returns acc =>
      Returns {| valid := (length (foundErrors acc) =? 0)%nat;
                 errors := foundErrors acc;
                 warnings := foundWarnings acc |}
  end.

(** [buildBranchDeleteCommand], from the type and the name of the branch. *)
Definition buildBranchDeleteCommand (branchType : BranchType) (branchName : jsstring)
    (force isFullyMerged : bool) : list jsstring :=
  let flag := if force || negb isFullyMerged then js "-D" else js "-d" in
  match branchType with
  | RemoteBranch => [js "branch"; flag; js "-r"; branchName]
  | LocalBranch => [js "branch"; flag; branchName]
  end.

End Mutations.

(** * Specification-side notions

    The definitions below do not come from the source: they state what the
    specification says, name the invariants of the loops, and give the sample
    inputs the examples run on. *)

(** ** Parser *)

Definition hashField (record : jsstring) : jsstring :=
  Parser.fieldAt (split Parser.FIELD_SEPARATOR record) 0.

Definition okCommit (r : Parser.RecordResult) : option Commit :=
  match r with Parser.Ok commit => Some commit | Parser.Err _ => None end.

Definition errOf (r : Parser.RecordResult) : option Parser.ParseError :=
  match r with Parser.Ok _ => None | Parser.Err error => Some error end.

Definition allWhiteSpace (s : jsstring) : Prop :=
  Forall (fun c => isWhiteSpace c = true) s.

(** ** Protected patterns, as the specification words them: a star stands
    for any run of characters, every other character for itself. *)

Fixpoint globMatches (pattern name : jsstring) : bool :=
  match pattern with
  | [] => match name with [] => true | _ => false end
  | c :: pattern' =>
      if (c =? RegExp.STAR)%N then
        (fix star (name : jsstring) : bool :=
           globMatches pattern' name ||
           match name with
           | _ :: name' => star name'
           | [] => false
           end) name
      else
        match name with
        | d :: name' => (d =? c)%N && globMatches pattern' name'
        | [] => false
        end
  end.

Definition protectedBySpec (name : jsstring) (patterns : list jsstring) : bool :=
  existsb (fun pattern => globMatches pattern name) patterns.

(** The terms of the expression built for a pattern without question marks. *)
Definition termsOf (pattern : jsstring) : list RegExp.Term :=
  (fun c => if (c =? RegExp.STAR)%N then RegExp.AnyStar else RegExp.Char c) <$> pattern.

(** The source built for a pattern, and the part of it one character gives. *)
Definition regexSource (pattern : jsstring) : jsstring :=
  RegExp.starsToDotStar (RegExp.escapeSpecials pattern).

Definition sourcePiece (c : N) : jsstring :=
  if (c =? RegExp.STAR)%N then [RegExp.DOT; RegExp.STAR]
  else if RegExp.isEscaped c then [RegExp.BACKSLASH; c]
  else [c].

Definition plainPattern (pattern : jsstring) : Prop :=
  Forall (fun c => c <> RegExp.QUESTION) pattern.

Definition singleLine (name : jsstring) : Prop :=
  Forall (fun c => RegExp.isLineTerminator c = false) name.

(** ** Traversals *)

Definition parentOf (graph : RepositoryGraph) (x p : CommitHash) : Prop :=
  p ∈ parentsOf graph x.

(** [reaches graph x y]: [y] is [x] or an ancestor of [x], following the
    parent lists of the loaded commits. *)
Definition reaches (graph : RepositoryGraph) : relation CommitHash :=
  rtc (parentOf graph).

(** A breadth-first traversal through parents that never stops early: the
    parents it reads, in the order it reads them. *)
Fixpoint bfsParents (fuel : nat) (graph : RepositoryGraph)
    (visited : gset CommitHash) (queue : list CommitHash) : option (list CommitHash) :=
  match queue with
  | [] => Some []
  | current :: rest =>
      match fuel with
      | O => None
      | S fuel' =>
          let ps := parentsOf graph current in
          let '(visited', queue') := enqueueUnseen ps visited rest in
          (ps ++.) <$> bfsParents fuel' graph visited' queue'
      end
  end.

Definition parentsInBfsOrder (graph : RepositoryGraph) (start : CommitHash)
  : option (list CommitHash) :=
  bfsParents (traversalFuel graph) graph {[start]} [start].

(** The first hash of a sequence that lies in a set. *)
Definition firstIn (A : gset CommitHash) (hs : list CommitHash) : option CommitHash :=
  List.find (fun p => bool_decide (p ∈ A)) hs.

(** What is left to do: hashes not yet seen and hashes still queued. *)
Definition traversalMeasure (graph : RepositoryGraph) (seen : gset CommitHash)
    (queue : list CommitHash) : nat :=
  (size (namedParents graph ∖ seen) + length queue)%nat.

(** What has been seen is reachable, and what has left the queue has all its
    parents seen. *)
Definition bfsInv (graph : RepositoryGraph) (start : CommitHash)
    (seen : gset CommitHash) (queue : list CommitHash) : Prop :=
  start ∈ seen /\
  (forall x, x ∈ queue -> x ∈ seen) /\
  (forall x, x ∈ seen -> reaches graph start x) /\
  (forall x, x ∈ seen -> x ∈ queue \/ forall p, parentOf graph x p -> p ∈ seen).

(** ** Layout *)

Definition rowEdges (es : list VisualEdge) (r : Z) : list VisualEdge :=
  filter (fun e => fromRow e = r) es.

(** The edges that leave a visual commit. *)
Definition outgoingEdges (vg : VisualGraph) (vc : VisualCommit) : list VisualEdge :=
  filter (fun e => fromHash e = vcHash vc /\ fromRow e = row vc) (edges vg).

(** The edge the loop builds for the parent in one slot, whatever lane that
    parent was given. *)
Definition edgeFor (h : CommitHash) (r l : Z) (parentCount : nat)
    (slot : nat * CommitHash) (e : VisualEdge) : Prop :=
  e = newEdge h r l parentCount slot.1 slot.2 (toLane e).

(** What holds of the layout before row [r] is processed; [order] is the
    whole sequence of hashes the loop walks. *)
Definition edgeInv (graph : RepositoryGraph) (order : list CommitHash) (r : nat)
    (e : VisualEdge) : Prop :=
  0 <= fromRow e < Z.of_nat r /\ toRow e = -1 /\
  order !! Z.to_nat (fromRow e) = Some (fromHash e) /\
  exists commit,
    commits graph !! fromHash e = Some commit /\
    parents commit !! parentIndex e = Some (toHash e) /\
    e = newEdge (fromHash e) (fromRow e) (fromLane e) (length (parents commit))
                (parentIndex e) (toHash e) (toLane e).

Definition commitInv (graph : RepositoryGraph) (es : list VisualEdge) (r : nat)
    (vc : VisualCommit) : Prop :=
  0 <= row vc < Z.of_nat r /\
  exists commit,
    commits graph !! vcHash vc = Some commit /\
    Forall2 (edgeFor (vcHash vc) (row vc) (lane vc) (length (parents commit)))
            (zip (seq 0 (length (parents commit))) (parents commit))
            (rowEdges es (row vc)).

Definition layoutInv (graph : RepositoryGraph) (order : list CommitHash) (r : nat)
    (layout : Layout) : Prop :=
  Forall (edgeInv graph order r) (laidEdges layout) /\
  NoDup ((fun e => (fromRow e, parentIndex e)) <$> laidEdges layout) /\
  Forall (commitInv graph (laidEdges layout) r) (laidCommits layout) /\
  (forall h, is_Some (laidCommitByHash layout !! h) <->
             exists vc, vc ∈ laidCommits layout /\ vcHash vc = h).

(** A repository graph whose hashes are commit hashes and whose topological
    order lists each commit once. *)
Definition validGraph (graph : RepositoryGraph) : Prop :=
  NoDup (topologicalOrder graph) /\
  Forall (fun h => isCommitHash h = true) (topologicalOrder graph) /\
  map_Forall (fun _ commit => Forall (fun p => isCommitHash p = true) (parents commit))
             (commits graph).

(** The snapshot of a row holds the lane of its commit or nothing. *)
Definition snapshotOf (layout : Layout) (vc : VisualCommit) : Prop :=
  laidActiveLanesAtRow layout !! row vc = Some [lane vc] \/
  laidActiveLanesAtRow layout !! row vc = Some [].

Definition snapshotInv (r : nat) (layout : Layout) : Prop :=
  activeLanes (laneState layout) = ∅ /\
  Forall (fun vc => row vc < Z.of_nat r /\ snapshotOf layout vc) (laidCommits layout).


(** ** Bounding box *)

Definition isMinimumOf (m : Z) (xs : list Z) : Prop :=
  m ∈ xs /\ Forall (fun x => m <= x) xs.

Definition isMaximumOf (m : Z) (xs : list Z) : Prop :=
  m ∈ xs /\ Forall (fun x => x <= m) xs.

Definition commitRows (cs : list VisualCommit) : list Z := row <$> cs.
Definition commitLanes (cs : list VisualCommit) : list Z := lane <$> cs.
Definition edgeRows (es : list VisualEdge) : list Z :=
  es ≫= fun e => [fromRow e; toRow e].
Definition edgeLanes (es : list VisualEdge) : list Z :=
  es ≫= fun e => [fromLane e; toLane e].

Definition zeroBox : BoundingBox :=
  {| minRow := Finite 0; maxRow := Finite 0; minLane := Finite 0; boxMaxLane := Finite 0 |}.

(** A running minimum and a running maximum over the values read so far. *)
Definition lowerOf (n : Num) (xs : list Z) : Prop :=
  match n with
  | Infinity => xs = []
  | Finite m => isMinimumOf m xs
  | NegInfinity => False
  end.

Definition upperOf (n : Num) (xs : list Z) : Prop :=
  match n with
  | NegInfinity => xs = []
  | Finite m => isMaximumOf m xs
  | Infinity => False
  end.

Definition boxCovers (box : BoundingBox) (rows lanes : list Z) : Prop :=
  lowerOf (minRow box) rows /\ upperOf (maxRow box) rows /\
  lowerOf (minLane box) lanes /\ upperOf (boxMaxLane box) lanes.

(** ** Crossings *)

Definition minRowOf (e : VisualEdge) : Z := Z.min (fromRow e) (toRow e).
Definition maxRowOf (e : VisualEdge) : Z := Z.max (fromRow e) (toRow e).
Definition leftLaneOf (e : VisualEdge) : Z := Z.min (fromLane e) (toLane e).
Definition rightLaneOf (e : VisualEdge) : Z := Z.max (fromLane e) (toLane e).

(** Each span ends strictly after the other begins. *)
Definition rowSpansOverlap (e1 e2 : VisualEdge) : Prop :=
  minRowOf e2 < maxRowOf e1 /\ minRowOf e1 < maxRowOf e2.

Definition laneSpansOverlap (e1 e2 : VisualEdge) : Prop :=
  leftLaneOf e2 < rightLaneOf e1 /\ leftLaneOf e1 < rightLaneOf e2.

Definition leansRight (e : VisualEdge) : Prop := fromLane e < toLane e.
Definition leansLeft (e : VisualEdge) : Prop := toLane e < fromLane e.

(** One edge leans left-to-right, the other right-to-left. *)
Definition oppositeLean (e1 e2 : VisualEdge) : Prop :=
  (leansRight e1 /\ leansLeft e2) \/ (leansLeft e1 /\ leansRight e2).

(** ** Traversals with a depth bound *)

(** [x] is [n] steps of [next] away from [start], for some [n] between 1 and
    the bound. *)
Definition withinDepth (next : CommitHash -> list CommitHash) (maxDepth : Num)
    (start x : CommitHash) : Prop :=
  exists n, (1 <= n)%nat /\ deeperThan n maxDepth = false /\
            nsteps (fun a b => b ∈ next a) n start x.

(** The pairs still queued and the pairs taken off the queue. *)
Definition depthInv (next : CommitHash -> list CommitHash) (maxDepth : Num)
    (start : CommitHash) (visited : gset CommitHash)
    (queue processed : list (CommitHash * nat)) : Prop :=
  (forall v, v ∈ visited <-> v ∈ (processed ++ queue).*1) /\
  NoDup (processed ++ queue).*1 /\
  (forall h d, (h, d) ∈ processed ++ queue ->
               (1 <= d)%nat /\ nsteps (fun a b => b ∈ next a) d start h) /\
  StronglySorted le (processed ++ queue).*2 /\
  (forall d d', head queue.*2 = Some d -> d' ∈ queue.*2 -> (d' <= S d)%nat) /\
  (forall y d, (y, d) ∈ processed -> deeperThan d maxDepth = false ->
               forall x, x ∈ next y -> exists dx, (x, dx) ∈ processed ++ queue /\ (dx <= S d)%nat) /\
  (forall x, x ∈ next start -> (x, 1%nat) ∈ processed ++ queue).

Definition foundOf (maxDepth : Num) (processed : list (CommitHash * nat)) : list CommitHash :=
  (filter (fun p => deeperThan p.2 maxDepth = false) processed).*1.



(** What the second loop of [getCommitsBetween] keeps. *)
Definition betweenInv (graph : RepositoryGraph) (includeRef : CommitHash)
    (excluded : gset CommitHash) (acc : BetweenLoop) : Prop :=
  includeRef ∈ betweenVisited acc /\
  (forall x, x ∈ betweenQueue acc -> x = includeRef \/ x ∈ betweenResult acc) /\
  (forall x, x ∈ betweenResult acc ->
             x ∈ betweenVisited acc /\ (x ∉ excluded) /\ reaches graph includeRef x) /\
  (forall x, x ∈ betweenVisited acc -> x ∉ excluded -> x ∈ betweenResult acc) /\
  (forall x, x = includeRef \/ x ∈ betweenResult acc ->
             x ∈ betweenQueue acc \/
             (forall p, parentOf graph x p -> p ∈ betweenVisited acc)) /\
  NoDup (betweenResult acc).

(** ** Indices of [buildGraph] *)

(** The (parent, child) pairs of a commit list, in the order [buildGraph]
    meets them. *)
Definition parentLinks (commitList : list Commit) : list (CommitHash * CommitHash) :=
  commitList ≫= fun commit => (fun parentHash => (parentHash, hash commit)) <$> parents commit.

(** The commits of a list that carry a hash. *)
Definition commitsWithHash (commitList : list Commit) (h : CommitHash) : list Commit :=
  filter (fun commit => hash commit = h) commitList.

(** ** Refs *)

(** The prefix of the full name of a ref of each type. *)
Definition refPrefix (type : RefType) : jsstring :=
  match type with
  | local => js "refs/heads/"
  | remote => js "refs/remotes/"
  | tag => js "refs/tags/"
  end.

(** What [parseRefs] guarantees of every ref it returns. *)
Definition wellFormedRef (headBranchName : option jsstring) (ref : GitRef) : Prop :=
  isCommitHash (commitHash ref) = true /\
  fullName ref = refPrefix (refType ref) ++ refName ref /\
  (refIsHead ref = true <-> refType ref = local /\ Some (refName ref) = headBranchName) /\
  (refType ref = remote -> endsWith (js "/HEAD") (refName ref) = false).

(** What [toLowerCase] does to one code unit. *)
Definition lowerUnit (c : N) : N := (if (65 <=? c) && (c <=? 90) then c + 32 else c)%N.

(** What a loaded line gives: the ref is well formed, its name holds no
    white space, and the branch fields are what the helper functions say. *)
Definition refLineOk (headBranchName : option jsstring) (patterns : list jsstring)
    (ref : Refs.ParsedRef) : Prop :=
  wellFormedRef headBranchName (Refs.gitRefOf ref) /\
  Forall (fun c => isWhiteSpace c = false) (refName (Refs.gitRefOf ref)) /\
  match ref with
  | Refs.BranchRef branch =>
      refType (Refs.branchRef branch) <> tag /\
      Parser.matchesProtectedPattern (refName (Refs.branchRef branch)) patterns
        = Returns (Refs.branchIsProtected branch) /\
      Refs.remoteName branch =
        match refType (Refs.branchRef branch) with
        | remote => Some (Refs.extractRemoteName (refName (Refs.branchRef branch)))
        | _ => None
        end
  | Refs.TagRef t => refType (Refs.tagRef t) = tag
  end.

(** What the loop of [parseRefs] keeps. *)
Definition refsInv (headBranchName : option jsstring) (patterns : list jsstring)
    (visited : nat) (acc : Refs.ParseRefsResult) : Prop :=
  Forall (wellFormedRef headBranchName) (Refs.refs acc) /\
  Forall (fun ref => Forall (fun c => isWhiteSpace c = false) (refName ref)) (Refs.refs acc) /\
  Refs.branchRef <$> Refs.branches acc = filter (fun ref => refType ref <> tag) (Refs.refs acc) /\
  Refs.tagRef <$> Refs.tags acc = filter (fun ref => refType ref = tag) (Refs.refs acc) /\
  Forall (fun branch =>
            Parser.matchesProtectedPattern (refName (Refs.branchRef branch)) patterns
              = Returns (Refs.branchIsProtected branch) /\
            Refs.remoteName branch =
              match refType (Refs.branchRef branch) with
              | remote => Some (Refs.extractRemoteName (refName (Refs.branchRef branch)))
              | _ => None
              end) (Refs.branches acc) /\
  (length (Refs.refs acc) + length (Refs.errors acc) <= visited)%nat.

(** ** Edge paths and lane mappings *)

(** Two points on one horizontal or one vertical line. *)
Definition axisAligned (p q : Point) : Prop :=
  pointRow p = pointRow q \/ pointLane p = pointLane q.

(** A lane mapping that exchanges the lanes below [lanes] among themselves. *)
Definition lanePermutation (lanes : Z) (mapping : gmap Z Z) : Prop :=
  (forall k, 0 <= k < lanes -> exists v, mapping !! k = Some v /\ 0 <= v < lanes) /\
  (forall k v, mapping !! k = Some v -> 0 <= k < lanes) /\
  (forall k1 k2 v, mapping !! k1 = Some v -> mapping !! k2 = Some v -> k1 = k2).

(** ** More invariants of the layout loop *)

(** The lanes handed out so far lie between 0 and [maxLane]. *)
Definition lanesInRange (state : LaneState) : Prop :=
  -1 <= maxLane state /\
  Forall (fun l => 0 <= l <= maxLane state) (freeLanes state) /\
  map_Forall (fun _ l => 0 <= l <= maxLane state) (laneByCommit state).

(** The edge was built in an earlier row for the hash of that row, its lanes
    are lanes handed out, and its target lane is the one reserved for its
    target. *)
Definition edgePlaced (state : LaneState) (order : list CommitHash) (r : Z)
    (e : VisualEdge) : Prop :=
  0 <= fromLane e <= maxLane state /\ 0 <= toLane e <= maxLane state /\
  laneByCommit state !! toHash e = Some (toLane e) /\ 0 <= fromRow e < r /\
  order !! Z.to_nat (fromRow e) = Some (fromHash e).

Definition commitPlaced (state : LaneState) (order : list CommitHash) (r : Z)
    (vc : VisualCommit) : Prop :=
  0 <= lane vc <= maxLane state /\
  order !! Z.to_nat (row vc) = Some (vcHash vc) /\ 0 <= row vc < r.

(** What holds of the layout before row [r] is processed. *)
Definition placementInv (order : list CommitHash) (r : nat) (layout : Layout) : Prop :=
  lanesInRange (laneState layout) /\
  Forall (commitPlaced (laneState layout) order (Z.of_nat r)) (laidCommits layout) /\
  Forall (edgePlaced (laneState layout) order (Z.of_nat r)) (laidEdges layout) /\
  (forall e vc, e ∈ laidEdges layout -> vc ∈ laidCommits layout ->
                toHash e = vcHash vc -> fromRow e < row vc -> toLane e = lane vc) /\
  StronglySorted (fun a b => row a < row b) (laidCommits layout) /\
  (forall k, laidCommitByRow layout !! k
             = last (filter (fun vc => row vc = k) (laidCommits layout))) /\
  (forall h, laidCommitByHash layout !! h
             = last (filter (fun vc => vcHash vc = h) (laidCommits layout))) /\
  (forall id, laidEdgeById layout !! id
              = last (filter (fun e => eid e = id) (laidEdges layout))) /\
  Forall (fun vc => edgeIds vc = eid <$> rowEdges (laidEdges layout) (row vc))
         (laidCommits layout) /\
  Forall (fun e => exists vc, vc ∈ laidCommits layout /\ row vc = fromRow e /\
                              vcHash vc = fromHash e /\ lane vc = fromLane e)
         (laidEdges layout).

(** Every hash of the topological order is a loaded commit, as in a graph
    that [buildGraph] returns. *)
Definition allLoaded (graph : RepositoryGraph) : Prop :=
  Forall (fun h => is_Some (commits graph !! h)) (topologicalOrder graph).

(** ** Mutations *)

(** The branch names a mutation carries. *)
Definition mutationNames (mutation : Mutations.Mutation) : list jsstring :=
  match mutation with
  | Mutations.BranchDelete _ branchName _ _ _ _ => [branchName]
  | Mutations.BranchRename _ oldName newName => [oldName; newName]
  | Mutations.TagDelete _ _ _ => []
  end.

(** ** Sample inputs, in the style of the repository's tests *)

Definition sampleDate : jsstring := js "2024-01-15T10:30:00Z".

(** The time value of the one date the samples use; the samples hand no
    other date to the parser. *)
Definition sampleDateTime (s : jsstring) : option Z :=
  if decide (s = sampleDate) then Some 1705314600000 else None.

Definition makeRecord (fields : list jsstring) : jsstring :=
  join [Parser.FIELD_SEPARATOR] fields.

Definition upperCaseRecord : jsstring :=
  makeRecord [js "AAAAAAAAAAAAAAAAAAAAAAAAAAAAAAAAAAAAAAAA"; []; js "Alice";
              js "alice@example.com"; sampleDate; js "Alice";
              js "alice@example.com"; sampleDate; js "Test"].

Definition badHashRecord : jsstring :=
  makeRecord [js "not-a-valid-hash"; []; js "Alice";
              js "alice@example.com"; sampleDate; js "Alice";
              js "alice@example.com"; sampleDate; js "Test"].

(** [s.padEnd(40, '0')] *)
Definition h40 (s : string) : CommitHash :=
  js s ++ replicate (40 - length (js s)) 48%N.

Definition makeCommit (h : string) (ps : list string) : Commit :=
  {| hash := h40 h; parents := h40 <$> ps;
     author := {| name := js "Test"; email := js "test@test.com" |};
     committer := {| name := js "Test"; email := js "test@test.com" |};
     authoredAt := 0; committedAt := 0; subject := js "Test commit"; body := [] |}.

Definition noOptions : LayoutOptions := {| protectedBranches := [] |}.

Definition emptyVisualGraph : VisualGraph :=
  {| vgCommits := []; edges := []; totalRows := 0; totalLanes := 0;
     commitByHash := ∅; commitByRow := ∅; edgeById := ∅; activeLanesAtRow := ∅ |}.

Definition layoutOf (graph : RepositoryGraph) : VisualGraph :=
  match createVisualGraph graph noOptions with
  | Returns vg => vg
  | Throws => emptyVisualGraph
  end.

(** Two branches off one commit. *)
Definition forkGraph : RepositoryGraph :=
  buildGraph [makeCommit "a" []; makeCommit "b" ["a"]; makeCommit "c" ["a"]]
             [] (Some (h40 "b")) None.

(** A diamond: [d] merges [b] and [c], which both descend from [a]. *)
Definition diamondGraph : RepositoryGraph :=
  buildGraph [makeCommit "a" []; makeCommit "b" ["a"]; makeCommit "c" ["a"];
              makeCommit "d" ["b"; "c"]]
             [] (Some (h40 "d")) None.

(** A partial load: the parent [a] of [b] is not among the commits. *)
Definition partialGraph : RepositoryGraph :=
  buildGraph [makeCommit "b" ["a"]; makeCommit "c" ["b"]] [] (Some (h40 "c")) None.

(** A partial load in which two tips share a parent that was not loaded. *)
Definition sharedParentGraph : RepositoryGraph :=
  buildGraph [makeCommit "a" ["p"]; makeCommit "b" ["p"]] [] (Some (h40 "b")) None.

(** A history with two roots and three merges, whose layout has crossings. *)
Definition crossingGraph : RepositoryGraph :=
  buildGraph [makeCommit "a" []; makeCommit "b" ["a"]; makeCommit "c" [];
              makeCommit "d" ["c"; "a"]; makeCommit "e" ["b"; "d"];
              makeCommit "f" ["b"; "e"; "c"]]
             [] (Some (h40 "f")) None.

(** A merge of a merge: [c] merges [a] and [b], [d] merges [b], [c] and [a]. *)
Definition loopingGraph : RepositoryGraph :=
  buildGraph [makeCommit "a" []; makeCommit "b" ["a"]; makeCommit "c" ["a"; "b"];
              makeCommit "d" ["b"; "c"; "a"]]
             [] (Some (h40 "d")) None.

(** A mapping the loop of [optimizeLanes] holds: the one it started from, or
    one that was accepted because it has fewer crossings than the input. *)
Definition acceptedMapping (graph : VisualGraph) (start mapping : gmap Z Z) : Prop :=
  mapping = start \/
  (countCrossings (remapEdgeLanes (edges graph) mapping) < countCrossings (edges graph))%nat.

(** The lane mapping that sends lane [i] to the [i]-th target. *)
Definition lanesTo (targets : list Z) : gmap Z Z :=
  list_to_map (zip (seqZ 0 (Z.of_nat (length targets))) targets).

Definition sampleEdge (r1 l1 r2 l2 : Z) : VisualEdge :=
  {| eid := js "test"; fromHash := h40 "a"; toHash := h40 "b";
     fromRow := r1; fromLane := l1; toRow := r2; toLane := l2;
     edgeType := EdgeFork; parentIndex := 0 |}.

(** Two edges over two lanes that cross whichever way the lanes are swapped. *)
Definition crossedPair : VisualGraph :=
  {| vgCommits := []; edges := [sampleEdge 0 0 2 1; sampleEdge 0 1 2 0];
     totalRows := 3; totalLanes := 2;
     commitByHash := ∅; commitByRow := ∅; edgeById := ∅; activeLanesAtRow := ∅ |}.

(** Three edges over four lanes with one crossing, and the same edges after
    lanes 1 and 2 are exchanged, with none. *)
Definition tangledEdges : VisualGraph :=
  {| vgCommits := [];
     edges := [sampleEdge 0 1 4 2; sampleEdge 1 1 3 0; sampleEdge 0 3 4 1];
     totalRows := 5; totalLanes := 4;
     commitByHash := ∅; commitByRow := ∅; edgeById := ∅; activeLanesAtRow := ∅ |}.

Definition untangledEdges : VisualGraph :=
  applyLaneMapping tangledEdges (lanesTo [0; 2; 1; 3]).

(** The edge of [partialGraph] from [b] to its parent [a], which is not loaded. *)
Definition danglingEdge : VisualEdge := newEdge (h40 "b") 1 0 1 0 (h40 "a") 0.



(** An edge that stays in row 1 and an edge that slants across it. *)
Definition horizontalEdge : VisualEdge := sampleEdge 1 0 1 2.
Definition slantedEdge : VisualEdge := sampleEdge 0 2 2 0.

(** The deletion of a merged local branch. *)
Definition sampleDeletion (branchName : jsstring) : Mutations.Mutation :=
  Mutations.BranchDelete
    {| Mutations.description := js "Delete local branch";
       Mutations.command := Mutations.buildBranchDeleteCommand Mutations.LocalBranch
                              branchName false true;
       Mutations.isDestructive := false;
       Mutations.mutationWarnings := [] |}
    branchName Mutations.LocalBranch true false (h40 "b").

(** The output of [git for-each-ref] for a local branch, a remote branch, the
    remote's [HEAD] and a tag. *)
Definition sampleRefOutput : jsstring :=
  join [Refs.NEWLINE]
       [h40 "a" ++ js " refs/heads/main commit";
        h40 "b" ++ js " refs/remotes/origin/dev commit";
        h40 "b" ++ js " refs/remotes/origin/HEAD commit";
        h40 "c" ++ js " refs/tags/v1 tag"].

Definition sampleRefOptions : Refs.ParseRefsOptions :=
  {| Refs.headBranch := Some (js "main"); Refs.protectedPatterns := [js "main"; js "release/*"] |}.

Definition sampleParsedRefs : Refs.ParseRefsResult :=
  match Refs.parseRefs sampleRefOutput sampleRefOptions with
  | Returns result => result
  | Throws => {| Refs.refs := []; Refs.branches := []; Refs.tags := []; Refs.errors := [] |}
  end.

(** A log of two records, the second commit a child of the first. *)
Definition sampleLog : jsstring :=
  makeRecord [h40 "a"; []; js "Alice"; js "alice@example.com"; sampleDate; js "Alice";
              js "alice@example.com"; sampleDate; js "First"]
  ++ [Parser.RECORD_SEPARATOR]
  ++ makeRecord [h40 "b"; h40 "a"; js "Alice"; js "alice@example.com"; sampleDate; js "Alice";
                 js "alice@example.com"; sampleDate; js "Second"]
  ++ [Parser.RECORD_SEPARATOR].

(** The commits of [diamondGraph]. *)
Definition diamondCommits : list Commit :=
  [makeCommit "a" []; makeCommit "b" ["a"]; makeCommit "c" ["a"]; makeCommit "d" ["b"; "c"]].

(** * Properties *)

#[local] Set Warnings "-clear-no-such-hyp".

(** ** Parser *)

Section ParserFacts.

Variable dateTime : jsstring -> option Z.

Lemma trimStart_nil_iff s : trimStart s = [] <-> allWhiteSpace s.
Proof.
  unfold allWhiteSpace. induction s as [|c s IH]; simpl.
  - split; [constructor | done].
  - destruct (isWhiteSpace c) eqn:E.
    + rewrite IH. split; [by constructor | by inversion 1].
    + split; [done | inversion 1; congruence].
Qed.

Lemma trimStart_head s c s' : trimStart s = c :: s' -> isWhiteSpace c = false.
Proof.
  induction s as [|d s IH]; simpl; [done|].
  destruct (isWhiteSpace d) eqn:E; [done | congruence].
Qed.

Lemma trim_nil_iff s : trim s = [] <-> allWhiteSpace s.
Proof.
  unfold trim, trimEnd. rewrite <- trimStart_nil_iff.
  split.
  - intros H. apply (f_equal reverse) in H. rewrite reverse_involutive in H.
    simpl in H. apply trimStart_nil_iff in H. apply Forall_reverse in H.
    destruct (trimStart s) as [|c s'] eqn:E; [done|].
    apply trimStart_head in E. rewrite ?reverse_involutive in H.
    inversion H; congruence.
  - intros ->. done.
Qed.

Lemma foldl_pushResult records acc :
  foldl (Parser.pushResult dateTime) acc records =
  {| Parser.commits :=
       Parser.commits acc
       ++ omap (fun r => okCommit (Parser.parseCommitRecord dateTime r)) records;
     Parser.errors :=
       Parser.errors acc
       ++ omap (fun r => errOf (Parser.parseCommitRecord dateTime r)) records |}.
Proof.
  revert acc. induction records as [|r records IH]; intros acc; simpl.
  - rewrite !app_nil_r. by destruct acc.
  - rewrite IH. unfold Parser.pushResult.
    destruct (Parser.parseCommitRecord dateTime r); simpl; by rewrite <- ?app_assoc.
Qed.

Lemma split_all_white sep s :
  allWhiteSpace s -> Forall allWhiteSpace (split sep s).
Proof.
  induction 1 as [|c s Hc Hs IH]; simpl.
  - repeat constructor.
  - destruct (c =? sep)%N.
    + constructor; [constructor | done].
    + destruct (split sep s) as [|f fs]; [repeat constructor; done|].
      inversion IH; subst. constructor; [by constructor | done].
Qed.

Lemma commitRecords_blank raw : allWhiteSpace raw -> Parser.commitRecords raw = [].
Proof.
  intros H. unfold Parser.commitRecords.
  apply (split_all_white Parser.RECORD_SEPARATOR) in H.
  induction H as [|f fs Hf Hfs IH]; simpl; [done|].
  apply trim_nil_iff in Hf. rewrite Hf. simpl. done.
Qed.

(** The two result arrays hold, in the order of the records, what
    [parseCommitRecord] returned for each. *)
Lemma parseCommits_unfold raw :
  Parser.parseCommits dateTime raw =
  {| Parser.commits :=
       omap (fun r => okCommit (Parser.parseCommitRecord dateTime r))
            (Parser.commitRecords raw);
     Parser.errors :=
       omap (fun r => errOf (Parser.parseCommitRecord dateTime r))
            (Parser.commitRecords raw) |}.
Proof.
  unfold Parser.parseCommits.
  destruct (bool_decide (raw = []) || (length (trim raw) =? 0)%nat) eqn:E.
  - assert (allWhiteSpace raw) as Hw.
    { apply orb_true_iff in E as [E|E].
      - apply bool_decide_eq_true in E. subst. constructor.
      - apply Nat.eqb_eq in E. apply trim_nil_iff. by destruct (trim raw). }
    by rewrite (commitRecords_blank _ Hw).
  - by rewrite foldl_pushResult.
Qed.

(** C10. An input that is empty or made of white space only yields no
    commit and no error. *)
Theorem parseCommits_blank raw :
  allWhiteSpace raw ->
  Parser.parseCommits dateTime raw = {| Parser.commits := []; Parser.errors := [] |}.
Proof.
  intros H. unfold Parser.parseCommits.
  apply trim_nil_iff in H. rewrite H. simpl. by rewrite orb_true_r.
Qed.

(** C1, as the code has it. The commits and the errors of [parseCommits] are
    the results of its records, one entry per record and in their order. A
    record with at least 9 fields is accepted only when its trimmed hash
    field is 40 hexadecimal digits of either case, and the commit stores the
    lowercase form; when the trimmed hash field is anything else the record
    gives one error of type [invalid_hash] and no commit. *)
Theorem parseCommits_hash_validation raw :
  Parser.commits (Parser.parseCommits dateTime raw)
    = omap (fun r => okCommit (Parser.parseCommitRecord dateTime r))
           (Parser.commitRecords raw) /\
  Parser.errors (Parser.parseCommits dateTime raw)
    = omap (fun r => errOf (Parser.parseCommitRecord dateTime r))
           (Parser.commitRecords raw) /\
  forall record,
    record ∈ Parser.commitRecords raw ->
    (9 <= length (split Parser.FIELD_SEPARATOR record))%nat ->
    (forall commit,
        Parser.parseCommitRecord dateTime record = Parser.Ok commit ->
        Parser.isValidHash (trim (hashField record)) = true /\
        hash commit = unsafeCommitHash (trim (hashField record))) /\
    (Parser.isValidHash (trim (hashField record)) = false ->
     exists error,
       Parser.parseCommitRecord dateTime record = Parser.Err error /\
       Parser.errorType error = Parser.invalid_hash).
Proof.
  rewrite parseCommits_unfold. simpl. split; [done|]. split; [done|].
  intros record _ Hlen. unfold Parser.parseCommitRecord, hashField.
  assert ((length (split Parser.FIELD_SEPARATOR record) <? Parser.EXPECTED_FIELDS - 1)%nat
          = false) as ->.
  { apply Nat.ltb_ge. unfold Parser.EXPECTED_FIELDS. simpl. lia. }
  set (h := trim (Parser.fieldAt (split Parser.FIELD_SEPARATOR record) 0)).
  destruct (Parser.isValidHash h) eqn:Hv; simpl.
  - split; [|done]. intros commit.
    assert (bool_decide (h = []) = false) as ->.
    { apply bool_decide_eq_false. intros E. rewrite E in Hv. done. }
    simpl.
    destruct (Parser.parseDate dateTime _); [|done].
    destruct (Parser.parseDate dateTime _); [|done].
    intros [= <-]. done.
  - rewrite orb_true_r. split; [done|]. intros _. eexists. split; [done|done].
Qed.

End ParserFacts.

Lemma parseCommits_blank_witness :
  Parser.parseCommits sampleDateTime [32; 10; 9; 32]%N
    = {| Parser.commits := []; Parser.errors := [] |}.
Proof. apply parseCommits_blank. repeat constructor. Defined.

Lemma parseCommits_hash_validation_witness :
  badHashRecord ∈ Parser.commitRecords badHashRecord /\
  (9 <= length (split Parser.FIELD_SEPARATOR badHashRecord))%nat /\
  Parser.isValidHash (trim (hashField badHashRecord)) = false /\
  exists error,
    Parser.parseCommitRecord sampleDateTime badHashRecord = Parser.Err error /\
    Parser.errorType error = Parser.invalid_hash.
Proof.
  assert (badHashRecord ∈ Parser.commitRecords badHashRecord) as Hin
    by (vm_compute; left).
  assert (9 <= length (split Parser.FIELD_SEPARATOR badHashRecord))%nat as Hlen
    by (vm_compute; lia).
  assert (Parser.isValidHash (trim (hashField badHashRecord)) = false) as Hbad
    by (vm_compute; reflexivity).
  split; [exact Hin|]. split; [exact Hlen|]. split; [exact Hbad|].
  exact (proj2 (proj2 (proj2 (parseCommits_hash_validation sampleDateTime badHashRecord))
                      badHashRecord Hin Hlen) Hbad).
Defined.

(** C1 as the specification words it fails: a record whose hash field is in
    upper case, hence not 40 lowercase hexadecimal digits, is accepted and
    gives no error. *)
Lemma parseCommits_accepts_upper_case_hash :
  isCommitHash (hashField upperCaseRecord) = false /\
  hash <$> Parser.commits (Parser.parseCommits sampleDateTime upperCaseRecord)
    = [js "aaaaaaaaaaaaaaaaaaaaaaaaaaaaaaaaaaaaaaaa"] /\
  Parser.errors (Parser.parseCommits sampleDateTime upperCaseRecord) = [].
Proof. vm_compute. done. Qed.

(** ** Protected patterns *)

Section Glob.

Lemma regexSource_cons c pattern :
  regexSource (c :: pattern) = sourcePiece c ++ regexSource pattern.
Proof.
  unfold regexSource, RegExp.starsToDotStar, RegExp.escapeSpecials, sourcePiece.
  rewrite bind_cons, bind_app. f_equal.
  destruct (N.eqb_spec c RegExp.STAR) as [->|Hne]; [done|].
  destruct (RegExp.isEscaped c) eqn:E; simpl.
  - apply N.eqb_neq in Hne. by rewrite Hne.
  - apply N.eqb_neq in Hne. by rewrite Hne.
Qed.

Lemma regexSource_head pattern q rest :
  plainPattern pattern -> regexSource pattern = q :: rest -> q <> RegExp.QUESTION.
Proof.
  destruct pattern as [|c pattern]; [done|].
  intros Hp. inversion Hp as [|? ? Hc _]; subst.
  rewrite regexSource_cons. unfold sourcePiece.
  destruct (c =? RegExp.STAR)%N; [by intros [= <- _]|].
  destruct (RegExp.isEscaped c); [by intros [= <- _]|]. by intros [= <- _].
Qed.

Lemma parseTerms_regexSource pattern :
  plainPattern pattern -> RegExp.parseTerms (regexSource pattern) = Some (termsOf pattern).
Proof.
  induction pattern as [|c pattern IH]; [done|].
  intros Hp. inversion Hp as [|? ? Hc Hrest]; subst. specialize (IH Hrest).
  pose proof (regexSource_head pattern) as Hhead.
  rewrite regexSource_cons. unfold sourcePiece, termsOf. rewrite fmap_cons.
  fold (termsOf pattern).
  destruct (N.eqb_spec c RegExp.STAR) as [->|Hstar].
  - simpl. destruct (regexSource pattern) as [|q rest] eqn:E.
    + simpl in IH. injection IH as <-. done.
    + specialize (Hhead q rest Hrest eq_refl). apply N.eqb_neq in Hhead.
      rewrite Hhead. by rewrite IH.
  - destruct (RegExp.isEscaped c) eqn:Hesc.
    + simpl. destruct (regexSource pattern) as [|q rest] eqn:E.
      * simpl in IH. injection IH as <-. done.
      * specialize (Hhead q rest Hrest eq_refl). apply N.eqb_neq in Hhead.
        rewrite Hhead. by rewrite IH.
    + assert ((c =? RegExp.QUESTION)%N = false) as Hq by (by apply N.eqb_neq).
      assert ((c =? RegExp.DOT)%N = false) as Hd.
      { apply N.eqb_neq. intros ->. done. }
      assert ((c =? RegExp.BACKSLASH)%N = false) as Hb.
      { apply N.eqb_neq. intros ->. done. }
      simpl. rewrite Hq, Hd, Hb.
      destruct (regexSource pattern) as [|q rest] eqn:E.
      * simpl in IH. injection IH as <-. done.
      * specialize (Hhead q rest Hrest eq_refl). apply N.eqb_neq in Hhead.
        rewrite Hhead. by rewrite IH.
Qed.

Lemma matchTerms_termsOf pattern name :
  singleLine name -> RegExp.matchTerms (termsOf pattern) name = globMatches pattern name.
Proof.
  revert name. induction pattern as [|c pattern IH]; intros name Hn; [done|].
  unfold termsOf. rewrite fmap_cons. fold (termsOf pattern). simpl.
  destruct (c =? RegExp.STAR)%N.
  - induction Hn as [|d name Hd Hname IHn]; simpl.
    + by rewrite IH by constructor.
    + rewrite IH by (by constructor). rewrite Hd. simpl. by rewrite IHn.
  - destruct Hn as [|d name Hd Hname]; [done|]. by rewrite IH.
Qed.

Lemma globMatches_star pattern name :
  globMatches pattern name = true -> globMatches (RegExp.STAR :: pattern) name = true.
Proof. intros H. destruct name; simpl; by rewrite H. Qed.

Lemma globMatches_star_skip pattern d name :
  globMatches (RegExp.STAR :: pattern) name = true ->
  globMatches (RegExp.STAR :: pattern) (d :: name) = true.
Proof. simpl. intros ->. by rewrite orb_true_r. Qed.

Lemma globMatches_refl pattern : globMatches pattern pattern = true.
Proof.
  induction pattern as [|c pattern IH]; [done|].
  destruct (N.eqb_spec c RegExp.STAR) as [->|Hne].
  - by apply globMatches_star_skip, globMatches_star.
  - simpl. apply N.eqb_neq in Hne. by rewrite Hne, N.eqb_refl, IH.
Qed.

(** On patterns without a question mark and names without a line
    terminator both copies of the matcher compute what the specification
    says. *)
Lemma matchesProtectedPattern_plain name patterns :
  Forall plainPattern patterns -> singleLine name ->
  matchesProtectedPattern name patterns = Returns (protectedBySpec name patterns) /\
  Parser.matchesProtectedPattern name patterns = Returns (protectedBySpec name patterns).
Proof.
  intros Hps Hn. induction Hps as [|pattern patterns Hp _ [IH1 IH2]]; [done|].
  simpl. unfold Parser.matchGlob.
  destruct (decide (pattern = name)) as [->|Hne].
  - rewrite bool_decide_eq_true_2 by done. by rewrite globMatches_refl.
  - rewrite bool_decide_eq_false_2 by done.
    unfold RegExp.testAnchored. fold (regexSource pattern).
    rewrite (parseTerms_regexSource _ Hp), (matchTerms_termsOf _ _ Hn).
    destruct (globMatches pattern name); [done|]. by rewrite IH1, IH2.
Qed.
End Glob.

(** C8 at the input where the code leaves it. The pattern [main?] has no
    star, so by the specification it matches the name [main?] only; the code
    does not escape the question mark, the expression reads it as "an
    optional n", and the branch [mai] is reported as protected. Both copies
    of the matcher do so. *)
Theorem matchesProtectedPattern_question_mark :
  matchesProtectedPattern (js "mai") [js "main?"] = Returns true /\
  Parser.matchesProtectedPattern (js "mai") [js "main?"] = Returns true /\
  protectedBySpec (js "mai") [js "main?"] = false.
Proof. vm_compute. done. Qed.

(** ** Traversals *)

Section Traversal.

Context (graph : RepositoryGraph).

Lemma parentsOf_named x p : p ∈ parentsOf graph x -> p ∈ namedParents graph.
Proof.
  unfold parentsOf, namedParents. destruct (commits graph !! x) as [c|] eqn:E; [|set_solver].
  intros Hp. apply elem_of_union_list. exists (list_to_set (parents c)). split; [|set_solver].
  apply list_elem_of_fmap. exists (x, c). split; [done|]. by apply elem_of_map_to_list.
Qed.

Lemma enqueueUnseen_seen ps seen queue :
  (enqueueUnseen ps seen queue).1 = list_to_set ps ∪ seen.
Proof.
  revert seen queue. induction ps as [|p ps IH]; intros seen queue; simpl.
  - set_solver.
  - destruct (decide (p ∈ seen)); rewrite IH; set_solver.
Qed.

Lemma enqueueUnseen_queue ps seen queue x :
  x ∈ (enqueueUnseen ps seen queue).2 <-> x ∈ queue \/ (x ∈ ps /\ x ∉ seen).
Proof.
  revert seen queue. induction ps as [|p ps IH]; intros seen queue; simpl.
  - set_solver.
  - destruct (decide (p ∈ seen)); rewrite IH.
    + set_solver.
    + rewrite elem_of_app. destruct (decide (x = p)); set_solver.
Qed.

Lemma enqueueUnseen_measure ps seen queue :
  (forall p, p ∈ ps -> p ∈ namedParents graph) ->
  traversalMeasure graph (enqueueUnseen ps seen queue).1 (enqueueUnseen ps seen queue).2
    = traversalMeasure graph seen queue.
Proof.
  revert seen queue. induction ps as [|p ps IH]; intros seen queue Hps; simpl; [done|].
  destruct (decide (p ∈ seen)).
  - apply IH. set_solver.
  - rewrite IH by set_solver. unfold traversalMeasure. rewrite length_app. simpl.
    assert (namedParents graph ∖ ({[p]} ∪ seen) = (namedParents graph ∖ seen) ∖ {[p]}) as -> by set_solver.
    rewrite size_difference by set_solver. rewrite size_singleton.
    assert (0 < size (namedParents graph ∖ seen))%nat; [|lia].
    assert (size (namedParents graph ∖ seen) ≠ 0%nat); [|lia].
    apply size_non_empty_iff. intros Hempty. specialize (Hps p). set_solver.
Qed.

Lemma measure_start start : (traversalMeasure graph {[start]} [start] <= traversalFuel graph)%nat.
Proof.
  unfold traversalMeasure, traversalFuel. simpl.
  assert (size (namedParents graph ∖ {[start]}) <= size (namedParents graph))%nat
    by (apply subseteq_size; set_solver).
  lia.
Qed.

(** Termination *)
Lemma bfsParents_total fuel visited queue :
  (traversalMeasure graph visited queue <= fuel)%nat ->
  is_Some (bfsParents fuel graph visited queue).
Proof.
  revert visited queue. induction fuel as [|fuel IH]; intros visited queue Hm.
  - destruct queue; [by eexists|]. unfold traversalMeasure in Hm. simpl in Hm. lia.
  - destruct queue as [|c rest]; [by eexists|]. simpl.
    destruct (enqueueUnseen (parentsOf graph c) visited rest) as [v' q'] eqn:E.
    pose proof (enqueueUnseen_measure (parentsOf graph c) visited rest
                  (fun p => parentsOf_named c p)) as Hpres.
    rewrite E in Hpres. simpl in Hpres.
    destruct (IH v' q') as [l Hl].
    + rewrite Hpres. unfold traversalMeasure in *. simpl in Hm. lia.
    + rewrite Hl. by eexists.
Qed.

Lemma collectAncestors_bfsParents fuel seen queue stream :
  bfsParents fuel graph seen queue = Some stream ->
  collectAncestors fuel graph seen queue = Some (list_to_set stream ∪ seen).
Proof.
  revert seen queue stream. induction fuel as [|fuel IH]; intros seen queue stream.
  - destruct queue; [|done]. simpl. intros [= <-]. f_equal. set_solver.
  - destruct queue as [|c rest]; simpl.
    + intros [= <-]. f_equal. set_solver.
    + pose proof (enqueueUnseen_seen (parentsOf graph c) seen rest) as Hs.
      destruct (enqueueUnseen (parentsOf graph c) seen rest) as [v' q'] eqn:E.
      simpl in Hs. destruct (bfsParents fuel graph v' q') as [l|] eqn:El; [|done].
      simpl. intros [= <-]. rewrite (IH _ _ _ El). f_equal. subst v'.
      rewrite list_to_set_app_L. set_solver.
Qed.

Lemma bfsInv_step start seen c rest :
  bfsInv graph start seen (c :: rest) ->
  bfsInv graph start (enqueueUnseen (parentsOf graph c) seen rest).1
               (enqueueUnseen (parentsOf graph c) seen rest).2.
Proof.
  intros (Hs & Hq & Hr & Hc).
  rewrite enqueueUnseen_seen.
  split; [set_solver|]. split; [|split].
  - intros x [Hx|[Hx _]]%enqueueUnseen_queue; set_solver.
  - intros x [Hx|Hx]%elem_of_union; [|by apply Hr].
    apply elem_of_list_to_set in Hx.
    eapply rtc_r; [apply Hr, Hq; left|exact Hx].
  - intros x Hx. setoid_rewrite enqueueUnseen_queue.
    destruct (decide (x ∈ seen)) as [Hin|Hnin].
    + destruct (Hc x Hin) as [Hxq|Hclosed].
      * apply elem_of_cons in Hxq as [->|Hxq]; [|by left; left].
        right. intros p Hp. unfold parentOf in Hp. set_solver.
      * right. intros p Hp. set_solver.
    + left. right. set_solver.
Qed.

Lemma bfsInv_start start : bfsInv graph start {[start]} [start].
Proof.
  split; [set_solver|]. split; [set_solver|]. split.
  - intros x ->%elem_of_singleton. apply rtc_refl.
  - intros x ->%elem_of_singleton. left. set_solver.
Qed.

Lemma bfsInv_done start seen :
  bfsInv graph start seen [] -> forall x, x ∈ seen <-> reaches graph start x.
Proof.
  intros (Hs & Hq & Hr & Hc) x. split; [apply Hr|].
  revert x. apply rtc_ind_r; [done|].
  intros y z _ Hyz Hy. destruct (Hc y Hy) as [Hin|Hcl]; [set_solver|by apply Hcl].
Qed.

Lemma collectAncestors_reaches start fuel seen queue A :
  bfsInv graph start seen queue ->
  collectAncestors fuel graph seen queue = Some A ->
  forall x, x ∈ A <-> reaches graph start x.
Proof.
  revert seen queue. induction fuel as [|fuel IH]; intros seen queue Hinv.
  - destruct queue; [|done]. simpl. intros [= <-]. by apply bfsInv_done.
  - destruct queue as [|c rest].
    + simpl. intros [= <-]. by apply bfsInv_done.
    + simpl. pose proof (bfsInv_step _ _ _ _ Hinv) as Hstep.
      destruct (enqueueUnseen (parentsOf graph c) seen rest) as [v' q'].
      apply IH. exact Hstep.
Qed.

(** The early return of the second loop against the plain traversal. *)
Lemma scanParents_find A ps visited queue :
  scanParents A ps visited queue =
  match firstIn A ps with
  | Some p => Found p
  | None => Continue (enqueueUnseen ps visited queue).1 (enqueueUnseen ps visited queue).2
  end.
Proof.
  revert visited queue. induction ps as [|p ps IH]; intros visited queue; simpl; [done|].
  destruct (decide (p ∈ A)) as [Hin|Hnin].
  - by rewrite bool_decide_eq_true_2.
  - rewrite bool_decide_eq_false_2 by done.
    destruct (decide (p ∈ visited)); apply IH.
Qed.

Lemma firstIn_app A xs ys :
  firstIn A (xs ++ ys) = match firstIn A xs with Some p => Some p | None => firstIn A ys end.
Proof.
  unfold firstIn. induction xs as [|x xs IH]; simpl; [done|].
  by destruct (bool_decide (x ∈ A)).
Qed.

Lemma searchBase_bfsParents A fuel visited queue stream :
  bfsParents fuel graph visited queue = Some stream ->
  searchBase fuel graph A visited queue = Some (firstIn A stream).
Proof.
  revert visited queue stream. induction fuel as [|fuel IH]; intros visited queue stream.
  - destruct queue; [|done]. simpl. by intros [= <-].
  - destruct queue as [|c rest]; simpl; [by intros [= <-]|].
    rewrite scanParents_find.
    destruct (enqueueUnseen (parentsOf graph c) visited rest) as [v' q'] eqn:E.
    destruct (bfsParents fuel graph v' q') as [l|] eqn:El; [|done].
    simpl. intros [= <-]. rewrite firstIn_app.
    destruct (firstIn A (parentsOf graph c)); [done|].
    simpl. by apply IH.
Qed.

Lemma firstIn_None A hs : firstIn A hs = None <-> forall x, x ∈ hs -> x ∉ A.
Proof.
  unfold firstIn. induction hs as [|h hs IH]; simpl.
  - split; [set_solver|done].
  - destruct (decide (h ∈ A)) as [Hin|Hnin].
    + rewrite bool_decide_eq_true_2 by done. split; [done|]. intros H. exfalso. set_solver.
    + rewrite bool_decide_eq_false_2 by done. rewrite IH. set_solver.
Qed.

Lemma firstIn_Some A hs p : firstIn A hs = Some p -> p ∈ hs /\ p ∈ A.
Proof.
  unfold firstIn. intros H. apply find_some in H as [H1 H2].
  apply bool_decide_eq_true in H2. split; [|done]. by apply list_elem_of_In.
Qed.

(** C4, as the code has it. [findMergeBase] returns. With [ancestors1] the
    set of [a] and everything reachable from [a], it returns [b] when [b]
    lies in that set ([b] is [a] or an ancestor of [a]); otherwise it returns
    the first parent read by the breadth-first traversal from [b] that lies
    in the set. It returns null exactly when no hash is reachable from both
    [a] and [b]; such a hash need not be a loaded commit. *)
Theorem findMergeBase_spec (a b : CommitHash) :
  exists (ancestors1 : gset CommitHash) (stream : list CommitHash),
    (forall x, x ∈ ancestors1 <-> reaches graph a x) /\
    parentsInBfsOrder graph b = Some stream /\
    findMergeBase graph a b =
      Some (if decide (b ∈ ancestors1) then Some b else firstIn ancestors1 stream) /\
    (findMergeBase graph a b = Some None <->
     ~ exists c, reaches graph a c /\ reaches graph b c).
Proof.
  destruct (bfsParents_total (traversalFuel graph) {[a]} [a] (measure_start a)) as [sa Hsa].
  destruct (bfsParents_total (traversalFuel graph) {[b]} [b] (measure_start b)) as [sb Hsb].
  pose proof (collectAncestors_bfsParents _ _ _ _ Hsa) as Ha.
  pose proof (collectAncestors_bfsParents _ _ _ _ Hsb) as Hb.
  pose proof (collectAncestors_reaches a _ _ _ _ (bfsInv_start a) Ha) as HA.
  pose proof (collectAncestors_reaches b _ _ _ _ (bfsInv_start b) Hb) as HB.
  set (A := list_to_set sa ∪ {[a]} : gset CommitHash) in *.
  exists A, sb. split; [exact HA|]. split; [exact Hsb|].
  assert (findMergeBase graph a b =
          Some (if decide (b ∈ A) then Some b else firstIn A sb)) as Heq.
  { unfold findMergeBase, findMergeBaseWith. rewrite Ha.
    destruct (decide (b ∈ A)); [done|]. by apply searchBase_bfsParents. }
  split; [exact Heq|]. rewrite Heq.
  destruct (decide (b ∈ A)) as [Hin|Hnin].
  - split; [done|]. intros Hno. exfalso. apply Hno. exists b.
    split; [by apply HA | apply rtc_refl].
  - split.
    + intros [= Hnone] (c & Hac & Hbc).
      apply HB in Hbc. apply HA in Hac.
      apply elem_of_union in Hbc as [Hc|Hc].
      * apply elem_of_list_to_set in Hc. by apply (proj1 (firstIn_None A sb) Hnone c).
      * apply elem_of_singleton in Hc. by subst.
    + intros Hno. f_equal. apply firstIn_None. intros x Hx HxA.
      apply Hno. exists x. split; [by apply HA|]. apply HB. set_solver.
Qed.
End Traversal.

(** C4 as the specification words it fails on a partial load: the two tips
    [a] and [b] share the parent [p], which was not loaded. No loaded commit
    is an ancestor of both, yet the result is [p], not null. *)
Lemma findMergeBase_unloaded_base :
  findMergeBase sharedParentGraph (h40 "a") (h40 "b") = Some (Some (h40 "p")) /\
  commits sharedParentGraph !! h40 "p" = None /\
  ~ exists c,
      is_Some (commits sharedParentGraph !! c) /\
      reaches sharedParentGraph (h40 "a") c /\ reaches sharedParentGraph (h40 "b") c.
Proof.
  split; [vm_compute; reflexivity|]. split; [vm_compute; reflexivity|].
  intros (c & Hloaded & Ha & Hb).
  assert (elements <$> collectAncestors 3 sharedParentGraph {[h40 "a"]} [h40 "a"]
          = Some [h40 "p"; h40 "a"]) as EA by (vm_compute; reflexivity).
  assert (elements <$> collectAncestors 3 sharedParentGraph {[h40 "b"]} [h40 "b"]
          = Some [h40 "p"; h40 "b"]) as EB by (vm_compute; reflexivity).
  destruct (collectAncestors 3 sharedParentGraph {[h40 "a"]} [h40 "a"]) as [A|] eqn:HA;
    [|discriminate EA].
  destruct (collectAncestors 3 sharedParentGraph {[h40 "b"]} [h40 "b"]) as [B|] eqn:HB;
    [|discriminate EB].
  apply (collectAncestors_reaches _ _ _ _ _ _ (bfsInv_start _ _) HA) in Ha.
  apply (collectAncestors_reaches _ _ _ _ _ _ (bfsInv_start _ _) HB) in Hb.
  clear HA HB.
  injection EA as EA. injection EB as EB.
  apply elem_of_elements in Ha, Hb. rewrite EA in Ha. rewrite EB in Hb.
  clear EA EB A B.
  assert (c = h40 "p") as ->.
  { apply elem_of_cons in Ha as [->|Ha]; [done|].
    apply list_elem_of_singleton in Ha as ->.
    apply elem_of_cons in Hb as [Hb|Hb]; [vm_compute in Hb; discriminate Hb|].
    apply list_elem_of_singleton in Hb. vm_compute in Hb. discriminate Hb. }
  destruct Hloaded as [x Hx]. vm_compute in Hx. discriminate Hx.
Qed.

(** ** Layout *)

Section Layout.

Context (graph : RepositoryGraph) (options : LayoutOptions).

Lemma linkParents_edges h r l n i ps acc :
  exists new,
    loopEdges (linkParents h r l n i ps acc) = loopEdges acc ++ new /\
    Forall2 (edgeFor h r l n) (zip (seq i (length ps)) ps) new.
Proof.
  revert i acc. induction ps as [|p ps IH]; intros i acc; simpl.
  - exists []. by rewrite app_nil_r.
  - destruct (parentLaneOf (loopState acc) l i p) as [pl st].
    edestruct IH as (new & -> & Hnew). simpl.
    exists (newEdge h r l n i p pl :: new). split; [by rewrite <- app_assoc|].
    constructor; [done|exact Hnew].
Qed.

Lemma edgeFor_fields h r l n slots new :
  Forall2 (edgeFor h r l n) slots new ->
  Forall (fun e => fromHash e = h /\ fromRow e = r /\ fromLane e = l /\ toRow e = -1) new /\
  parentIndex <$> new = slots.*1 /\ toHash <$> new = slots.*2.
Proof.
  induction 1 as [|[j p] e slots new He _ (IH1 & IH2 & IH3)]; [done|].
  unfold edgeFor in He. simpl in He. split; [|split].
  - constructor; [|done]. rewrite He. done.
  - rewrite !fmap_cons, IH2. f_equal. by rewrite He.
  - rewrite !fmap_cons, IH3. f_equal. by rewrite He.
Qed.

Lemma fst_zip_seq {A} i (ps : list A) : (zip (seq i (length ps)) ps).*1 = seq i (length ps).
Proof. apply fst_zip. by rewrite length_seq. Qed.

Lemma snd_zip_seq {A} i (ps : list A) : (zip (seq i (length ps)) ps).*2 = ps.
Proof. apply snd_zip. by rewrite length_seq. Qed.

Lemma zip_seq_lookup {A} i (ps : list A) j p :
  (j, p) ∈ zip (seq i (length ps)) ps -> (i <= j)%nat /\ ps !! (j - i)%nat = Some p.
Proof.
  revert i. induction ps as [|q ps IH]; intros i; simpl; [by intros ?%elem_of_nil|].
  intros [[= -> ->]|Hin]%elem_of_cons.
  - split; [lia|]. by rewrite Nat.sub_diag.
  - apply IH in Hin as [Hle Hl]. split; [lia|].
    replace (j - i)%nat with (S (j - S i)) by lia. done.
Qed.


Lemma filter_all {A} (P : A -> Prop) `{forall x, Decision (P x)} (l : list A) :
  Forall P l -> filter P l = l.
Proof.
  induction 1 as [|x l Hx _ IH]; [done|]. by rewrite filter_cons_True, IH.
Qed.

Lemma filter_none {A} (P : A -> Prop) `{forall x, Decision (P x)} (l : list A) :
  Forall (fun x => ~ P x) l -> filter P l = [].
Proof.
  induction 1 as [|x l Hx _ IH]; [done|]. by rewrite filter_cons_False.
Qed.

Lemma filter_fmap {A B} (f : A -> B) (P : B -> Prop) `{forall x, Decision (P x)}
    (l : list A) :
  filter P (f <$> l) = f <$> filter (fun x => P (f x)) l.
Proof.
  induction l as [|x l IH]; [done|]. rewrite fmap_cons, !filter_cons, IH.
  by destruct (decide (P (f x))).
Qed.


Lemma layoutInv_empty order : layoutInv graph order 0 emptyLayout.
Proof.
  split; [constructor|]. split; [constructor|]. split; [constructor|].
  intros h. simpl. rewrite lookup_empty. split; [by intros [? ?]|].
  by intros (vc & ?%elem_of_nil & _).
Qed.

Lemma layoutInv_skip order r layout :
  layoutInv graph order r layout -> layoutInv graph order (S r) layout.
Proof.
  intros (HE & HN & HC & HB). split; [|split; [done|split; [|done]]].
  - eapply Forall_impl; [exact HE|]. intros e (H1 & H2). split; [lia|done].
  - eapply Forall_impl; [exact HC|]. intros vc (H1 & H2). split; [lia|done].
Qed.

Lemma placeCommit_shape r h commit refsAtCommit visualRefs layout :
  exists vc new,
    laidEdges (placeCommit graph r h commit refsAtCommit visualRefs layout)
      = laidEdges layout ++ new /\
    laidCommits (placeCommit graph r h commit refsAtCommit visualRefs layout)
      = laidCommits layout ++ [vc] /\
    laidCommitByHash (placeCommit graph r h commit refsAtCommit visualRefs layout)
      = <[h := vc]> (laidCommitByHash layout) /\
    vcHash vc = h /\ row vc = r /\
    Forall2 (edgeFor h r (lane vc) (length (parents commit)))
            (zip (seq 0 (length (parents commit))) (parents commit)) new.
Proof.
  unfold placeCommit.
  destruct (match laneByCommit (laneState layout) !! h with
            | Some reserved => (reserved, laneState layout)
            | None => allocateLane (laneState layout)
            end) as [l st].
  match goal with
  | |- context [linkParents h r l ?n 0 ?ps ?acc] =>
      destruct (linkParents_edges h r l n 0 ps acc) as (new & Hnew & HF)
  end.
  simpl in Hnew. eexists _, new. simpl. rewrite Hnew.
  repeat split; try reflexivity. exact HF.
Qed.

Lemma placeCommit_inv order (r : nat) h commit refsAtCommit visualRefs layout :
  order !! r = Some h ->
  commits graph !! h = Some commit ->
  layoutInv graph order r layout ->
  layoutInv graph order (S r)
    (placeCommit graph (Z.of_nat r) h commit refsAtCommit visualRefs layout).
Proof.
  intros Hr Hc (HE & HN & HC & HB).
  destruct (placeCommit_shape (Z.of_nat r) h commit refsAtCommit visualRefs layout)
    as (vc & new & He' & Hc' & Hb' & Hh & Hrow & HF).
  unfold layoutInv. rewrite He', Hc', Hb'. clear He' Hc' Hb'.
  destruct (edgeFor_fields _ _ _ _ _ _ HF) as (Hf & Hidx & Hto).
  rewrite fst_zip_seq in Hidx. rewrite snd_zip_seq in Hto.
  assert (Forall (fun e => fromRow e < Z.of_nat r) (laidEdges layout)) as Hold.
  { eapply Forall_impl; [exact HE|]. intros e (H1 & _). lia. }
  assert (Forall (fun e => fromRow e = Z.of_nat r) new) as Hnewrow.
  { eapply Forall_impl; [exact Hf|]. by intros e (_ & H1 & _). }
  split; [|split; [|split]].
  - apply Forall_app. split.
    + eapply Forall_impl; [exact HE|]. intros e (H1 & H2). split; [lia|done].
    + apply Forall_forall. intros e He.
      destruct (proj1 (Forall_forall _ _) Hf e He) as (E1 & E2 & E3 & E4).
      split; [lia|]. split; [done|]. split; [by rewrite E2, Nat2Z.id, E1|].
      exists commit. rewrite E1. split; [done|].
      apply list_elem_of_lookup in He as [j Hj].
      destruct (Forall2_lookup_r _ _ _ _ _ HF Hj) as ([i p] & Hslot & Hedge).
      unfold edgeFor in Hedge. simpl in Hedge.
      apply list_elem_of_lookup_2, zip_seq_lookup in Hslot as [_ Hp].
      rewrite Nat.sub_0_r in Hp.
      assert (parentIndex e = i) as -> by (by rewrite Hedge).
      assert (toHash e = p) as -> by (by rewrite Hedge).
      split; [done|]. rewrite E2, E3. exact Hedge.
  - rewrite fmap_app. apply NoDup_app. split; [done|]. split.
    + intros [fr pi] (e1 & [= -> ->] & He1)%list_elem_of_fmap (e2 & [= E1 E2] & He2)%list_elem_of_fmap.
      pose proof (proj1 (Forall_forall _ _) Hold e1 He1) as H1. simpl in H1.
      pose proof (proj1 (Forall_forall _ _) Hnewrow e2 He2) as H2. simpl in H2. lia.
    + apply (NoDup_fmap_1 snd). rewrite <- list_fmap_compose.
      change (snd ∘ (fun e => (fromRow e, parentIndex e))) with parentIndex.
      rewrite Hidx. apply NoDup_seq.
  - apply Forall_app. split.
    + eapply Forall_impl; [exact HC|]. intros v (H1 & c & H2 & H3).
      split; [lia|]. exists c. split; [done|].
      unfold rowEdges. rewrite filter_app.
      rewrite (filter_none _ new), app_nil_r; [exact H3|].
      eapply Forall_impl; [exact Hnewrow|]. simpl. intros e He. lia.
    + constructor; [|constructor]. split; [lia|]. exists commit. rewrite Hh, Hrow.
      split; [done|]. unfold rowEdges. rewrite filter_app.
      rewrite (filter_none _ (laidEdges layout)).
      2:{ eapply Forall_impl; [exact Hold|]. simpl. intros e He. lia. }
      rewrite (filter_all _ new); [exact HF|done].
  - intros k. destruct (decide (h = k)) as [<-|Hne].
    + rewrite lookup_insert_eq. split; [|by eexists]. intros _.
      exists vc. split; [|done]. apply elem_of_app. right. by left.
    + rewrite lookup_insert_ne by done. rewrite HB. split.
      * intros (v & Hv & Hvk). exists v. split; [|done]. apply elem_of_app. by left.
      * intros (v & [Hv|Hv%list_elem_of_singleton]%elem_of_app & Hvk); [by exists v|].
        congruence.
Qed.

Lemma layoutRows_inv order hs (r : nat) layout layout' :
  layoutRows graph options r hs layout = Returns layout' ->
  (forall j, hs !! j = order !! (r + j)%nat) ->
  layoutInv graph order r layout ->
  layoutInv graph order (r + length hs) layout'.
Proof.
  revert r layout. induction hs as [|h hs IH]; intros r layout; simpl.
  - intros [= <-] _. by rewrite Nat.add_0_r.
  - intros Hrun Hord Hinv.
    assert (order !! r = Some h) as Hr.
    { specialize (Hord 0%nat). rewrite Nat.add_0_r in Hord. by rewrite <- Hord. }
    assert (forall j, hs !! j = order !! (S r + j)%nat) as Hord'.
    { intros j. specialize (Hord (S j)). simpl in Hord. rewrite Hord. f_equal. lia. }
    replace (r + S (length hs))%nat with (S r + length hs)%nat by lia.
    destruct (commits graph !! h) as [commit|] eqn:Hc.
    + destruct (toVisualRefs options _) as [visualRefs|]; [|done].
      eapply IH; [exact Hrun|exact Hord'|]. by apply placeCommit_inv.
    + eapply IH; [exact Hrun|exact Hord'|]. by apply layoutInv_skip.
Qed.


Lemma fillToRow_fields byHash e :
  eid (fillToRow byHash e) = eid e /\ fromHash (fillToRow byHash e) = fromHash e /\
  toHash (fillToRow byHash e) = toHash e /\ fromRow (fillToRow byHash e) = fromRow e /\
  fromLane (fillToRow byHash e) = fromLane e /\ toLane (fillToRow byHash e) = toLane e /\
  edgeType (fillToRow byHash e) = edgeType e /\
  parentIndex (fillToRow byHash e) = parentIndex e.
Proof. unfold fillToRow. by destruct (byHash !! toHash e). Qed.


End Layout.

(** ** Visible edges *)

Section Visible.

Lemma js_inj s1 s2 : js s1 = js s2 -> s1 = s2.
Proof.
  unfold js. intros H.
  rewrite <- (String.string_of_list_ascii_of_string s1),
          <- (String.string_of_list_ascii_of_string s2).
  f_equal. revert H. generalize (String.list_ascii_of_string s1) (String.list_ascii_of_string s2).
  induction l as [|a l IH]; intros [|b l']; simpl; try done.
  intros [= Hab Hl]. f_equal; [|by apply IH].
  rewrite <- (Ascii.ascii_N_embedding a), <- (Ascii.ascii_N_embedding b). by rewrite Hab.
Qed.

Lemma numberToString_inj i j : numberToString i = numberToString j -> i = j.
Proof. unfold numberToString. intros H%js_inj. by apply (inj pretty) in H. Qed.

Lemma isCommitHash_length h : isCommitHash h = true -> length h = 40%nat.
Proof. unfold isCommitHash. intros [H _]%andb_true_iff. by apply Nat.eqb_eq. Qed.

Lemma edgeIdOf_inj h1 p1 i1 h2 p2 i2 :
  length h1 = length h2 -> length p1 = length p2 ->
  edgeIdOf h1 p1 i1 = edgeIdOf h2 p2 i2 -> h1 = h2 /\ p1 = p2 /\ i1 = i2.
Proof.
  unfold edgeIdOf. intros Hh Hp H.
  apply app_inj_1 in H as [-> H]; [|done].
  apply app_inj_1 in H as [_ H]; [|done].
  apply app_inj_1 in H as [-> H]; [|done].
  apply app_inj_1 in H as [_ H]; [|done].
  by apply numberToString_inj in H.
Qed.



Context (graph : RepositoryGraph) (options : LayoutOptions).

Lemma laidEdges_ids_NoDup layout r :
  validGraph graph ->
  layoutInv graph (reverse (topologicalOrder graph)) r layout ->
  NoDup (eid <$> laidEdges layout).
Proof.
  intros (Hnd & Hvalid & Hparents) (HE & HN & _ & _).
  apply NoDup_fmap_2_strong; [|by apply NoDup_fmap_1 in HN].
  intros e1 e2 He1 He2 Hid.
  destruct (proj1 (Forall_forall _ _) HE e1 He1) as (R1 & _ & O1 & c1 & C1 & P1 & S1).
  destruct (proj1 (Forall_forall _ _) HE e2 He2) as (R2 & _ & O2 & c2 & C2 & P2 & S2).
  assert (eid e1 = edgeIdOf (fromHash e1) (toHash e1) (parentIndex e1)) as I1
    by (by rewrite S1 at 1).
  assert (eid e2 = edgeIdOf (fromHash e2) (toHash e2) (parentIndex e2)) as I2
    by (by rewrite S2 at 1).
  rewrite I1, I2 in Hid.
  assert (forall h, h ∈ reverse (topologicalOrder graph) -> length h = 40%nat) as Hlen.
  { intros h Hh. rewrite elem_of_reverse in Hh. apply isCommitHash_length.
    by apply (proj1 (Forall_forall _ _) Hvalid). }
  assert (forall h c i p, commits graph !! h = Some c -> parents c !! i = Some p ->
                          length p = 40%nat) as Hplen.
  { intros h c i p Hc Hp. apply isCommitHash_length.
    pose proof (map_Forall_lookup_1 _ _ _ _ Hparents Hc) as Hall. simpl in Hall.
    apply (proj1 (Forall_forall _ _) Hall). by apply list_elem_of_lookup_2 in Hp. }
  apply edgeIdOf_inj in Hid as (Hh & Hp & Hi).
  2:{ rewrite (Hlen (fromHash e1)), (Hlen (fromHash e2)); [done| |];
      by eapply list_elem_of_lookup_2. }
  2:{ by rewrite (Hplen _ _ _ _ C1 P1), (Hplen _ _ _ _ C2 P2). }
  assert (fromRow e1 = fromRow e2) as Hrow.
  { rewrite Hh in O1.
    assert (NoDup (reverse (topologicalOrder graph))) as Hnd'
      by (by rewrite reverse_Permutation).
    pose proof (NoDup_lookup _ _ _ _ Hnd' O1 O2). lia. }
  assert ((fromRow e1, parentIndex e1) = (fromRow e2, parentIndex e2)) as Hpair by congruence.
  clear -HN He1 He2 Hpair.
  induction (laidEdges layout) as [|e es IH]; [by apply elem_of_nil in He1|].
  rewrite fmap_cons in HN. apply NoDup_cons in HN as [Hne HN].
  apply elem_of_cons in He1 as [->|He1]; apply elem_of_cons in He2 as [->|He2]; try done.
  - exfalso. apply Hne. rewrite Hpair. apply list_elem_of_fmap. by exists e2.
  - exfalso. apply Hne. rewrite <- Hpair. apply list_elem_of_fmap. by exists e1.
  - by apply IH.
Qed.

End Visible.

(** ** Active-lane snapshots *)

Section Snapshot.

Context (graph : RepositoryGraph) (options : LayoutOptions).

Lemma allocateLane_activeLanes state :
  activeLanes (allocateLane state).2 = activeLanes state.
Proof. unfold allocateLane. by destruct (freeLanes state). Qed.

Lemma parentLaneOf_activeLanes state l i p :
  activeLanes (parentLaneOf state l i p).2 = activeLanes state.
Proof.
  unfold parentLaneOf. destruct (laneByCommit state !! p); [done|].
  destruct (i =? 0)%nat; [done|].
  pose proof (allocateLane_activeLanes state) as H.
  by destruct (allocateLane state).
Qed.

Lemma linkParents_activeLanes h r l n i ps acc :
  activeLanes (loopState (linkParents h r l n i ps acc)) = activeLanes (loopState acc).
Proof.
  revert i acc. induction ps as [|p ps IH]; intros i acc; simpl; [done|].
  pose proof (parentLaneOf_activeLanes (loopState acc) l i p) as H.
  destruct (parentLaneOf (loopState acc) l i p) as [pl st]. by rewrite IH.
Qed.

Lemma sortAscending_singleton l : sortAscending [l] = [l].
Proof. reflexivity. Qed.

Lemma placeCommit_snapshot (r : nat) h commit refsAtCommit visualRefs layout :
  snapshotInv r layout ->
  snapshotInv (S r) (placeCommit graph (Z.of_nat r) h commit refsAtCommit visualRefs layout).
Proof.
  intros [Hempty Hold]. unfold placeCommit.
  destruct (match laneByCommit (laneState layout) !! h with
            | Some reserved => (reserved, laneState layout)
            | None => allocateLane (laneState layout)
            end) as [l st] eqn:Hl.
  assert (activeLanes st = ∅) as Hst.
  { destruct (laneByCommit (laneState layout) !! h).
    - by injection Hl as _ <-.
    - pose proof (allocateLane_activeLanes (laneState layout)) as H.
      rewrite Hl in H. simpl in H. by rewrite H. }
  match goal with
  | |- context [linkParents h ?r' l ?n 0 ?ps ?acc] =>
      pose proof (linkParents_activeLanes h r' l n 0 ps acc) as Hlink;
      set (linked := linkParents h r' l n 0 ps acc) in *
  end.
  simpl in Hlink. rewrite Hst, insert_empty in Hlink.
  set (freed := (length (default [] (children graph !! h)) =? 0)%nat || _).
  set (reserved := existsb _ (parents commit)).
  assert (exists st2,
    (if freed then if negb reserved && (0 <? l) then freeLane (loopState linked) l
                   else loopState linked
     else loopState linked) = st2 /\
    (activeLanes st2 = {[l := h]} \/ activeLanes st2 = ∅)) as (st2 & -> & Hst2).
  { eexists. split; [reflexivity|].
    destruct freed; [|by left].
    destruct (negb reserved && (0 <? l)); [|by left].
    right. simpl. rewrite Hlink. apply delete_singleton_eq. }
  assert (sortAscending (activeLaneKeys st2) = [l] \/ sortAscending (activeLaneKeys st2) = [])
    as Hsnap.
  { unfold activeLaneKeys. destruct Hst2 as [-> | ->].
    - left. by rewrite map_to_list_singleton.
    - right. by rewrite map_to_list_empty. }
  split.
  - simpl. destruct Hst2 as [H2 | H2]; rewrite H2.
    + rewrite lookup_singleton_eq, bool_decide_eq_true_2 by done.
      simpl. rewrite H2. apply delete_singleton_eq.
    + rewrite lookup_empty, bool_decide_eq_false_2 by done. done.
  - simpl. apply Forall_app. split.
    + eapply Forall_impl; [exact Hold|]. intros vc [Hrow Hvc]. split; [lia|].
      unfold snapshotOf in *. simpl. rewrite lookup_insert_ne by lia. done.
    + constructor; [|constructor]. simpl. split; [lia|].
      unfold snapshotOf. simpl. rewrite lookup_insert_eq.
      destruct Hsnap as [-> | ->]; [by left|by right].
Qed.

Lemma layoutRows_snapshot hs (r : nat) layout layout' :
  layoutRows graph options r hs layout = Returns layout' ->
  snapshotInv r layout -> snapshotInv (r + length hs) layout'.
Proof.
  revert r layout. induction hs as [|h hs IH]; intros r layout; simpl.
  - intros [= <-]. by rewrite Nat.add_0_r.
  - intros Hrun Hinv.
    replace (r + S (length hs))%nat with (S r + length hs)%nat by lia.
    destruct (commits graph !! h) as [commit|].
    + destruct (toVisualRefs options _) as [visualRefs|]; [|done].
      eapply IH; [exact Hrun|]. by apply placeCommit_snapshot.
    + eapply IH; [exact Hrun|]. destruct Hinv as [H1 H2]. split; [done|].
      eapply Forall_impl; [exact H2|]. intros vc [? ?]. split; [lia|done].
Qed.

(** Every snapshot holds the lane of the commit of its row, or nothing. *)
Lemma createVisualGraph_snapshots vg vc :
  createVisualGraph graph options = Returns vg ->
  vc ∈ vgCommits vg ->
  activeLanesAtRow vg !! row vc = Some [lane vc] \/
  activeLanesAtRow vg !! row vc = Some [].
Proof.
  unfold createVisualGraph.
  destruct (layoutRows graph options 0 _ emptyLayout) as [layout|] eqn:Hrun; [|done].
  intros [= <-] Hvc. simpl in *.
  apply layoutRows_snapshot in Hrun as [_ Hall].
  - by destruct (proj1 (Forall_forall _ _) Hall vc Hvc) as [_ ?].
  - split; [done|constructor].
Qed.
End Snapshot.

(** ** Bounding box *)

Section BoundingBox.

Lemma lowerOf_snoc n xs x : lowerOf n xs -> lowerOf (Math_min n (Finite x)) (xs ++ [x]).
Proof.
  destruct n as [|m|]; simpl; [done| |].
  - intros [Hin Hall]. split.
    + destruct (Z.min_spec m x) as [[_ ->]|[_ ->]]; set_solver.
    + apply Forall_app. split.
      * eapply Forall_impl; [exact Hall|]. simpl. lia.
      * constructor; [lia|constructor].
  - intros ->. split; [set_solver|]. simpl. constructor; [lia|constructor].
Qed.

Lemma upperOf_snoc n xs x : upperOf n xs -> upperOf (Math_max n (Finite x)) (xs ++ [x]).
Proof.
  destruct n as [|m|]; simpl; [|  |done].
  - intros ->. split; [set_solver|]. simpl. constructor; [lia|constructor].
  - intros [Hin Hall]. split.
    + destruct (Z.max_spec m x) as [[_ ->]|[_ ->]]; set_solver.
    + apply Forall_app. split.
      * eapply Forall_impl; [exact Hall|]. simpl. lia.
      * constructor; [lia|constructor].
Qed.

Lemma foldl_includeCommit cs box rows lanes :
  boxCovers box rows lanes ->
  boxCovers (foldl includeCommit box cs) (rows ++ commitRows cs) (lanes ++ commitLanes cs).
Proof.
  revert box rows lanes. induction cs as [|c cs IH]; intros box rows lanes H; simpl.
  - by rewrite !app_nil_r.
  - unfold commitRows, commitLanes. simpl.
    rewrite (cons_middle (row c)), (cons_middle (lane c)), !app_assoc.
    apply IH. destruct H as (H1 & H2 & H3 & H4).
    repeat split; simpl; auto using lowerOf_snoc, upperOf_snoc; 
      first [by apply lowerOf_snoc | by apply upperOf_snoc].
Qed.

Lemma foldl_includeEdge es box rows lanes :
  boxCovers box rows lanes ->
  boxCovers (foldl includeEdge box es) rows (lanes ++ edgeLanes es).
Proof.
  revert box lanes. induction es as [|e es IH]; intros box lanes H; simpl.
  - by rewrite !app_nil_r.
  - unfold edgeLanes. simpl.
    replace (lanes ++ fromLane e :: toLane e :: es ≫= (fun e => [fromLane e; toLane e]))
      with (((lanes ++ [fromLane e]) ++ [toLane e]) ++ edgeLanes es)
      by (by rewrite <- !app_assoc).
    apply IH. destruct H as (H1 & H2 & H3 & H4).
    split; [done|]. split; [done|]. split; simpl.
    + by do 2 apply lowerOf_snoc.
    + by do 2 apply upperOf_snoc.
Qed.

(** C5, as the code has it. With no commits the box is all zero, whatever
    the edges. Otherwise the row bounds are the least and the greatest row of
    the commits alone, and the lane bounds are the least and the greatest
    lane over the commits and both ends of every edge. *)
Theorem getBoundingBox_bounds (cs : list VisualCommit) (es : list VisualEdge) :
  (cs = [] -> getBoundingBox cs es = zeroBox) /\
  (cs <> [] ->
   exists r0 r1 l0 l1,
     getBoundingBox cs es =
       {| minRow := Finite r0; maxRow := Finite r1; minLane := Finite l0; boxMaxLane := Finite l1 |} /\
     isMinimumOf r0 (commitRows cs) /\ isMaximumOf r1 (commitRows cs) /\
     isMinimumOf l0 (commitLanes cs ++ edgeLanes es) /\
     isMaximumOf l1 (commitLanes cs ++ edgeLanes es)).
Proof.
  split; [by intros -> |]. intros Hne.
  assert (boxCovers (getBoundingBox cs es) (commitRows cs) (commitLanes cs ++ edgeLanes es)) as H.
  { unfold getBoundingBox. destruct cs as [|c cs]; [done|].
    apply foldl_includeEdge.
    apply (foldl_includeCommit (c :: cs) _ [] []). by repeat split. }
  destruct (getBoundingBox cs es) as [a b c d].
  destruct H as (H1 & H2 & H3 & H4). simpl in *.
  assert (commitRows cs <> []) as Hr by (by destruct cs).
  assert (commitLanes cs ++ edgeLanes es <> []) as Hl by (by destruct cs).
  destruct a as [|r0|]; simpl in H1; [done| |done].
  destruct b as [|r1|]; simpl in H2; [done| |done].
  destruct c as [|l0|]; simpl in H3; [done| |done].
  destruct d as [|l1|]; simpl in H4; [done| |done].
  by exists r0, r1, l0, l1.
Qed.

End BoundingBox.

(** ** Crossings *)

(** C7, as the code has it. Two edges cross exactly when each row span ends
    strictly after the other begins, each lane span ends strictly after the
    other begins, and one edge leans left-to-right while the other leans
    right-to-left. An edge with zero lane span crosses nothing, and two
    edges with zero row span do not cross each other. *)
Theorem edgesCross_iff (e1 e2 : VisualEdge) :
  (edgesCross e1 e2 = true <->
     rowSpansOverlap e1 e2 /\ laneSpansOverlap e1 e2 /\ oppositeLean e1 e2) /\
  (fromLane e1 = toLane e1 \/ fromLane e2 = toLane e2 -> edgesCross e1 e2 = false) /\
  (fromRow e1 = toRow e1 /\ fromRow e2 = toRow e2 -> edgesCross e1 e2 = false).
Proof.
  unfold edgesCross, rowSpansOverlap, laneSpansOverlap, oppositeLean, leansRight, leansLeft,
    minRowOf, maxRowOf, leftLaneOf, rightLaneOf.
  repeat match goal with
         | |- context [?a <=? ?b] => destruct (Z.leb_spec a b)
         | |- context [?a =? ?b] => destruct (Z.eqb_spec a b)
         | |- context [?a <? ?b] => destruct (Z.ltb_spec a b)
         end; simpl; repeat split; try done; try lia.
Qed.

Lemma edgesCross_iff_witness :
  (fromLane (sampleEdge 0 1 2 1) = toLane (sampleEdge 0 1 2 1) \/
   fromLane slantedEdge = toLane slantedEdge) /\
  edgesCross (sampleEdge 0 1 2 1) slantedEdge = false.
Proof.
  assert (fromLane (sampleEdge 0 1 2 1) = toLane (sampleEdge 0 1 2 1) \/
          fromLane slantedEdge = toLane slantedEdge) as H by (left; reflexivity).
  split; [exact H|].
  exact (proj1 (proj2 (edgesCross_iff (sampleEdge 0 1 2 1) slantedEdge)) H).
Defined.

(** C7 as the specification words it fails for an edge with zero row span:
    an edge that stays in row 1 crosses an edge slanting from row 0 to row 2
    the other way. *)
Lemma edgesCross_horizontal_edge :
  fromRow horizontalEdge = toRow horizontalEdge /\
  edgesCross horizontalEdge slantedEdge = true.
Proof. vm_compute. done. Qed.

Lemma getBoundingBox_bounds_witness :
  vgCommits (layoutOf partialGraph) <> [] /\
  exists r0 r1 l0 l1,
    getBoundingBox (vgCommits (layoutOf partialGraph)) (edges (layoutOf partialGraph)) =
      {| minRow := Finite r0; maxRow := Finite r1; minLane := Finite l0; boxMaxLane := Finite l1 |} /\
    isMinimumOf r0 (commitRows (vgCommits (layoutOf partialGraph))) /\
    isMaximumOf r1 (commitRows (vgCommits (layoutOf partialGraph))) /\
    isMinimumOf l0 (commitLanes (vgCommits (layoutOf partialGraph))
                    ++ edgeLanes (edges (layoutOf partialGraph))) /\
    isMaximumOf l1 (commitLanes (vgCommits (layoutOf partialGraph))
                    ++ edgeLanes (edges (layoutOf partialGraph))).
Proof.
  assert (vgCommits (layoutOf partialGraph) <> []) as Hne.
  { vm_compute. discriminate. }
  split; [exact Hne|].
  exact (proj2 (getBoundingBox_bounds (vgCommits (layoutOf partialGraph))
                  (edges (layoutOf partialGraph))) Hne).
Defined.

(** C5 as the specification words it fails: in the layout of a partial load
    the edge to the missing parent ends in row -1, which is the least row
    over commits and edges, and the box still starts at row 0. *)
Lemma getBoundingBox_ignores_edge_rows :
  getBoundingBox (vgCommits (layoutOf partialGraph)) (edges (layoutOf partialGraph))
    = {| minRow := Finite 0; maxRow := Finite 1; minLane := Finite 0; boxMaxLane := Finite 0 |} /\
  isMinimumOf (-1) (commitRows (vgCommits (layoutOf partialGraph))
                    ++ edgeRows (edges (layoutOf partialGraph))).
Proof.
  split; [vm_compute; reflexivity|].
  unfold isMinimumOf. vm_compute. split; [|repeat constructor; discriminate].
  do 5 right. left.
Qed.

(** ** Lane optimisation *)

Section Optimizer.
Context (graph : VisualGraph).

Lemma trySwap_accepted start acc l :
  acceptedMapping graph start (laneMapping acc) ->
  acceptedMapping graph start
    (laneMapping (trySwap graph (countCrossings (edges graph)) acc l)).
Proof.
  intros H. unfold trySwap.
  destruct (Nat.ltb_spec
              (countCrossings (remapEdgeLanes (edges graph)
                 (<[l + 1 := default 0 (laneMapping acc !! l)]>
                    (<[l := default 0 (laneMapping acc !! (l + 1))]> (laneMapping acc)))))
              (countCrossings (edges graph))) as [Hlt|_]; [|done].
  by right.
Qed.

Lemma swapPass_accepted start mapping :
  acceptedMapping graph start mapping ->
  acceptedMapping graph start
    (laneMapping (swapPass graph (countCrossings (edges graph)) mapping)).
Proof.
  intros H. unfold swapPass.
  generalize (seqZ 0 (totalLanes graph - 1)).
  assert (acceptedMapping graph start
            (laneMapping {| laneMapping := mapping; improved := false |})) as Hacc by done.
  revert Hacc. generalize {| laneMapping := mapping; improved := false |}.
  intros acc Hacc ls. revert acc Hacc.
  induction ls as [|l ls IH]; intros acc Hacc; simpl; [done|].
  apply IH. by apply trySwap_accepted.
Qed.

Lemma swapUntilStable_accepted fuel start mapping final :
  acceptedMapping graph start mapping ->
  swapUntilStable fuel graph (countCrossings (edges graph)) mapping = Some final ->
  acceptedMapping graph start final.
Proof.
  revert mapping. induction fuel as [|fuel IH]; intros mapping Hacc; [done|].
  simpl. pose proof (swapPass_accepted start mapping Hacc) as Hpass.
  destruct (improved (swapPass graph (countCrossings (edges graph)) mapping)).
  - by apply IH.
  - by intros [= <-].
Qed.

Lemma identityMapping_lookup lanes k v :
  identityMapping lanes !! k = Some v -> k = v.
Proof.
  unfold identityMapping.
  assert (forall (ls : list Z) (m : gmap Z Z),
            (forall k v, m !! k = Some v -> k = v) ->
            forall k v, foldl (fun m i => <[i := i]> m) m ls !! k = Some v -> k = v) as H.
  { induction ls as [|i ls IH]; intros m Hm; simpl; [exact Hm|].
    apply IH. intros k' v'. destruct (decide (i = k')) as [->|Hne].
    - rewrite lookup_insert_eq. by intros [= <-].
    - rewrite lookup_insert_ne by done. apply Hm. }
  apply H. intros k' v'. by rewrite lookup_empty.
Qed.

Lemma isIdentity_identityMapping lanes : isIdentity (identityMapping lanes) = true.
Proof.
  unfold isIdentity. apply forallb_forall. intros [k v] Hin.
  apply list_elem_of_In, elem_of_map_to_list, identityMapping_lookup in Hin.
  simpl. by apply Z.eqb_eq.
Qed.

(** C6, as the code has it. A run of [optimizeLanes] that returns gives back
    its input or a graph with strictly fewer crossings; running it again on
    that output returns the output when it has no crossings or when the
    first run returned its input unchanged. *)
Theorem optimizeLanes_output fuel graph' :
  optimizeLanes fuel graph = Some graph' ->
  (graph' = graph \/
   (countCrossings (edges graph') < countCrossings (edges graph))%nat) /\
  (countCrossings (edges graph') = 0%nat \/ graph' = graph ->
   optimizeLanes fuel graph' = Some graph').
Proof.
  intros Hrun. split.
  - unfold optimizeLanes in Hrun.
    destruct (countCrossings (edges graph) =? 0)%nat; [left; congruence|].
    destruct (swapUntilStable fuel graph _ _) as [mapping|] eqn:Hloop; [|done].
    destruct (isIdentity mapping) eqn:Hid; [left; congruence|].
    injection Hrun as <-. right.
    destruct (swapUntilStable_accepted _ _ _ _ (or_introl eq_refl) Hloop) as [->|Hlt].
    + by rewrite isIdentity_identityMapping in Hid.
    + exact Hlt.
  - intros [Hzero | ->]; [|done]. unfold optimizeLanes. by rewrite Hzero.
Qed.
End Optimizer.

Lemma optimizeLanes_output_witness :
  optimizeLanes 3 tangledEdges = Some untangledEdges /\
  (untangledEdges = tangledEdges \/
   (countCrossings (edges untangledEdges) < countCrossings (edges tangledEdges))%nat) /\
  countCrossings (edges untangledEdges) = 0%nat /\
  optimizeLanes 3 untangledEdges = Some untangledEdges.
Proof.
  assert (optimizeLanes 3 tangledEdges = Some untangledEdges) as Hrun
    by (vm_compute; reflexivity).
  assert (countCrossings (edges untangledEdges) = 0%nat) as Hzero
    by (vm_compute; reflexivity).
  split; [exact Hrun|].
  split; [exact (proj1 (optimizeLanes_output tangledEdges 3 untangledEdges Hrun))|].
  split; [exact Hzero|].
  exact (proj2 (optimizeLanes_output tangledEdges 3 untangledEdges Hrun) (or_introl Hzero)).
Defined.

(** C6 as the specification words it fails: every swap is compared with the
    crossing count of the input, so the first run stops at 1 crossing where
    a second run, starting from that count, still finds a swap and moves the
    lanes again. *)
Lemma optimizeLanes_not_fixed_point :
  countCrossings (edges (layoutOf crossingGraph)) = 2%nat /\
  commitLanes ∘ vgCommits <$> optimizeLanes 3 (layoutOf crossingGraph)
    = Some [0; 2; 3; 1; 0; 2] /\
  commitLanes ∘ vgCommits <$> (optimizeLanes 3 (layoutOf crossingGraph) ≫= optimizeLanes 3)
    = Some [1; 2; 3; 0; 1; 2].
Proof. vm_compute. done. Qed.

Lemma swapUntilStable_step fuel graph crossings mapping :
  swapUntilStable (S fuel) graph crossings mapping =
  if improved (swapPass graph crossings mapping)
  then swapUntilStable fuel graph crossings (laneMapping (swapPass graph crossings mapping))
  else Some (laneMapping (swapPass graph crossings mapping)).
Proof. reflexivity. Qed.

Lemma swapUntilStable_cycle graph crossings m1 m2 :
  swapPass graph crossings m1 = {| laneMapping := m2; improved := true |} ->
  swapPass graph crossings m2 = {| laneMapping := m1; improved := true |} ->
  forall fuel, swapUntilStable fuel graph crossings m1 = None /\
               swapUntilStable fuel graph crossings m2 = None.
Proof.
  intros H1 H2. induction fuel as [|fuel [IH1 IH2]]; [done|].
  rewrite !swapUntilStable_step, H1, H2. simpl. done.
Qed.

(** On the layout of [loopingGraph] the loop of [optimizeLanes] never ends:
    two mappings with no crossings each pass for an improvement on the
    other, because both are compared with the single crossing of the input. *)
Lemma optimizeLanes_runs_forever fuel :
  optimizeLanes fuel (layoutOf loopingGraph) = None.
Proof.
  assert (countCrossings (edges (layoutOf loopingGraph)) = 1%nat) as Hc
    by (vm_compute; reflexivity).
  assert (identityMapping (totalLanes (layoutOf loopingGraph)) = lanesTo [0; 1; 2]) as Hid
    by (vm_compute; reflexivity).
  assert (swapPass (layoutOf loopingGraph) 1 (lanesTo [0; 1; 2])
          = {| laneMapping := lanesTo [1; 2; 0]; improved := true |}) as H0
    by (vm_compute; reflexivity).
  assert (swapPass (layoutOf loopingGraph) 1 (lanesTo [1; 2; 0])
          = {| laneMapping := lanesTo [1; 0; 2]; improved := true |}) as H1
    by (vm_compute; reflexivity).
  assert (swapPass (layoutOf loopingGraph) 1 (lanesTo [1; 0; 2])
          = {| laneMapping := lanesTo [1; 2; 0]; improved := true |}) as H2
    by (vm_compute; reflexivity).
  unfold optimizeLanes. rewrite Hc, Hid. simpl.
  destruct fuel as [|fuel]; [done|].
  rewrite swapUntilStable_step, H0. simpl.
  by rewrite (proj1 (swapUntilStable_cycle _ _ _ _ H1 H2 fuel)).
Qed.

(** ** Sample layouts *)

(** Without patterns no expression is built, so the layout returns. *)
Lemma layoutOf_returns graph :
  createVisualGraph graph noOptions = Returns (layoutOf graph).
Proof.
  unfold layoutOf, createVisualGraph.
  assert (forall r hs layout, exists layout',
            layoutRows graph noOptions r hs layout = Returns layout') as H.
  { intros r hs. revert r. induction hs as [|h hs IH]; intros r layout; simpl.
    - by eexists.
    - destruct (commits graph !! h); [|apply IH].
      assert (forall refsAtCommit, exists vs,
                toVisualRefs noOptions refsAtCommit = Returns vs) as Hrefs.
      { induction refsAtCommit as [|ref rest [vs Hvs]]; simpl; [by eexists|].
        rewrite Hvs. by eexists. }
      destruct (Hrefs (default [] (refsByCommit graph !! h))) as [vs ->]. apply IH. }
  destruct (H 0%nat (reverse (topologicalOrder graph)) emptyLayout) as [layout' ->]. done.
Qed.


Lemma validGraph_partialGraph : validGraph partialGraph.
Proof.
  unfold validGraph. split; [|split].
  - apply (bool_decide_unpack _). vm_compute. exact I.
  - apply (bool_decide_unpack _). vm_compute. exact I.
  - apply (bool_decide_unpack _). vm_compute. exact I.
Qed.



(** C2 at the input where the code leaves it: two branches off one commit.
    The commit [b] is placed at row 1 in lane 1; the lane is freed before the
    snapshot is taken, and the snapshot of row 1 is empty. *)
Theorem activeLanes_miss_freed_lane :
  vcHash <$> commitByRow (layoutOf forkGraph) !! 1 = Some (h40 "b") /\
  lane <$> commitByRow (layoutOf forkGraph) !! 1 = Some 1 /\
  activeLanesAtRow (layoutOf forkGraph) !! 1 = Some [].
Proof. vm_compute. done. Qed.

(** * Properties of the rest of the code *)

(** ** Commit hashes *)

Lemma isHexDigit_cases c :
  isHexDigit c = true <->
  (48 <= c <= 57 \/ 65 <= c <= 70 \/ 97 <= c <= 102)%N.
Proof.
  unfold isHexDigit, isLowerHexDigit.
  rewrite !orb_true_iff, !andb_true_iff, !N.leb_le. lia.
Qed.

Lemma isLowerHexDigit_cases c :
  isLowerHexDigit c = true <-> (48 <= c <= 57 \/ 97 <= c <= 102)%N.
Proof.
  unfold isLowerHexDigit. rewrite !orb_true_iff, !andb_true_iff, !N.leb_le. lia.
Qed.

Lemma isHexDigit_not_white c : isHexDigit c = true -> isWhiteSpace c = false.
Proof.
  intros Hc%isHexDigit_cases. unfold isWhiteSpace.
  repeat (apply orb_false_iff; split);
    try (apply N.eqb_neq; lia);
    apply andb_false_iff; rewrite !N.leb_gt; lia.
Qed.

Lemma toLowerCase_fmap s : toLowerCase s = lowerUnit <$> s.
Proof. reflexivity. Qed.

Lemma lowerUnit_hex c : isHexDigit (lowerUnit c) = isHexDigit c.
Proof.
  unfold lowerUnit. destruct ((65 <=? c) && (c <=? 90))%N eqn:E; [|done].
  apply andb_true_iff in E as [H1%N.leb_le H2%N.leb_le].
  apply eq_true_iff_eq. rewrite !isHexDigit_cases. lia.
Qed.

Lemma lowerUnit_lower c : isHexDigit c = true -> isLowerHexDigit (lowerUnit c) = true.
Proof.
  intros Hc%isHexDigit_cases. unfold lowerUnit.
  destruct ((65 <=? c) && (c <=? 90))%N eqn:E.
  - apply andb_true_iff in E as [H1%N.leb_le H2%N.leb_le].
    apply isLowerHexDigit_cases. lia.
  - apply isLowerHexDigit_cases.
    apply andb_false_iff in E as [E|E]; apply N.leb_gt in E; lia.
Qed.

Lemma lowerUnit_fixed c : isLowerHexDigit c = true -> lowerUnit c = c.
Proof.
  intros Hc%isLowerHexDigit_cases. unfold lowerUnit.
  destruct ((65 <=? c) && (c <=? 90))%N eqn:E; [|done].
  apply andb_true_iff in E as [H1%N.leb_le H2%N.leb_le]. lia.
Qed.

Lemma forallb_fmap {A B} (f : B -> bool) (g : A -> B) (l : list A) :
  forallb f (g <$> l) = forallb (fun x => f (g x)) l.
Proof. induction l as [|x l IH]; [done|]. simpl. f_equal. exact IH. Qed.

Lemma forallb_ext_in {A} (f g : A -> bool) (l : list A) :
  (forall x, x ∈ l -> f x = g x) -> forallb f l = forallb g l.
Proof.
  induction l as [|x l IH]; [done|]. intros Hfg. simpl.
  rewrite (Hfg x) by (by left). f_equal. apply IH. intros y Hy. apply Hfg. by right.
Qed.

Lemma isValidHash_toLowerCase s :
  Parser.isValidHash (toLowerCase s) = Parser.isValidHash s.
Proof.
  unfold Parser.isValidHash. rewrite toLowerCase_fmap, length_fmap. f_equal.
  rewrite forallb_fmap. apply forallb_ext_in. intros c _. apply lowerUnit_hex.
Qed.

Lemma isCommitHash_toLowerCase s :
  isCommitHash (toLowerCase s) = Parser.isValidHash s.
Proof.
  unfold isCommitHash, Parser.isValidHash. rewrite toLowerCase_fmap, length_fmap. f_equal.
  rewrite forallb_fmap. apply forallb_ext_in. intros c _.
  destruct (isHexDigit c) eqn:E; [by apply lowerUnit_lower|].
  apply not_true_is_false. intros Hl. rewrite <- lowerUnit_hex in E.
  unfold isHexDigit in E. rewrite Hl in E. done.
Qed.

Lemma isCommitHash_valid s : isCommitHash s = true -> Parser.isValidHash s = true.
Proof.
  unfold isCommitHash, Parser.isValidHash.
  intros [Hl Hs]%andb_true_iff. rewrite Hl. simpl.
  apply forallb_forall. intros c Hc.
  rewrite forallb_forall in Hs. unfold isHexDigit. by rewrite (Hs c Hc).
Qed.

Lemma toLowerCase_fixed s : isCommitHash s = true -> toLowerCase s = s.
Proof.
  unfold isCommitHash. intros [_ Hs]%andb_true_iff. rewrite toLowerCase_fmap.
  rewrite <- (list_fmap_id s) at 2. apply list_fmap_ext. intros i c Hc.
  apply lowerUnit_fixed. rewrite forallb_forall in Hs. apply Hs.
  apply list_elem_of_In. by apply list_elem_of_lookup_2 in Hc.
Qed.

Lemma trimStart_fixed s :
  Forall (fun c => isWhiteSpace c = false) s -> trimStart s = s.
Proof. destruct 1 as [|c s Hc _]; [done|]. simpl. by rewrite Hc. Qed.

Lemma trim_fixed s : Forall (fun c => isWhiteSpace c = false) s -> trim s = s.
Proof.
  intros Hs. unfold trim, trimEnd. rewrite (trimStart_fixed s Hs).
  rewrite trimStart_fixed; [by rewrite reverse_involutive|]. by apply Forall_reverse.
Qed.

Lemma isValidHash_not_white s :
  Parser.isValidHash s = true -> Forall (fun c => isWhiteSpace c = false) s.
Proof.
  unfold Parser.isValidHash. intros [_ Hs]%andb_true_iff.
  apply Forall_forall. intros c Hc. apply isHexDigit_not_white.
  rewrite forallb_forall in Hs. apply Hs. by apply list_elem_of_In.
Qed.

Lemma trim_valid s : Parser.isValidHash s = true -> trim s = s.
Proof. intros Hs. by apply trim_fixed, isValidHash_not_white. Qed.

Lemma unsafeCommitHash_valid s :
  Parser.isValidHash s = true ->
  unsafeCommitHash s = toLowerCase s /\ isCommitHash (unsafeCommitHash s) = true.
Proof.
  intros Hs. unfold unsafeCommitHash. rewrite (trim_valid s Hs).
  split; [done|]. by rewrite isCommitHash_toLowerCase.
Qed.

Lemma unsafeCommitHash_lowered s :
  Parser.isValidHash s = true ->
  unsafeCommitHash (toLowerCase s) = toLowerCase s.
Proof.
  intros Hs.
  assert (isCommitHash (toLowerCase s) = true) as Hc by (by rewrite isCommitHash_toLowerCase).
  destruct (unsafeCommitHash_valid (toLowerCase s)) as [-> _].
  - by apply isCommitHash_valid.
  - by apply toLowerCase_fixed.
Qed.

(** X1. [toCommitHash] accepts a string exactly when, trimmed, it is 40
    hexadecimal digits of either case; it returns the trimmed string in lower
    case, which is a commit hash, and it gives a commit hash back
    unchanged. *)
Theorem toCommitHash_spec (value : jsstring) :
  (forall h, toCommitHash value = Returns h <->
             Parser.isValidHash (trim value) = true /\ h = toLowerCase (trim value)) /\
  (forall h, toCommitHash value = Returns h ->
             isCommitHash h = true /\ toCommitHash h = Returns h) /\
  (toCommitHash value = Throws <-> Parser.isValidHash (trim value) = false).
Proof.
  unfold toCommitHash. rewrite isCommitHash_toLowerCase.
  destruct (Parser.isValidHash (trim value)) eqn:Hv.
  - split; [|split; [|done]].
    + intros h. split; [by intros [= <-]|]. by intros [_ ->].
    + intros h [= <-].
      assert (isCommitHash (toLowerCase (trim value)) = true) as Hc
        by (by rewrite isCommitHash_toLowerCase).
      split; [done|].
      rewrite (trim_valid _ (isCommitHash_valid _ Hc)).
      rewrite (toLowerCase_fixed _ Hc). by rewrite Hc.
  - split; [|split; [done|done]]. intros h. split; [done|]. by intros [? _].
Qed.

(** ** parseCommits *)

Section CommitHashes.
Variable dateTime : jsstring -> option Z.

Lemma parseParentHashes_hashes raw :
  Forall (fun p => isCommitHash p = true) (Parser.parseParentHashes raw).
Proof.
  unfold Parser.parseParentHashes. destruct (trim raw) as [|c s]; [constructor|].
  apply Forall_forall. intros p (h & -> & Hh)%list_elem_of_fmap.
  apply list_elem_of_In, filter_In in Hh as [_ Hv].
  rewrite (unsafeCommitHash_lowered h Hv). by rewrite isCommitHash_toLowerCase.
Qed.

Lemma parseCommitRecord_hashes record commit :
  Parser.parseCommitRecord dateTime record = Parser.Ok commit ->
  isCommitHash (hash commit) = true /\
  Forall (fun p => isCommitHash p = true) (parents commit).
Proof.
  unfold Parser.parseCommitRecord.
  destruct (_ <? _)%nat; [done|].
  set (h := trim (Parser.fieldAt (split Parser.FIELD_SEPARATOR record) 0)).
  destruct (Parser.isValidHash h) eqn:Hv; [|by rewrite orb_true_r].
  destruct (bool_decide (h = [])); [done|]. simpl.
  destruct (Parser.parseDate dateTime _); [|done].
  destruct (Parser.parseDate dateTime _); [|done].
  intros [= <-]. simpl. split.
  - by apply unsafeCommitHash_valid.
  - apply parseParentHashes_hashes.
Qed.

Lemma parsedCommits_hashes raw commit :
  commit ∈ Parser.commits (Parser.parseCommits dateTime raw) ->
  isCommitHash (hash commit) = true /\
  Forall (fun p => isCommitHash p = true) (parents commit).
Proof.
  rewrite parseCommits_unfold. simpl.
  intros (record & _ & Hok)%list_elem_of_omap.
  destruct (Parser.parseCommitRecord dateTime record) as [c|e] eqn:E; [|done].
  injection Hok as ->. by apply (parseCommitRecord_hashes record).
Qed.

(** X2. Every commit [parseCommits] returns carries a commit hash (40 lowercase
    hexadecimal digits), and so does each of its parents. *)
Theorem parseCommits_hashes raw :
  Forall (fun commit =>
            isCommitHash (hash commit) = true /\
            Forall (fun p => isCommitHash p = true) (parents commit))
         (Parser.commits (Parser.parseCommits dateTime raw)).
Proof. apply Forall_forall. intros commit. apply parsedCommits_hashes. Qed.


End CommitHashes.

(** ** parseHead, extractRemoteName *)

(** X3. [parseHead] gives a HEAD commit exactly when the output of rev-parse,
    trimmed, is 40 hexadecimal digits of either case; the commit is that
    string in lower case, a commit hash. It gives a HEAD ref exactly when the
    output of symbolic-ref is not blank; the ref is the trimmed output. *)
Theorem parseHead_spec (symbolicRefOutput revParseOutput : option jsstring) :
  (forall h,
     Refs.parsedHeadCommit (Refs.parseHead symbolicRefOutput revParseOutput) = Some h <->
     exists output, revParseOutput = Some output /\
                    Parser.isValidHash (trim output) = true /\
                    h = toLowerCase (trim output)) /\
  (forall h,
     Refs.parsedHeadCommit (Refs.parseHead symbolicRefOutput revParseOutput) = Some h ->
     isCommitHash h = true) /\
  (forall r,
     Refs.parsedHeadRef (Refs.parseHead symbolicRefOutput revParseOutput) = Some r <->
     exists output, symbolicRefOutput = Some output /\ r = trim output /\ r <> []).
Proof.
  assert (forall h,
     Refs.parsedHeadCommit (Refs.parseHead symbolicRefOutput revParseOutput) = Some h <->
     exists output, revParseOutput = Some output /\
                    Parser.isValidHash (trim output) = true /\
                    h = toLowerCase (trim output)) as Hcommit.
  { intros h. unfold Refs.parseHead. cbn [Refs.parsedHeadCommit].
    destruct revParseOutput as [output|]; [|split; [done|]; by intros (o & ? & _)].
    destruct (decide (output = [])) as [->|Hne].
    - rewrite bool_decide_eq_true_2 by done. split; [done|].
      intros (o & [= <-] & Hv & _). done.
    - rewrite bool_decide_eq_false_2 by done. cbv zeta.
      rewrite isValidHash_toLowerCase.
      destruct (Parser.isValidHash (trim output)) eqn:Hv.
      + rewrite (unsafeCommitHash_lowered _ Hv). split.
        * intros [= <-]. by exists output.
        * by intros (o & [= <-] & _ & ->).
      + split; [done|]. intros (o & [= <-] & Hv' & _). congruence. }
  split; [exact Hcommit|]. split.
  - intros h (o & _ & Hv & ->)%Hcommit. by rewrite isCommitHash_toLowerCase.
  - intros r. unfold Refs.parseHead. cbn [Refs.parsedHeadRef].
    destruct symbolicRefOutput as [output|]; [|split; [done|]; by intros (o & ? & _)].
    destruct (decide (output = [])) as [->|Hne].
    + rewrite bool_decide_eq_true_2 by done. split; [done|].
      intros (o & [= <-] & -> & Hn). done.
    + rewrite bool_decide_eq_false_2 by done. cbv zeta.
      destruct (trim output) as [|d t] eqn:Et; cbn [length Nat.ltb Nat.leb].
      * split; [done|]. intros (o & [= <-] & -> & Hn). by rewrite Et in Hn.
      * split.
        -- intros [= <-]. exists output. by rewrite Et.
        -- intros (o & [= <-] & -> & _). by rewrite Et.
Qed.

Lemma indexOf_Some c s i :
  indexOf c s = Some i -> (c ∉ take i s) /\ s = take i s ++ c :: drop (S i) s.
Proof.
  revert i. induction s as [|d s IH]; intros i; simpl; [done|].
  destruct (N.eqb_spec d c) as [->|Hne].
  - intros [= <-]. simpl. split; [by intros ?%elem_of_nil|]. by rewrite drop_0.
  - destruct (indexOf c s) as [j|] eqn:E; [|done]. simpl. intros [= <-].
    destruct (IH j eq_refl) as [Hn Hs]. simpl. split.
    + intros [->|Hin]%elem_of_cons; [done|]. by apply Hn.
    + f_equal. exact Hs.
Qed.

Lemma indexOf_None c s : indexOf c s = None -> c ∉ s.
Proof.
  induction s as [|d s IH]; simpl; [by intros _ ?%elem_of_nil|].
  destruct (N.eqb_spec d c) as [->|Hne]; [done|].
  destruct (indexOf c s); [done|]. intros _ [->|Hin]%elem_of_cons; [done|]. by apply IH.
Qed.

(** X4. The remote name holds no slash, and it is the whole name or the part of
    the name before its first slash. *)
Theorem extractRemoteName_spec (name : jsstring) :
  (Refs.SLASH ∉ Refs.extractRemoteName name) /\
  (Refs.extractRemoteName name = name \/
   exists rest, name = Refs.extractRemoteName name ++ Refs.SLASH :: rest).
Proof.
  unfold Refs.extractRemoteName, substring0.
  destruct (indexOf Refs.SLASH name) as [i|] eqn:E.
  - destruct (indexOf_Some _ _ _ E) as [Hn Hs]. split; [done|]. right. by eexists.
  - split; [by apply indexOf_None|by left].
Qed.

(** ** parseRefs *)

Lemma startsWith_spec prefix s :
  startsWith prefix s = true -> s = prefix ++ sliceFrom (length prefix) s.
Proof.
  revert s. induction prefix as [|c prefix IH]; intros s; simpl; [done|].
  destruct s as [|d s]; [done|]. intros [Hc Hs]%andb_true_iff.
  apply N.eqb_eq in Hc as ->. unfold sliceFrom in *. simpl. f_equal. by apply IH.
Qed.

Lemma splitWhiteSpace_go_parts piece inRun s :
  Forall (fun c => isWhiteSpace c = false) piece ->
  Forall (Forall (fun c => isWhiteSpace c = false)) (splitWhiteSpace_go piece inRun s).
Proof.
  revert piece inRun. induction s as [|c s IH]; intros piece inRun Hp; simpl.
  - constructor; [by apply Forall_reverse|constructor].
  - destruct (isWhiteSpace c) eqn:E.
    + destruct inRun; [by apply IH|].
      constructor; [by apply Forall_reverse|]. apply IH. constructor.
    + apply IH. by constructor.
Qed.

Lemma splitWhiteSpace_parts s part :
  part ∈ splitWhiteSpace s -> Forall (fun c => isWhiteSpace c = false) part.
Proof.
  intros Hin. unfold splitWhiteSpace in Hin.
  by apply (proj1 (Forall_forall _ _) (splitWhiteSpace_go_parts [] false s (Forall_nil_2 _))).
Qed.

Lemma not_white_singleLine s :
  Forall (fun c => isWhiteSpace c = false) s -> singleLine s.
Proof.
  unfold singleLine. intros Hs. eapply Forall_impl; [exact Hs|]. intros c Hc. simpl in Hc.
  unfold RegExp.isLineTerminator. unfold isWhiteSpace in Hc.
  repeat (apply orb_false_iff in Hc as [Hc ?]).
  apply andb_false_iff in Hc.
  repeat (apply orb_false_iff; split); try done; apply N.eqb_neq;
    destruct Hc as [Hc|Hc]; apply N.leb_gt in Hc; lia.
Qed.

Lemma parseRefLine_ok line headBranchName patterns ref :
  Refs.parseRefLine line headBranchName patterns = Returns (Refs.RefOk ref) ->
  refLineOk headBranchName patterns ref.
Proof.
  unfold Refs.parseRefLine.
  set (parts := splitWhiteSpace (trim line)).
  destruct (length parts <? 2)%nat eqn:Hlen; [done|].
  apply Nat.ltb_ge in Hlen.
  destruct (Parser.isValidHash (Parser.fieldAt parts 0)) eqn:Hv; [|by rewrite orb_true_r].
  destruct (bool_decide (Parser.fieldAt parts 0 = [])); [done|]. cbn [orb negb].
  destruct (bool_decide (Parser.fieldAt parts 1 = [])); [done|].
  set (full := Parser.fieldAt parts 1).
  assert (Forall (fun c => isWhiteSpace c = false) full) as Hfull.
  { unfold full, Parser.fieldAt. destruct (parts !! 1%nat) as [p|] eqn:E; [|constructor].
    simpl. apply (splitWhiteSpace_parts (trim line)). by apply list_elem_of_lookup_2 in E. }
  assert (forall n, Forall (fun c => isWhiteSpace c = false) (sliceFrom n full)) as Hname.
  { intros n. unfold sliceFrom. by apply Forall_drop. }
  assert (isCommitHash (unsafeCommitHash (toLowerCase (Parser.fieldAt parts 0))) = true)
    as Hhash.
  { rewrite (unsafeCommitHash_lowered _ Hv). by rewrite isCommitHash_toLowerCase. }
  destruct (startsWith (js "refs/heads/") full) eqn:Hheads.
  { apply startsWith_spec in Hheads.
    remember (sliceFrom (length (js "refs/heads/")) full) as name eqn:Ename.
    destruct (Parser.matchesProtectedPattern name patterns) as [protected|] eqn:Hp; [|done].
    intros [= <-]. unfold refLineOk, wellFormedRef.
    cbn [Refs.gitRefOf Refs.branchRef Refs.remoteName Refs.branchIsProtected
         refName fullName commitHash refType refIsHead].
    split; [|split; [rewrite Ename; apply Hname|done]].
    split; [done|]. split; [done|]. split; [|done].
    rewrite bool_decide_eq_true. tauto. }
  destruct (startsWith (js "refs/remotes/") full) eqn:Hremotes.
  { apply startsWith_spec in Hremotes.
    remember (sliceFrom (length (js "refs/remotes/")) full) as name eqn:Ename.
    destruct (endsWith (js "/HEAD") name) eqn:Hend; [done|].
    destruct (Parser.matchesProtectedPattern name patterns) as [protected|] eqn:Hp; [|done].
    intros [= <-]. unfold refLineOk, wellFormedRef.
    cbn [Refs.gitRefOf Refs.branchRef Refs.remoteName Refs.branchIsProtected
         refName fullName commitHash refType refIsHead].
    split; [|split; [rewrite Ename; apply Hname|done]].
    split; [done|]. split; [done|]. split; [|done].
    split; [done|]. by intros [? _]. }
  destruct (startsWith (js "refs/tags/") full) eqn:Htags; [|done].
  apply startsWith_spec in Htags.
  remember (sliceFrom (length (js "refs/tags/")) full) as name eqn:Ename.
  intros [= <-]. unfold refLineOk, wellFormedRef.
  cbn [Refs.gitRefOf Refs.tagRef Refs.isAnnotated
       refName fullName commitHash refType refIsHead].
  split; [|split; [rewrite Ename; apply Hname|done]].
  split; [done|]. split; [done|]. split; [|done].
  split; [done|]. by intros [? _].
Qed.

Lemma refsInv_push headBranchName patterns line visited acc result :
  Refs.parseRefLine line headBranchName patterns = Returns result ->
  refsInv headBranchName patterns visited acc ->
  refsInv headBranchName patterns (S visited) (Refs.pushRef acc result).
Proof.
  intros Hline (H1 & H2 & H3 & H4 & H5 & H6).
  destruct result as [ref|error|]; simpl.
  - apply parseRefLine_ok in Hline as (Hw & Hn & Href).
    destruct ref as [branch|t]; simpl in *.
    + destruct Href as (Ht & Hp & Hr).
      unfold refsInv. simpl. rewrite !filter_app, !filter_cons, !filter_nil.
      rewrite decide_True by done. rewrite decide_False by done.
      rewrite fmap_app, H3, H4, app_nil_r, !length_app. simpl.
      split; [apply Forall_app; split; [done|by constructor]|].
      split; [apply Forall_app; split; [done|by constructor]|].
      split; [done|]. split; [done|].
      split; [apply Forall_app; split; [done|by constructor]|]. lia.
    + unfold refsInv. simpl. rewrite !filter_app, !filter_cons, !filter_nil.
      rewrite decide_False by (by intros Hne; apply Hne).
      rewrite decide_True by done.
      rewrite fmap_app, H3, H4, app_nil_r, !length_app. simpl.
      split; [apply Forall_app; split; [done|by constructor]|].
      split; [apply Forall_app; split; [done|by constructor]|].
      split; [done|]. split; [done|]. split; [done|]. lia.
  - unfold refsInv. simpl. rewrite length_app. simpl.
    split; [done|]. split; [done|]. split; [done|]. split; [done|]. split; [done|]. lia.
  - unfold refsInv. split; [done|]. split; [done|]. split; [done|]. split; [done|].
    split; [done|]. lia.
Qed.

Lemma parseRefLines_inv headBranchName patterns lines visited acc res :
  Refs.parseRefLines lines
    {| Refs.headBranch := headBranchName; Refs.protectedPatterns := patterns |} acc
    = Returns res ->
  refsInv headBranchName patterns visited acc ->
  refsInv headBranchName patterns (visited + length lines) res.
Proof.
  revert visited acc. induction lines as [|line lines IH]; intros visited acc; simpl.
  - intros [= <-]. by rewrite Nat.add_0_r.
  - destruct (Refs.parseRefLine line headBranchName patterns) as [result|] eqn:E; [|done].
    intros Hrun Hinv. replace (visited + S (length lines))%nat
      with (S visited + length lines)%nat by lia.
    apply (IH _ _ Hrun). by apply (refsInv_push _ _ line).
Qed.

Lemma parseRefs_inv raw headBranchName patterns res :
  Refs.parseRefs raw
    {| Refs.headBranch := headBranchName; Refs.protectedPatterns := patterns |}
    = Returns res ->
  refsInv headBranchName patterns (length (Refs.refLines raw)) res.
Proof.
  assert (refsInv headBranchName patterns 0
            {| Refs.refs := []; Refs.branches := []; Refs.tags := []; Refs.errors := [] |})
    as Hempty.
  { unfold refsInv. simpl. repeat split; try constructor. }
  unfold Refs.parseRefs.
  destruct (bool_decide (raw = []) || (length (trim raw) =? 0)%nat).
  - intros [= <-]. destruct Hempty as (H1 & H2 & H3 & H4 & H5 & H6).
    unfold refsInv. repeat split; try done. simpl in *. lia.
  - intros Hrun. by apply (parseRefLines_inv _ _ _ 0%nat _ _ Hrun).
Qed.

(** X5. Every ref [parseRefs] returns points at a commit hash, has the full name
    that its type and name give, is marked as HEAD exactly when it is the
    local branch named by [headBranch], and, when it is a remote branch, does
    not end in [/HEAD]. *)
Theorem parseRefs_wellFormed raw headBranchName patterns res :
  Refs.parseRefs raw
    {| Refs.headBranch := headBranchName; Refs.protectedPatterns := patterns |}
    = Returns res ->
  Forall (wellFormedRef headBranchName) (Refs.refs res).
Proof. intros Hrun. by destruct (parseRefs_inv _ _ _ _ Hrun). Qed.

(** X6. The branches and the tags of the result are the refs of the result, split
    by type and in their order; a branch carries the remote name and the
    protection flag the helper functions compute for its name; no line gives
    more than one ref or error. *)
Theorem parseRefs_partition raw headBranchName patterns res :
  Refs.parseRefs raw
    {| Refs.headBranch := headBranchName; Refs.protectedPatterns := patterns |}
    = Returns res ->
  Refs.branchRef <$> Refs.branches res = filter (fun ref => refType ref <> tag) (Refs.refs res) /\
  Refs.tagRef <$> Refs.tags res = filter (fun ref => refType ref = tag) (Refs.refs res) /\
  Forall (fun branch =>
            Parser.matchesProtectedPattern (refName (Refs.branchRef branch)) patterns
              = Returns (Refs.branchIsProtected branch) /\
            Refs.remoteName branch =
              match refType (Refs.branchRef branch) with
              | remote => Some (Refs.extractRemoteName (refName (Refs.branchRef branch)))
              | _ => None
              end) (Refs.branches res) /\
  (length (Refs.refs res) + length (Refs.errors res) <= length (Refs.refLines raw))%nat.
Proof. intros Hrun. by destruct (parseRefs_inv _ _ _ _ Hrun) as (_ & _ & ? & ? & ? & ?). Qed.

Lemma parseRefLine_returns line headBranchName patterns :
  Forall plainPattern patterns ->
  exists result, Refs.parseRefLine line headBranchName patterns = Returns result.
Proof.
  intros Hplain. unfold Refs.parseRefLine.
  set (parts := splitWhiteSpace (trim line)).
  destruct (length parts <? 2)%nat; [by eexists|].
  destruct (_ || _); [by eexists|].
  destruct (bool_decide (Parser.fieldAt parts 1 = [])); [by eexists|].
  set (full := Parser.fieldAt parts 1).
  assert (forall n, singleLine (sliceFrom n full)) as Hname.
  { intros n. apply not_white_singleLine. unfold sliceFrom. apply Forall_drop.
    unfold full, Parser.fieldAt. destruct (parts !! 1%nat) as [p|] eqn:E; [|constructor].
    simpl. apply (splitWhiteSpace_parts (trim line)). by apply list_elem_of_lookup_2 in E. }
  destruct (startsWith (js "refs/heads/") full).
  { remember (sliceFrom (length (js "refs/heads/")) full) as name eqn:Ename.
    destruct (matchesProtectedPattern_plain name patterns Hplain) as [_ ->];
      [rewrite Ename; apply Hname|]. by eexists. }
  destruct (startsWith (js "refs/remotes/") full).
  { remember (sliceFrom (length (js "refs/remotes/")) full) as name eqn:Ename.
    destruct (endsWith (js "/HEAD") name); [by eexists|].
    destruct (matchesProtectedPattern_plain name patterns Hplain) as [_ ->];
      [rewrite Ename; apply Hname|]. by eexists. }
  destruct (startsWith (js "refs/tags/") full); by eexists.
Qed.

Lemma parseRefLines_returns lines headBranchName patterns acc :
  Forall plainPattern patterns ->
  exists res,
    Refs.parseRefLines lines
      {| Refs.headBranch := headBranchName; Refs.protectedPatterns := patterns |} acc
    = Returns res.
Proof.
  intros Hplain. revert acc. induction lines as [|line lines IH]; intros acc; simpl.
  - by eexists.
  - destruct (parseRefLine_returns line headBranchName patterns Hplain) as [result ->].
    apply IH.
Qed.

(** X7. With patterns that hold no question mark [parseRefs] returns, and it
    marks a branch as protected exactly when its name matches one of the
    patterns read as a glob, a star standing for any run of characters and
    every other character for itself. *)
Theorem parseRefs_plain raw headBranchName patterns :
  Forall plainPattern patterns ->
  exists res,
    Refs.parseRefs raw
      {| Refs.headBranch := headBranchName; Refs.protectedPatterns := patterns |}
    = Returns res /\
    Forall (fun branch =>
              Refs.branchIsProtected branch
              = protectedBySpec (refName (Refs.branchRef branch)) patterns)
           (Refs.branches res).
Proof.
  intros Hplain.
  assert (exists res,
            Refs.parseRefs raw
              {| Refs.headBranch := headBranchName; Refs.protectedPatterns := patterns |}
            = Returns res) as [res Hres].
  { unfold Refs.parseRefs. destruct (_ || _); [by eexists|].
    by apply parseRefLines_returns. }
  exists res. split; [exact Hres|].
  destruct (parseRefs_inv _ _ _ _ Hres) as (_ & Hwhite & Hbranches & _ & Hflags & _).
  apply Forall_forall. intros branch Hb.
  destruct (proj1 (Forall_forall _ _) Hflags branch Hb) as [Hflag _].
  assert (Refs.branchRef branch ∈ Refs.refs res) as Hin.
  { assert (Refs.branchRef branch ∈ Refs.branchRef <$> Refs.branches res) as Hin
      by (apply list_elem_of_fmap; by exists branch).
    rewrite Hbranches in Hin. by apply list_elem_of_filter in Hin as [_ ?]. }
  pose proof (proj1 (Forall_forall _ _) Hwhite _ Hin) as Hname.
  destruct (matchesProtectedPattern_plain (refName (Refs.branchRef branch)) patterns Hplain
              (not_white_singleLine _ Hname)) as [_ Hspec].
  congruence.
Qed.

(** ** getAncestors, getDescendants

    Both run the same loop; [next] is what it reads for a hash and
    [universe] a finite set that holds every hash it can read. *)

Section Walk.
Context (next : CommitHash -> list CommitHash) (universe : gset CommitHash).
Hypothesis next_universe : forall h x, x ∈ next h -> x ∈ universe.
Context (maxDepth : Num) (start : CommitHash).

Lemma enqueueAtDepth_visited xs depth visited queue :
  (enqueueAtDepth xs depth visited queue).1 = list_to_set xs ∪ visited.
Proof.
  revert visited queue. induction xs as [|x xs IH]; intros visited queue; simpl.
  - set_solver.
  - destruct (decide (x ∈ visited)); rewrite IH; set_solver.
Qed.

Lemma enqueueAtDepth_queue xs depth visited queue :
  exists new,
    (enqueueAtDepth xs depth visited queue).2 = queue ++ ((fun x => (x, depth)) <$> new) /\
    NoDup new /\ (forall x, x ∈ new <-> x ∈ xs /\ x ∉ visited).
Proof.
  revert visited queue. induction xs as [|x xs IH]; intros visited queue; simpl.
  - exists []. rewrite app_nil_r. split; [done|]. split; [constructor|]. set_solver.
  - destruct (decide (x ∈ visited)) as [Hin|Hnin].
    + destruct (IH visited queue) as (new & -> & Hnd & Hnew). exists new.
      split; [done|]. split; [done|]. intros y. rewrite Hnew. set_solver.
    + destruct (IH ({[x]} ∪ visited) (queue ++ [(x, depth)])) as (new & -> & Hnd & Hnew).
      exists (x :: new). split; [by rewrite <- app_assoc|]. split.
      * constructor; [|done]. rewrite Hnew. set_solver.
      * intros y. rewrite elem_of_cons, Hnew. destruct (decide (y = x)); set_solver.
Qed.

Lemma enqueueAtDepth_measure xs depth visited queue :
  (forall x, x ∈ xs -> x ∈ universe) ->
  (size (universe ∖ (enqueueAtDepth xs depth visited queue).1)
   + length (enqueueAtDepth xs depth visited queue).2
   = size (universe ∖ visited) + length queue)%nat.
Proof.
  revert visited queue. induction xs as [|x xs IH]; intros visited queue Hxs; simpl; [done|].
  destruct (decide (x ∈ visited)).
  - apply IH. set_solver.
  - rewrite IH by set_solver. rewrite length_app. simpl.
    assert (universe ∖ ({[x]} ∪ visited) = (universe ∖ visited) ∖ {[x]}) as -> by set_solver.
    rewrite size_difference by set_solver. rewrite size_singleton.
    assert (size (universe ∖ visited) ≠ 0%nat); [|lia].
    apply size_non_empty_iff. intros Hempty. specialize (Hxs x). set_solver.
Qed.

Lemma walkToDepth_total fuel visited queue found :
  (size (universe ∖ visited) + length queue <= fuel)%nat ->
  is_Some (walkToDepth next fuel maxDepth visited queue found).
Proof.
  revert visited queue found. induction fuel as [|fuel IH]; intros visited queue found Hm.
  - destruct queue as [|[h d] rest]; [by eexists|]. simpl in Hm. lia.
  - destruct queue as [|[h d] rest]; [by eexists|]. simpl.
    destruct (deeperThan d maxDepth).
    + apply IH. simpl in Hm. lia.
    + pose proof (enqueueAtDepth_measure (next h) (S d) visited rest (next_universe h)) as Hpres.
      destruct (enqueueAtDepth (next h) (S d) visited rest) as [v' q'].
      apply IH. simpl in *. lia.
Qed.


Lemma deeperThan_mono d n :
  (d <= n)%nat -> deeperThan n maxDepth = false -> deeperThan d maxDepth = false.
Proof.
  unfold deeperThan. destruct maxDepth as [|m|]; [done| |done].
  rewrite !Z.ltb_ge. lia.
Qed.

Lemma foundOf_snoc processed h d :
  foundOf maxDepth (processed ++ [(h, d)]) =
  if deeperThan d maxDepth then foundOf maxDepth processed
  else foundOf maxDepth processed ++ [h].
Proof.
  unfold foundOf. rewrite filter_app, filter_cons, filter_nil. simpl.
  destruct (deeperThan d maxDepth) eqn:E.
  - rewrite decide_False by done. by rewrite app_nil_r.
  - rewrite decide_True by done. by rewrite fmap_app.
Qed.

Lemma depthInv_start :
  depthInv next maxDepth start (enqueueAtDepth (next start) 1 ∅ []).1
           (enqueueAtDepth (next start) 1 ∅ []).2 [].
Proof.
  rewrite enqueueAtDepth_visited.
  destruct (enqueueAtDepth_queue (next start) 1 ∅ []) as (new & -> & Hnd & Hnew).
  simpl. unfold depthInv. simpl.
  assert (forall x, x ∈ new <-> x ∈ next start) as Hnew' by (intros x; rewrite Hnew; set_solver).
  rewrite <- !list_fmap_compose.
  change (fst ∘ (fun x : CommitHash => (x, 1%nat))) with (@id CommitHash).
  rewrite list_fmap_id.
  split; [|split; [|split; [|split; [|split; [|split]]]]].
  - intros v. rewrite Hnew'. set_solver.
  - done.
  - intros h d (x & [= -> ->] & Hx)%list_elem_of_fmap.
    split; [lia|]. apply nsteps_once. by apply Hnew'.
  - clear. induction new as [|x new IH]; simpl; constructor; [done|].
    apply Forall_forall. intros d (y & -> & _)%list_elem_of_fmap. unfold compose. simpl. lia.
  - intros d d' Hhead (y & -> & _)%list_elem_of_fmap.
    destruct new as [|z new]; [done|]. simpl in Hhead. injection Hhead as <-.
    unfold compose. simpl. lia.
  - intros y d Hy. by apply elem_of_nil in Hy.
  - intros x Hx. apply list_elem_of_fmap. exists x. split; [done|]. by apply Hnew'.
Qed.

Lemma depthInv_skip visited h d rest processed :
  depthInv next maxDepth start visited ((h, d) :: rest) processed ->
  deeperThan d maxDepth = true ->
  depthInv next maxDepth start visited rest (processed ++ [(h, d)]).
Proof.
  intros (H1 & H2 & H3 & H4 & H5 & H6 & H7) Hdeep.
  unfold depthInv. rewrite <- !app_assoc. simpl.
  split; [done|]. split; [done|]. split; [done|]. split; [done|].
  split; [|split; [|done]].
  - intros d1 d' Hhead Hd'.
    rewrite fmap_app in H4. apply StronglySorted_app_1_r in H4.
    simpl in H4. apply StronglySorted_inv in H4 as [_ Hle].
    destruct rest as [|[h1 d1'] rest]; [done|]. simpl in Hhead. injection Hhead as ->.
    assert (d <= d1)%nat by (by apply Forall_cons in Hle as [? _]).
    assert (d' <= S d)%nat; [|lia].
    apply (H5 d d'); [done|]. simpl. by right.
  - intros y dy [Hy|Hy%list_elem_of_singleton]%elem_of_app Hnd x Hx.
    + by apply (H6 y dy).
    + injection Hy as -> ->. congruence.
Qed.

Lemma depthInv_expand visited h d rest processed :
  depthInv next maxDepth start visited ((h, d) :: rest) processed ->
  depthInv next maxDepth start
    (enqueueAtDepth (next h) (S d) visited rest).1
    (enqueueAtDepth (next h) (S d) visited rest).2 (processed ++ [(h, d)]).
Proof.
  intros (H1 & H2 & H3 & H4 & H5 & H6 & H7).
  rewrite enqueueAtDepth_visited.
  destruct (enqueueAtDepth_queue (next h) (S d) visited rest) as (new & -> & Hnd & Hnew).
  assert (forall dq, dq ∈ ((h, d) :: rest).*2 -> (dq <= S d)%nat) as Hq.
  { intros dq Hdq. by apply (H5 d dq). }
  assert (forall dp, dp ∈ processed.*2 -> (dp <= d)%nat) as Hp.
  { intros dp Hdp. rewrite fmap_app in H4.
    apply (StronglySorted_app_1_elem_of _ _ _ dp d H4 Hdp). simpl. by left. }
  assert (StronglySorted le ((h, d) :: rest).*2) as Hsq.
  { rewrite fmap_app in H4. by apply StronglySorted_app_1_r in H4. }
  assert (forall dq, dq ∈ rest.*2 -> (d <= dq)%nat) as Hrest.
  { intros dq Hdq. simpl in Hsq. apply StronglySorted_inv in Hsq as [_ Hle].
    by apply (proj1 (Forall_forall _ _) Hle). }
  unfold depthInv.
  replace ((processed ++ [(h, d)]) ++ rest ++ ((fun x => (x, S d)) <$> new))
    with ((processed ++ (h, d) :: rest) ++ ((fun x => (x, S d)) <$> new))
    by (by rewrite <- !app_assoc).
  rewrite !(fmap_app _ (processed ++ (h, d) :: rest)), <- !list_fmap_compose.
  change (fst ∘ (fun x : CommitHash => (x, S d))) with (@id CommitHash).
  rewrite list_fmap_id.
  split; [|split; [|split; [|split; [|split; [|split]]]]].
  - intros v. rewrite elem_of_app, <- H1, Hnew, elem_of_union, elem_of_list_to_set.
    clear. destruct (decide (v ∈ visited)); tauto.
  - apply NoDup_app. split; [done|]. split; [|done].
    intros x Hx Hx'. apply Hnew in Hx' as [_ Hx']. apply Hx'. by apply H1.
  - intros y dy [Hy|(x & [= -> ->] & Hx)%list_elem_of_fmap]%elem_of_app; [by apply H3|].
    split; [lia|]. apply Hnew in Hx as [Hx _].
    eapply nsteps_r; [|exact Hx]. apply (H3 h d). apply elem_of_app. right. by left.
  - apply StronglySorted_app_2; [|done|].
    + intros d1 d2 Hd1 (x & -> & _)%list_elem_of_fmap. simpl.
      rewrite fmap_app in Hd1. apply elem_of_app in Hd1 as [Hd1|Hd1].
      * specialize (Hp d1 Hd1). lia.
      * by apply Hq.
    + clear. induction new as [|x new IH]; simpl; constructor; [done|].
      apply Forall_forall. intros d' (y & -> & _)%list_elem_of_fmap. unfold compose. simpl. lia.
  - intros d1 d' Hhead Hd'. rewrite fmap_app, <- list_fmap_compose in Hhead, Hd'.
    assert (d <= d1)%nat as Hd1.
    { destruct rest as [|[h1 d1'] rest]; simpl in Hhead.
      - destruct new; [done|]. simpl in Hhead. injection Hhead as <-. lia.
      - injection Hhead as ->. apply Hrest. simpl. by left. }
    apply elem_of_app in Hd' as [Hd'|(x & -> & _)%list_elem_of_fmap]; simpl; [|lia].
    assert (d' <= S d)%nat; [|lia]. apply Hq. simpl. by right.
  - intros y dy [Hy|Hy%list_elem_of_singleton]%elem_of_app Hnd' x Hx.
    + destruct (H6 y dy Hy Hnd' x Hx) as (dx & Hdx & Hle).
      exists dx. split; [|done]. apply elem_of_app. by left.
    + injection Hy as -> ->. destruct (decide (x ∈ visited)) as [Hv|Hv].
      * apply H1, list_elem_of_fmap in Hv as ([x' dx] & -> & Hin). simpl.
        exists dx. split; [apply elem_of_app; by left|].
        apply elem_of_app in Hin as [Hin|Hin].
        -- assert (dx <= d)%nat; [|lia]. apply Hp, list_elem_of_fmap. by exists (x', dx).
        -- apply Hq, list_elem_of_fmap. by exists (x', dx).
      * exists (S d). split; [|lia]. apply elem_of_app. right.
        apply list_elem_of_fmap. exists x. split; [done|]. apply Hnew. done.
  - intros x Hx. apply elem_of_app. left. by apply H7.
Qed.

Lemma walkToDepth_inv fuel visited queue processed found :
  depthInv next maxDepth start visited queue processed ->
  walkToDepth next fuel maxDepth visited queue (foundOf maxDepth processed) = Some found ->
  exists visited' processed',
    depthInv next maxDepth start visited' [] processed' /\
    found = foundOf maxDepth processed'.
Proof.
  revert visited queue processed.
  induction fuel as [|fuel IH]; intros visited queue processed Hinv.
  - destruct queue as [|[h d] rest]; [|done]. simpl. intros [= <-]. by exists visited, processed.
  - destruct queue as [|[h d] rest].
    + simpl. intros [= <-]. by exists visited, processed.
    + simpl. destruct (deeperThan d maxDepth) eqn:Hdeep.
      * intros Hrun. apply (IH visited rest (processed ++ [(h, d)])).
        -- by apply depthInv_skip.
        -- by rewrite foundOf_snoc, Hdeep.
      * pose proof (depthInv_expand _ _ _ _ _ Hinv) as Hstep.
        destruct (enqueueAtDepth (next h) (S d) visited rest) as [v' q'].
        intros Hrun. apply (IH v' q' (processed ++ [(h, d)])); [exact Hstep|].
        by rewrite foundOf_snoc, Hdeep.
Qed.

Lemma StronglySorted_fmap_inv {A B} (f : A -> B) (R : relation B) (l : list A) :
  StronglySorted R (f <$> l) -> StronglySorted (fun x y => R (f x) (f y)) l.
Proof.
  induction l as [|x l IH]; simpl; [constructor|].
  intros [Hs Hall]%StronglySorted_inv. constructor; [by apply IH|].
  apply Forall_forall. intros y Hy. apply (proj1 (Forall_forall _ _) Hall).
  apply list_elem_of_fmap. by exists y.
Qed.

Lemma StronglySorted_filter {A} (R : relation A) (P : A -> Prop)
    `{forall x, Decision (P x)} (l : list A) :
  StronglySorted R l -> StronglySorted R (filter P l).
Proof.
  induction 1 as [|x l Hs IH Hall]; [constructor|].
  rewrite filter_cons. destruct (decide (P x)); [|done].
  constructor; [done|]. apply Forall_forall. intros y [_ Hy]%list_elem_of_filter.
  by apply (proj1 (Forall_forall _ _) Hall).
Qed.

Lemma StronglySorted_lookup {A} (R : relation A) (l : list A) i j x y :
  StronglySorted R l -> (i < j)%nat -> l !! i = Some x -> l !! j = Some y -> R x y.
Proof.
  intros Hs. revert i j. induction Hs as [|z l Hs IH Hall]; intros i j Hij Hi Hj; [done|].
  destruct j as [|j]; [lia|]. simpl in Hj. destruct i as [|i]; simpl in Hi.
  - injection Hi as ->. apply (proj1 (Forall_forall _ _) Hall).
    by apply list_elem_of_lookup_2 in Hj.
  - apply (IH i j); [lia|done|done].
Qed.

Lemma depthInv_done visited processed :
  depthInv next maxDepth start visited [] processed ->
  NoDup (foundOf maxDepth processed) /\
  (forall x, x ∈ foundOf maxDepth processed <-> withinDepth next maxDepth start x) /\
  (forall i j x y n,
     (i < j)%nat -> foundOf maxDepth processed !! i = Some x ->
     foundOf maxDepth processed !! j = Some y ->
     (1 <= n)%nat -> nsteps (fun a b => b ∈ next a) n start y ->
     exists m, (1 <= m <= n)%nat /\ nsteps (fun a b => b ∈ next a) m start x).
Proof.
  intros (H1 & H2 & H3 & H4 & H5 & H6 & H7). rewrite app_nil_r in *.
  assert (forall n x, (1 <= n)%nat -> deeperThan n maxDepth = false ->
                      nsteps (fun a b => b ∈ next a) n start x ->
                      exists d, (d <= n)%nat /\ (x, d) ∈ processed) as Hall.
  { induction n as [|n IH]; intros x Hn Hdeep Hx; [lia|].
    apply nsteps_inv_r in Hx as (y & Hy & Hyx).
    destruct n as [|n].
    - inversion Hy; subst. exists 1%nat. split; [lia|]. by apply H7.
    - destruct (IH y) as (dy & Hdy & Hin); [lia|apply (deeperThan_mono _ (S (S n))); [lia|done]|done|].
      destruct (H6 y dy Hin) with (x := x) as (dx & Hdx & Hle); [|done|].
      { apply (deeperThan_mono _ (S (S n))); [lia|done]. }
      exists dx. split; [lia|done]. }
  split; [|split].
  - eapply sublist_NoDup; [exact H2|]. unfold foundOf.
    apply fmap_sublist, sublist_filter.
  - intros x. unfold foundOf. split.
    + intros ([x' d] & -> & Hin)%list_elem_of_fmap.
      apply list_elem_of_filter in Hin as [Hd Hin]. simpl in *.
      exists d. destruct (H3 x' d Hin) as [? ?]. done.
    + intros (n & Hn & Hdeep & Hx). destruct (Hall n x Hn Hdeep Hx) as (d & Hd & Hin).
      apply list_elem_of_fmap. exists (x, d). split; [done|].
      apply list_elem_of_filter. split; [|done]. simpl. by apply (deeperThan_mono _ n).
  - intros i j x y n Hij Hi Hj Hn Hy. unfold foundOf in Hi, Hj.
    rewrite list_lookup_fmap in Hi, Hj.
    destruct (filter _ processed !! i) as [[x' dx]|] eqn:Ei; [|done].
    destruct (filter _ processed !! j) as [[y' dy]|] eqn:Ej; [|done].
    simpl in Hi, Hj. injection Hi as ->. injection Hj as ->.
    assert (dx <= dy)%nat as Hxy.
    { apply (StronglySorted_lookup (fun p q : CommitHash * nat => (p.2 <= q.2)%nat)
               (filter (fun p => deeperThan p.2 maxDepth = false) processed)
               i j (x, dx) (y, dy)); [|done|done|done].
      apply StronglySorted_filter. by apply StronglySorted_fmap_inv. }
    apply list_elem_of_lookup_2, list_elem_of_filter in Ei as [_ Ei].
    apply list_elem_of_lookup_2, list_elem_of_filter in Ej as [Hdy Ej]. simpl in Hdy.
    assert (dy <= n)%nat as Hyn.
    { destruct (deeperThan n maxDepth) eqn:Hdeep.
      - destruct (decide (dy <= n)%nat) as [|Hgt]; [done|].
        rewrite (deeperThan_mono n dy) in Hdeep; [done|lia|done].
      - destruct (Hall n y Hn Hdeep Hy) as (d & Hd & Hin).
        assert (d = dy) as ->; [|done].
        pose proof (elem_of_list_to_map_1 (M := gmap CommitHash) processed y d H2 Hin) as E1.
        pose proof (elem_of_list_to_map_1 (M := gmap CommitHash) processed y dy H2 Ej) as E2.
        congruence. }
    exists dx. destruct (H3 x dx Ei) as [? ?]. split; [lia|done].
Qed.

(** The loop started from the neighbours of [start]. *)
Lemma walkToDepth_spec :
  exists found,
    walkToDepth next (S (size universe)) maxDepth
      (enqueueAtDepth (next start) 1 ∅ []).1 (enqueueAtDepth (next start) 1 ∅ []).2 []
      = Some found /\
    NoDup found /\
    (forall x, x ∈ found <-> withinDepth next maxDepth start x) /\
    (forall i j x y n,
       (i < j)%nat -> found !! i = Some x -> found !! j = Some y ->
       (1 <= n)%nat -> nsteps (fun a b => b ∈ next a) n start y ->
       exists m, (1 <= m <= n)%nat /\ nsteps (fun a b => b ∈ next a) m start x).
Proof.
  destruct (walkToDepth_total (S (size universe))
              (enqueueAtDepth (next start) 1 ∅ []).1
              (enqueueAtDepth (next start) 1 ∅ []).2 []) as [found Hfound].
  { rewrite enqueueAtDepth_measure by apply next_universe. simpl.
    assert (size (universe ∖ ∅) <= size universe)%nat by (apply subseteq_size; set_solver).
    lia. }
  exists found. split; [done|].
  destruct (walkToDepth_inv _ _ _ [] found depthInv_start Hfound) as (v' & p' & Hinv & ->).
  by apply (depthInv_done v').
Qed.

End Walk.

Lemma childrenOf_named graph h x : x ∈ childrenOf graph h -> x ∈ namedChildren graph.
Proof.
  unfold childrenOf, namedChildren. destruct (children graph !! h) as [cs|] eqn:E; simpl.
  - intros Hx. apply elem_of_union_list. exists (list_to_set cs). split; [|set_solver].
    apply list_elem_of_fmap. exists (h, cs). split; [done|]. by apply elem_of_map_to_list.
  - by intros ?%elem_of_nil.
Qed.

(** For a commit that is not loaded [getAncestors] returns at once; the
    loop would do the same, since it reads no parents for such a hash. *)
Lemma getAncestors_walk graph commitHash maxDepth :
  getAncestors graph commitHash maxDepth
  = walkToDepth (parentsOf graph) (traversalFuel graph) maxDepth
      (enqueueAtDepth (parentsOf graph commitHash) 1 ∅ []).1
      (enqueueAtDepth (parentsOf graph commitHash) 1 ∅ []).2 [].
Proof.
  unfold getAncestors, parentsOf.
  destruct (commits graph !! commitHash) as [commit|]; [|done].
  by destruct (enqueueAtDepth (parents commit) 1 ∅ []).
Qed.

(** X8. [getAncestors] returns. It lists each hash once, namely the hashes that
    are between 1 and [maxDepth] parent steps away from the commit, and a hash
    listed earlier is at most as many steps away as any path to a hash listed
    later is long (closest ancestors first). For a commit that is not loaded
    the list is empty. *)
Theorem getAncestors_spec graph commitHash maxDepth :
  exists ancestors,
    getAncestors graph commitHash maxDepth = Some ancestors /\
    NoDup ancestors /\
    (forall x, x ∈ ancestors <-> withinDepth (parentsOf graph) maxDepth commitHash x) /\
    (forall i j x y n,
       (i < j)%nat -> ancestors !! i = Some x -> ancestors !! j = Some y ->
       (1 <= n)%nat -> nsteps (parentOf graph) n commitHash y ->
       exists m, (1 <= m <= n)%nat /\ nsteps (parentOf graph) m commitHash x) /\
    (commits graph !! commitHash = None -> ancestors = []).
Proof.
  destruct (walkToDepth_spec (parentsOf graph) (namedParents graph)
              (parentsOf_named graph) maxDepth commitHash)
    as (found & Hrun & Hnd & Hmem & Hord).
  exists found. rewrite getAncestors_walk.
  split; [exact Hrun|]. split; [done|]. split; [done|]. split; [exact Hord|].
  intros Hc. unfold parentsOf in Hrun. rewrite Hc in Hrun. simpl in Hrun. congruence.
Qed.

(** X9. [getDescendants] returns. It lists each hash once, namely the hashes
    that are between 1 and [maxDepth] steps of the child index away from the
    commit, closest first. *)
Theorem getDescendants_spec graph commitHash maxDepth :
  exists descendants,
    getDescendants graph commitHash maxDepth = Some descendants /\
    NoDup descendants /\
    (forall x, x ∈ descendants <-> withinDepth (childrenOf graph) maxDepth commitHash x) /\
    (forall i j x y n,
       (i < j)%nat -> descendants !! i = Some x -> descendants !! j = Some y ->
       (1 <= n)%nat -> nsteps (fun a b => b ∈ childrenOf graph a) n commitHash y ->
       exists m, (1 <= m <= n)%nat /\
                 nsteps (fun a b => b ∈ childrenOf graph a) m commitHash x).
Proof.
  unfold getDescendants.
  destruct (walkToDepth_spec (childrenOf graph) (namedChildren graph)
              (childrenOf_named graph) maxDepth commitHash)
    as (found & Hrun & Hnd & Hmem & Hord).
  destruct (enqueueAtDepth (childrenOf graph commitHash) 1 ∅ []) as [v q].
  by exists found.
Qed.

(** ** isAncestor *)

Section Ancestry.
Context (graph : RepositoryGraph).

Lemma scanForAncestor_find target ps visited queue :
  scanForAncestor target ps visited queue =
  if bool_decide (target ∈ ps) then AncestorFound
  else AncestorNotYet (enqueueUnseen ps visited queue).1 (enqueueUnseen ps visited queue).2.
Proof.
  revert visited queue. induction ps as [|p ps IH]; intros visited queue; simpl; [done|].
  destruct (decide (p = target)) as [->|Hne].
  - rewrite bool_decide_eq_true_2; [done|by left].
  - assert (bool_decide (target ∈ p :: ps) = bool_decide (target ∈ ps)) as ->.
    { apply bool_decide_ext. rewrite elem_of_cons. naive_solver. }
    destruct (decide (p ∈ visited)); apply IH.
Qed.

Lemma searchAncestor_bfsParents target fuel visited queue stream :
  bfsParents fuel graph visited queue = Some stream ->
  searchAncestor fuel graph target visited queue = Some (bool_decide (target ∈ stream)).
Proof.
  revert visited queue stream. induction fuel as [|fuel IH]; intros visited queue stream.
  - destruct queue; [|done]. simpl. by intros [= <-].
  - destruct queue as [|c rest]; simpl.
    + by intros [= <-].
    + rewrite scanForAncestor_find.
      destruct (enqueueUnseen (parentsOf graph c) visited rest) as [v' q'] eqn:E.
      destruct (bfsParents fuel graph v' q') as [l|] eqn:El; [|done].
      simpl. intros [= <-].
      destruct (decide (target ∈ parentsOf graph c)) as [Hin|Hnin].
      * rewrite bool_decide_eq_true_2 by done. f_equal.
        rewrite bool_decide_eq_true_2; [done|]. apply elem_of_app. by left.
      * rewrite bool_decide_eq_false_2 by done. rewrite (IH _ _ _ El). f_equal.
        apply bool_decide_ext. rewrite elem_of_app. tauto.
Qed.

(** The parents a traversal from [start] reads are the hashes reachable from
    [start], [start] itself apart unless it lies on a cycle. *)
Lemma bfsParents_reaches start stream :
  bfsParents (traversalFuel graph) graph {[start]} [start] = Some stream ->
  forall x, x ∈ stream \/ x = start <-> reaches graph start x.
Proof.
  intros Hs x.
  pose proof (collectAncestors_bfsParents graph _ _ _ _ Hs) as Ha.
  rewrite <- (collectAncestors_reaches graph start _ _ _ _ (bfsInv_start graph start) Ha x).
  rewrite elem_of_union, elem_of_list_to_set, elem_of_singleton. done.
Qed.

(** X10. [isAncestor] returns, and it returns true exactly when the two hashes
    differ and the first is reachable from the second through the parent
    lists of loaded commits. *)
Theorem isAncestor_spec (potentialAncestor commit : CommitHash) :
  exists answer,
    isAncestor graph potentialAncestor commit = Some answer /\
    (answer = true <-> potentialAncestor <> commit /\ reaches graph commit potentialAncestor).
Proof.
  unfold isAncestor. destruct (decide (potentialAncestor = commit)) as [->|Hne].
  - exists false. split; [done|]. split; [done|]. by intros [? _].
  - destruct (bfsParents_total graph (traversalFuel graph) {[commit]} [commit]
                (measure_start graph commit)) as [stream Hs].
    exists (bool_decide (potentialAncestor ∈ stream)).
    split; [by apply searchAncestor_bfsParents|].
    rewrite bool_decide_eq_true, <- (bfsParents_reaches commit stream Hs). tauto.
Qed.

(** X11. When [isAncestor] says that [a] is an ancestor of [c], the merge base of
    [c] and [a] is [a]. *)
Theorem isAncestor_findMergeBase (a c : CommitHash) :
  isAncestor graph a c = Some true ->
  findMergeBase graph c a = Some (Some a).
Proof.
  intros Htrue. unfold isAncestor in Htrue.
  destruct (decide (a = c)) as [|Hne]; [done|].
  destruct (bfsParents_total graph (traversalFuel graph) {[c]} [c]
              (measure_start graph c)) as [stream Hs].
  rewrite (searchAncestor_bfsParents a _ _ _ _ Hs) in Htrue.
  injection Htrue as Htrue. apply bool_decide_eq_true in Htrue.
  unfold findMergeBase, findMergeBaseWith.
  rewrite (collectAncestors_bfsParents graph _ _ _ _ Hs).
  rewrite decide_True; [done|]. apply elem_of_union. left. by apply elem_of_list_to_set.
Qed.

(** X12. A merge base that [findMergeBase] returns is reachable from both
    commits. *)
Theorem findMergeBase_common (a b base : CommitHash) :
  findMergeBase graph a b = Some (Some base) ->
  reaches graph a base /\ reaches graph b base.
Proof.
  destruct (bfsParents_total graph (traversalFuel graph) {[a]} [a]
              (measure_start graph a)) as [sa Hsa].
  destruct (bfsParents_total graph (traversalFuel graph) {[b]} [b]
              (measure_start graph b)) as [sb Hsb].
  pose proof (bfsParents_reaches a sa Hsa) as HA.
  pose proof (bfsParents_reaches b sb Hsb) as HB.
  unfold findMergeBase, findMergeBaseWith.
  rewrite (collectAncestors_bfsParents graph _ _ _ _ Hsa).
  destruct (decide (b ∈ list_to_set sa ∪ {[a]})) as [Hin|Hnin].
  - intros [= <-]. split; [|apply rtc_refl]. apply HA.
    rewrite elem_of_union, elem_of_list_to_set, elem_of_singleton in Hin. done.
  - rewrite (searchBase_bfsParents graph _ _ _ _ _ Hsb). intros [= Hfirst].
    apply firstIn_Some in Hfirst as [H1 H2]. split.
    + apply HA. rewrite elem_of_union, elem_of_list_to_set, elem_of_singleton in H2. done.
    + apply HB. by left.
Qed.

(** ** getCommitsBetween *)

Lemma visitIncluded_shape excluded ps acc :
  exists new,
    betweenVisited (visitIncluded excluded ps acc) = list_to_set ps ∪ betweenVisited acc /\
    betweenQueue (visitIncluded excluded ps acc) = betweenQueue acc ++ new /\
    betweenResult (visitIncluded excluded ps acc) = betweenResult acc ++ new /\
    NoDup new /\
    (forall x, x ∈ new <-> x ∈ ps /\ (x ∉ betweenVisited acc) /\ x ∉ excluded).
Proof.
  revert acc. induction ps as [|p ps IH]; intros acc; simpl.
  - exists []. rewrite !app_nil_r. split; [set_solver|]. split; [done|]. split; [done|].
    split; [constructor|]. intros x. split; [by intros ?%elem_of_nil|].
    by intros [?%elem_of_nil _].
  - destruct (decide (p ∈ betweenVisited acc)) as [Hin|Hnin].
    + destruct (IH acc) as (new & E1 & E2 & E3 & Hnd & Hnew). exists new.
      rewrite E1, E2, E3. split; [set_solver|]. split; [done|]. split; [done|].
      split; [done|]. intros x. rewrite Hnew, elem_of_cons. naive_solver.
    + destruct (decide (p ∈ excluded)) as [Hex|Hnex].
      * edestruct IH as (new & E1 & E2 & E3 & Hnd & Hnew). exists new.
        rewrite E1, E2, E3. simpl. split; [set_solver|]. split; [done|]. split; [done|].
        split; [done|]. intros x. rewrite Hnew, elem_of_cons. simpl.
        rewrite elem_of_union, elem_of_singleton. naive_solver.
      * edestruct IH as (new & E1 & E2 & E3 & Hnd & Hnew). exists (p :: new).
        rewrite E1, E2, E3. simpl. split; [set_solver|].
        split; [by rewrite <- app_assoc|]. split; [by rewrite <- app_assoc|].
        split.
        -- constructor; [|done]. rewrite Hnew. simpl. set_solver.
        -- intros x. rewrite !elem_of_cons, Hnew. simpl.
           rewrite elem_of_union, elem_of_singleton.
           destruct (decide (x = p)) as [->|]; naive_solver.
Qed.

Lemma visitIncluded_measure excluded ps acc :
  (forall p, p ∈ ps -> p ∈ namedParents graph) ->
  (traversalMeasure graph (betweenVisited (visitIncluded excluded ps acc))
                    (betweenQueue (visitIncluded excluded ps acc))
   <= traversalMeasure graph (betweenVisited acc) (betweenQueue acc))%nat.
Proof.
  revert acc. induction ps as [|p ps IH]; intros acc Hps; simpl; [done|].
  assert (forall q, q ∈ ps -> q ∈ namedParents graph) as Hps'.
  { intros q Hq. apply Hps. by right. }
  assert (p ∈ namedParents graph) as Hp by (apply Hps; by left).
  destruct (decide (p ∈ betweenVisited acc)) as [Hin|Hnin]; [by apply IH|].
  assert (size (namedParents graph ∖ ({[p]} ∪ betweenVisited acc))
          < size (namedParents graph ∖ betweenVisited acc))%nat as Hlt.
  { apply subset_size. set_solver. }
  destruct (decide (p ∈ excluded)).
  - etrans; [apply IH; done|]. unfold traversalMeasure. simpl. lia.
  - etrans; [apply IH; done|]. unfold traversalMeasure. simpl. rewrite length_app. simpl. lia.
Qed.

Lemma collectBetween_total excluded fuel acc :
  (traversalMeasure graph (betweenVisited acc) (betweenQueue acc) <= fuel)%nat ->
  is_Some (collectBetween fuel graph excluded acc).
Proof.
  revert acc. induction fuel as [|fuel IH]; intros acc Hm.
  - destruct acc as [v [|c rest] r]; [by eexists|].
    unfold traversalMeasure in Hm. simpl in Hm. lia.
  - destruct acc as [v [|c rest] r]; [by eexists|]. simpl.
    apply IH. etrans; [apply visitIncluded_measure; apply parentsOf_named|].
    unfold traversalMeasure in *. simpl in *. lia.
Qed.

Lemma betweenInv_step includeRef excluded v c rest r :
  betweenInv graph includeRef excluded
    {| betweenVisited := v; betweenQueue := c :: rest; betweenResult := r |} ->
  betweenInv graph includeRef excluded
    (visitIncluded excluded (parentsOf graph c)
       {| betweenVisited := v; betweenQueue := rest; betweenResult := r |}).
Proof.
  intros (H1 & H2 & H3 & H4 & H5 & H6). simpl in *.
  destruct (visitIncluded_shape excluded (parentsOf graph c)
              {| betweenVisited := v; betweenQueue := rest; betweenResult := r |})
    as (new & E1 & E2 & E3 & Hnd & Hnew).
  unfold betweenInv. rewrite E1, E2, E3. simpl in *. clear E1 E2 E3.
  assert (reaches graph includeRef c) as Hc.
  { destruct (H2 c) as [->|Hr]; [by left|apply rtc_refl|]. by apply H3. }
  split; [|split; [|split; [|split; [|split]]]].
  - apply elem_of_union. by right.
  - intros x [Hx|Hx]%elem_of_app.
    + destruct (H2 x) as [->|Hr]; [by right|by left|]. right. apply elem_of_app. by left.
    + right. apply elem_of_app. by right.
  - intros x [Hx|Hx]%elem_of_app.
    + destruct (H3 x Hx) as (? & ? & ?). split; [|done]. apply elem_of_union. by right.
    + apply Hnew in Hx as (Hp & Hv & He). split; [|split; [done|]].
      * apply elem_of_union. left. by apply elem_of_list_to_set.
      * eapply rtc_r; [exact Hc|exact Hp].
  - intros x [Hx|Hx]%elem_of_union Hex.
    + apply elem_of_list_to_set in Hx. destruct (decide (x ∈ v)) as [Hv|Hv].
      * apply elem_of_app. left. by apply H4.
      * apply elem_of_app. right. by apply Hnew.
    + apply elem_of_app. left. by apply H4.
  - intros x Hx.
    assert (x ∈ new \/ x = includeRef \/ x ∈ r) as [Hn|Hold].
    { destruct Hx as [->|[Hx|Hx]%elem_of_app]; tauto. }
    + left. apply elem_of_app. by right.
    + destruct (H5 x Hold) as [[->|Hq]%elem_of_cons|Hcl].
      * right. intros p Hp. apply elem_of_union. left. by apply elem_of_list_to_set.
      * left. apply elem_of_app. by left.
      * right. intros p Hp. apply elem_of_union. right. by apply Hcl.
  - apply NoDup_app. split; [done|]. split; [|done].
    intros x Hx Hx'. apply Hnew in Hx' as (_ & Hv & _). apply Hv. by apply H3.
Qed.

Lemma collectBetween_inv includeRef excluded fuel acc found :
  betweenInv graph includeRef excluded acc ->
  collectBetween fuel graph excluded acc = Some found ->
  exists acc', betweenInv graph includeRef excluded acc' /\
               betweenQueue acc' = [] /\ betweenResult acc' = found.
Proof.
  revert acc. induction fuel as [|fuel IH]; intros [v q r] Hinv.
  - destruct q; [|done]. simpl. intros [= <-]. by eexists.
  - destruct q as [|c rest]; simpl.
    + intros [= <-]. by eexists.
    + apply IH. by apply betweenInv_step.
Qed.

(** X13. [getCommitsBetween] returns. It lists each hash once, namely the hashes
    reachable from [includeRef] and not reachable from [excludeRef]. *)
Theorem getCommitsBetween_spec (includeRef excludeRef : CommitHash) :
  exists found,
    getCommitsBetween graph includeRef excludeRef = Some found /\
    NoDup found /\
    forall x, x ∈ found <->
              reaches graph includeRef x /\ ~ reaches graph excludeRef x.
Proof.
  unfold getCommitsBetween.
  destruct (bfsParents_total graph (traversalFuel graph) {[excludeRef]} [excludeRef]
              (measure_start graph excludeRef)) as [se Hse].
  pose proof (collectAncestors_bfsParents graph _ _ _ _ Hse) as He. rewrite He.
  pose proof (collectAncestors_reaches graph excludeRef _ _ _ _
                (bfsInv_start graph excludeRef) He) as Hex.
  set (excluded := list_to_set se ∪ {[excludeRef]} : gset CommitHash) in *.
  set (acc0 := {| betweenVisited := {[includeRef]}; betweenQueue := [includeRef];
                  betweenResult := if decide (includeRef ∈ excluded) then []
                                   else [includeRef] |}).
  destruct (collectBetween_total excluded (traversalFuel graph) acc0
              (measure_start graph includeRef)) as [found Hfound].
  exists found. split; [exact Hfound|].
  assert (betweenInv graph includeRef excluded acc0) as Hinv0.
  { unfold betweenInv, acc0. simpl. split; [by apply elem_of_singleton|].
    split; [intros x Hx%list_elem_of_singleton; by left|].
    destruct (decide (includeRef ∈ excluded)) as [Hin|Hnin].
    - split; [by intros x ?%elem_of_nil|]. split.
      + intros x Hx%elem_of_singleton Hnx. by subst.
      + split; [|constructor]. intros x [->|?%elem_of_nil]; [|done]. left. by left.
    - split.
      + intros x Hx%list_elem_of_singleton. subst x.
        split; [by apply elem_of_singleton|]. split; [done|apply rtc_refl].
      + split; [intros x Hx%elem_of_singleton _; subst x; by left|].
        split; [|apply NoDup_singleton].
        intros x [->|Hx%list_elem_of_singleton]; [|subst x]; left; by left. }
  destruct (collectBetween_inv _ _ _ _ _ Hinv0 Hfound)
    as ([v q r] & (H1 & H2 & H3 & H4 & H5 & H6) & Hq & Hr).
  simpl in *. subst q r. split; [done|].
  intros x. split.
  - intros Hx. destruct (H3 x Hx) as (_ & Hnex & Hreach). split; [done|].
    intros Hr. apply Hnex. by apply Hex.
  - intros [Hreach Hnot]. revert x Hreach Hnot. apply (rtc_ind_r (fun x => _ -> x ∈ found)).
    + intros Hnot. apply H4; [done|]. intros Hin. apply Hnot. by apply Hex.
    + intros y z Hy Hyz IH Hnot.
      assert (y ∈ found) as Hyf.
      { apply IH. intros Hr. apply Hnot. eapply rtc_r; [exact Hr|exact Hyz]. }
      destruct (H5 y (or_intror Hyf)) as [?%elem_of_nil|Hcl]; [done|].
      apply H4; [by apply Hcl|]. intros Hin. apply Hnot. by apply Hex.
Qed.

End Ancestry.

(** ** Statistics *)

Lemma elem_of_snoc {A} (l : list A) (x y : A) : x ∈ l ++ [y] <-> x ∈ l \/ x = y.
Proof. by rewrite elem_of_app, list_elem_of_singleton. Qed.

Lemma countCommits_snoc cs c : countCommits (cs ++ [c]) = countCommit (countCommits cs) c.
Proof. unfold countCommits. by rewrite foldl_snoc. Qed.

Lemma countCommits_merges cs :
  loopMerges (countCommits cs)
  = length (filter (fun c => (1 < length (parents c))%nat) cs).
Proof.
  induction cs as [|c cs IH] using rev_ind; [done|].
  rewrite countCommits_snoc, filter_app, length_app, <- IH. cbn [countCommit loopMerges].
  rewrite filter_cons, filter_nil.
  destruct (Nat.ltb_spec 1 (length (parents c))) as [H|H];
    destruct (decide (1 < length (parents c))%nat); simpl; lia.
Qed.

Lemma countCommits_maxParents cs :
  (forall c, c ∈ cs -> (length (parents c) <= loopMaxParents (countCommits cs))%nat) /\
  (loopMaxParents (countCommits cs) = 0%nat \/
   exists c, c ∈ cs /\ length (parents c) = loopMaxParents (countCommits cs)).
Proof.
  induction cs as [|c cs [IH1 IH2]] using rev_ind.
  - split; [by intros c ?%elem_of_nil|by left].
  - rewrite countCommits_snoc. cbn [countCommit loopMaxParents].
    destruct (Nat.ltb_spec (loopMaxParents (countCommits cs)) (length (parents c))) as [H|H].
    + split.
      * intros c' [Hc'| ->]%elem_of_snoc; [|done].
        specialize (IH1 c' Hc'). lia.
      * right. exists c. split; [|done]. apply elem_of_app. right. by apply list_elem_of_singleton.
    + split.
      * intros c' [Hc'| ->]%elem_of_snoc; [by apply IH1|done].
      * destruct IH2 as [?|(c' & Hc' & ?)]; [by left|]. right. exists c'.
        split; [|done]. apply elem_of_app. by left.
Qed.

Lemma countCommits_oldest cs :
  match loopOldest (countCommits cs) with
  | None => cs = []
  | Some d => (exists c, c ∈ cs /\ committedAt c = d) /\
              forall c, c ∈ cs -> d <= committedAt c
  end.
Proof.
  induction cs as [|c cs IH] using rev_ind; [done|].
  rewrite countCommits_snoc. cbn [countCommit loopOldest].
  destruct (loopOldest (countCommits cs)) as [oldest|].
  - destruct IH as [(c0 & Hc0 & E0) IH].
    destruct (Z.ltb_spec (committedAt c) oldest) as [H|H].
    + split.
      * exists c. split; [|done]. apply elem_of_app. right. by apply list_elem_of_singleton.
      * intros c' [Hc'| ->]%elem_of_snoc; [|lia].
        specialize (IH c' Hc'). lia.
    + split.
      * exists c0. split; [|done]. apply elem_of_app. by left.
      * intros c' [Hc'| ->]%elem_of_snoc; [by apply IH|lia].
  - subst cs. split.
    + exists c. split; [|done]. by apply list_elem_of_singleton.
    + intros c' Hc'. apply list_elem_of_singleton in Hc' as ->. lia.
Qed.

Lemma countCommits_newest cs :
  match loopNewest (countCommits cs) with
  | None => cs = []
  | Some d => (exists c, c ∈ cs /\ committedAt c = d) /\
              forall c, c ∈ cs -> committedAt c <= d
  end.
Proof.
  induction cs as [|c cs IH] using rev_ind; [done|].
  rewrite countCommits_snoc. cbn [countCommit loopNewest].
  destruct (loopNewest (countCommits cs)) as [newest|].
  - destruct IH as [(c0 & Hc0 & E0) IH].
    destruct (Z.ltb_spec newest (committedAt c)) as [H|H].
    + split.
      * exists c. split; [|done]. apply elem_of_app. right. by apply list_elem_of_singleton.
      * intros c' [Hc'| ->]%elem_of_snoc; [|lia].
        specialize (IH c' Hc'). lia.
    + split.
      * exists c0. split; [|done]. apply elem_of_app. by left.
      * intros c' [Hc'| ->]%elem_of_snoc; [by apply IH|lia].
  - subst cs. split.
    + exists c. split; [|done]. by apply list_elem_of_singleton.
    + intros c' Hc'. apply list_elem_of_singleton in Hc' as ->. lia.
Qed.

(** The loop of [getGraphStats] gives the same four values in whatever order
    it visits the commits. *)
Lemma countCommits_Permutation cs1 cs2 :
  cs1 ≡ₚ cs2 -> countCommits cs1 = countCommits cs2.
Proof.
  intros Hp.
  assert (forall c, c ∈ cs1 <-> c ∈ cs2) as Hin by (intros c; by rewrite Hp).
  pose proof (countCommits_merges cs1) as M1. pose proof (countCommits_merges cs2) as M2.
  pose proof (countCommits_maxParents cs1) as [A1 B1].
  pose proof (countCommits_maxParents cs2) as [A2 B2].
  pose proof (countCommits_oldest cs1) as O1. pose proof (countCommits_oldest cs2) as O2.
  pose proof (countCommits_newest cs1) as N1. pose proof (countCommits_newest cs2) as N2.
  assert (length (filter (fun c => (1 < length (parents c))%nat) cs1)
          = length (filter (fun c => (1 < length (parents c))%nat) cs2)) as Hlen
    by (by rewrite Hp).
  destruct (countCommits cs1) as [m1 x1 o1 n1], (countCommits cs2) as [m2 x2 o2 n2].
  cbn [loopMerges loopMaxParents loopOldest loopNewest] in *.
  f_equal.
  - congruence.
  - apply Nat.le_antisymm.
    + destruct B1 as [->|(c & Hc & <-)]; [lia|]. apply A2. by apply Hin.
    + destruct B2 as [->|(c & Hc & <-)]; [lia|]. apply A1. by apply Hin.
  - destruct o1 as [d1|], o2 as [d2|].
    + destruct O1 as [(c1 & Hc1 & <-) L1], O2 as [(c2 & Hc2 & <-) L2].
      f_equal. apply Z.le_antisymm; [apply L1; by apply Hin|apply L2; by apply Hin].
    + subst cs2. destruct O1 as [(c1 & Hc1 & _) _]. apply Hin in Hc1. by apply elem_of_nil in Hc1.
    + subst cs1. destruct O2 as [(c2 & Hc2 & _) _]. apply Hin in Hc2. by apply elem_of_nil in Hc2.
    + done.
  - destruct n1 as [d1|], n2 as [d2|].
    + destruct N1 as [(c1 & Hc1 & <-) L1], N2 as [(c2 & Hc2 & <-) L2].
      f_equal. apply Z.le_antisymm; [apply L2; by apply Hin|apply L1; by apply Hin].
    + subst cs2. destruct N1 as [(c1 & Hc1 & _) _]. apply Hin in Hc1. by apply elem_of_nil in Hc1.
    + subst cs1. destruct N2 as [(c2 & Hc2 & _) _]. apply Hin in Hc2. by apply elem_of_nil in Hc2.
    + done.
Qed.

Lemma elem_of_values (m : gmap CommitHash Commit) (c : Commit) :
  c ∈ (map_to_list m).*2 <-> exists h, m !! h = Some c.
Proof.
  rewrite list_elem_of_fmap. split.
  - intros ([h c'] & -> & Hin%elem_of_map_to_list). by exists h.
  - intros (h & Hh). exists (h, c). split; [done|]. by apply elem_of_map_to_list.
Qed.

(** X14. [getGraphStats]: the counts do not depend on the order in which the
    loop visits the commits; every ref is counted once, as a branch or as a
    tag; [mergeCommits] counts the commits with more than one parent;
    [maxParents] is the largest number of parents (0 without commits);
    [oldestCommit] and [newestCommit] are the least and the greatest commit
    date, [None] exactly for a graph without commits. *)
Theorem getGraphStats_spec (graph : RepositoryGraph) :
  (forall visited, visited ≡ₚ (map_to_list (commits graph)).*2 ->
                   countCommits visited = countCommits (map_to_list (commits graph)).*2) /\
  (totalBranches (getGraphStats graph) + totalTags (getGraphStats graph)
   = length (refs graph))%nat /\
  mergeCommits (getGraphStats graph)
  = length (filter (fun c => (1 < length (parents c))%nat)
                   (map_to_list (commits graph)).*2) /\
  (forall h c, commits graph !! h = Some c ->
               (length (parents c) <= maxParents (getGraphStats graph))%nat) /\
  (maxParents (getGraphStats graph) = 0%nat \/
   exists h c, commits graph !! h = Some c /\
               length (parents c) = maxParents (getGraphStats graph)) /\
  (oldestCommit (getGraphStats graph) = None <-> commits graph = ∅) /\
  (newestCommit (getGraphStats graph) = None <-> commits graph = ∅) /\
  (forall d, oldestCommit (getGraphStats graph) = Some d ->
             (exists h c, commits graph !! h = Some c /\ committedAt c = d) /\
             forall h c, commits graph !! h = Some c -> d <= committedAt c) /\
  (forall d, newestCommit (getGraphStats graph) = Some d ->
             (exists h c, commits graph !! h = Some c /\ committedAt c = d) /\
             forall h c, commits graph !! h = Some c -> committedAt c <= d).
Proof.
  unfold getGraphStats.
  cbn [totalBranches totalTags mergeCommits maxParents oldestCommit newestCommit].
  set (cs := (map_to_list (commits graph)).*2).
  assert (cs = [] <-> commits graph = ∅) as Hnil.
  { unfold cs. rewrite <- map_to_list_empty_iff.
    split; [apply fmap_nil_inv|by intros ->]. }
  split; [intros visited; apply countCommits_Permutation|].
  split.
  { induction (refs graph) as [|r rs IH]; [done|].
    rewrite !filter_cons.
    destruct (refType r) eqn:E;
      repeat (match goal with |- context [decide ?P] => destruct (decide P) end);
      simpl; try lia; exfalso; intuition congruence. }
  split.
  { apply countCommits_merges. }
  pose proof (countCommits_maxParents cs) as [A B].
  split; [intros h c Hc; apply A, elem_of_values; by exists h|].
  split.
  { destruct B as [?|(c & (h & Hh)%elem_of_values & ?)]; [by left|]. right. by exists h, c. }
  pose proof (countCommits_oldest cs) as O. pose proof (countCommits_newest cs) as N.
  split.
  { destruct (loopOldest _); [|by rewrite <- Hnil].
    split; [done|]. intros He%Hnil. rewrite He in O.
    destruct O as [(c & Hc & _) _]. by apply elem_of_nil in Hc. }
  split.
  { destruct (loopNewest _); [|by rewrite <- Hnil].
    split; [done|]. intros He%Hnil. rewrite He in N.
    destruct N as [(c & Hc & _) _]. by apply elem_of_nil in Hc. }
  split.
  - intros d Hd. rewrite Hd in O. destruct O as [(c & (h & Hh)%elem_of_values & E) L].
    split; [by exists h, c|]. intros h' c' Hc'. apply L, elem_of_values. by exists h'.
  - intros d Hd. rewrite Hd in N. destruct N as [(c & (h & Hh)%elem_of_values & E) L].
    split; [by exists h, c|]. intros h' c' Hc'. apply L, elem_of_values. by exists h'.
Qed.

(** ** Indices of buildGraph *)

Section Indices.
Context {K : Type} `{Countable K}.

Lemma foldl_insert_lookup {A V} (key : A -> K) (val : A -> V) (l : list A) (k : K) :
  foldl (fun m a => <[key a := val a]> m) (∅ : gmap K V) l !! k
  = val <$> last (filter (fun a => key a = k) l).
Proof.
  induction l as [|x l IH] using rev_ind; [done|].
  rewrite foldl_snoc, filter_app, filter_cons, filter_nil.
  destruct (decide (key x = k)) as [<-|Hne].
  - by rewrite lookup_insert_eq, last_snoc.
  - rewrite lookup_insert_ne by done. by rewrite app_nil_r.
Qed.

Lemma foldl_pushAt_lookup {V} (l : list (K * V)) (m : gmap K (list V)) (k : K) :
  default [] (foldl (fun m kv => pushAt kv.1 kv.2 m) m l !! k)
  = default [] (m !! k) ++ (filter (fun kv => kv.1 = k) l).*2.
Proof.
  induction l as [|[k' v] l IH] using rev_ind; [by rewrite app_nil_r|].
  rewrite foldl_snoc, filter_app, filter_cons, filter_nil, fmap_app. simpl.
  unfold pushAt at 1. destruct (decide (k' = k)) as [->|Hne].
  - rewrite lookup_insert_eq. simpl. by rewrite IH, app_assoc.
  - rewrite lookup_insert_ne by done. by rewrite IH, app_nil_r.
Qed.

Lemma foldl_pushAt_None {V} (l : list (K * V)) (k : K) :
  foldl (fun m kv => pushAt kv.1 kv.2 m) (∅ : gmap K (list V)) l !! k = None <->
  k ∉ l.*1.
Proof.
  induction l as [|[k' v] l IH] using rev_ind.
  - simpl. rewrite lookup_empty. split; [|done]. by intros _ ?%elem_of_nil.
  - rewrite foldl_snoc, fmap_app, elem_of_app. simpl. unfold pushAt at 1.
    destruct (decide (k' = k)) as [->|Hne].
    + rewrite lookup_insert_eq. split; [done|]. intros Hn. exfalso. apply Hn. right. by left.
    + rewrite lookup_insert_ne by done. rewrite IH. rewrite list_elem_of_singleton.
      naive_solver.
Qed.
End Indices.

Lemma foldl_bind {A B C} (f : C -> B -> C) (g : A -> list B) (l : list A) (c : C) :
  foldl (fun c a => foldl f c (g a)) c l = foldl f c (l ≫= g).
Proof.
  revert c. induction l as [|a l IH]; intros c; simpl; [done|].
  by rewrite foldl_app, IH.
Qed.

Lemma rootTest_spec (F : CommitHash -> bool) (ps : list CommitHash) :
  match ps with [] => true | q :: qs => negb (existsb F (q :: qs)) end = true <->
  forall p, p ∈ ps -> F p = false.
Proof.
  assert (negb (existsb F ps) = true <-> forall p, p ∈ ps -> F p = false) as Hgen.
  { rewrite negb_true_iff. split.
    - intros Hex p Hp. destruct (F p) eqn:E; [|done].
      rewrite <- Hex. symmetry. apply existsb_exists. exists p.
      split; [by apply list_elem_of_In|done].
    - intros Hall. apply not_true_is_false. intros (p & Hp & Hf)%existsb_exists.
      apply list_elem_of_In in Hp. rewrite (Hall p Hp) in Hf. done. }
  destruct ps as [|q qs]; [|exact Hgen].
  split; [|done]. by intros _ p ?%elem_of_nil.
Qed.

Section BuildGraph.
Context (commitList : list Commit) (refList : list GitRef)
        (headCommit : option CommitHash) (headRefName : option jsstring).

Local Abbreviation graph := (buildGraph commitList refList headCommit headRefName).

Lemma buildGraph_children_fold :
  children graph =
  foldl (fun m kv => pushAt kv.1 kv.2 m) ∅ (parentLinks commitList).
Proof.
  unfold buildGraph, parentLinks. simpl.
  rewrite <- (foldl_bind (fun m (kv : CommitHash * CommitHash) => pushAt kv.1 kv.2 m)).
  generalize (∅ : gmap CommitHash (list CommitHash)).
  induction commitList as [|c cs IH]; intros m; simpl; [done|].
  by rewrite IH, foldl_fmap.
Qed.

Lemma buildGraph_commits_last (h : CommitHash) :
  commits graph !! h = last (commitsWithHash commitList h).
Proof.
  unfold buildGraph, commitsWithHash. simpl.
  rewrite (foldl_insert_lookup hash id). by rewrite option_fmap_id.
Qed.

Lemma buildGraph_loaded (h : CommitHash) :
  is_Some (commits graph !! h) <-> h ∈ hash <$> commitList.
Proof.
  rewrite buildGraph_commits_last. unfold commitsWithHash. split.
  - intros [c Hc]. apply last_Some_elem_of, list_elem_of_filter in Hc as [<- Hc].
    apply list_elem_of_fmap. by exists c.
  - intros (c & -> & Hc)%list_elem_of_fmap.
    destruct (last (filter (fun commit => hash commit = hash c) commitList)) eqn:E; [done|].
    apply last_None in E.
    assert (c ∈ filter (fun commit => hash commit = hash c) commitList) as Hin
      by (by apply list_elem_of_filter).
    rewrite E in Hin. by apply elem_of_nil in Hin.
Qed.

(** X15. The commit stored for a hash is the last commit of the list that carries
    it, so a stored commit is a listed commit filed under its own hash, and
    a hash has an entry exactly when a listed commit carries it. *)
Theorem buildGraph_commits (h : CommitHash) :
  let built := buildGraph commitList refList headCommit headRefName in
  commits built !! h = last (commitsWithHash commitList h) /\
  (forall commit, commits built !! h = Some commit ->
                  commit ∈ commitList /\ hash commit = h) /\
  (is_Some (commits built !! h) <-> h ∈ hash <$> commitList).
Proof.
  split; [apply buildGraph_commits_last|]. split; [|apply buildGraph_loaded].
  intros commit. rewrite buildGraph_commits_last. unfold commitsWithHash.
  intros Hl. apply last_Some_elem_of, list_elem_of_filter in Hl. tauto.
Qed.

Lemma parentLinks_elem (q h : CommitHash) :
  (q, h) ∈ parentLinks commitList <->
  exists commit, commit ∈ commitList /\ hash commit = h /\ q ∈ parents commit.
Proof.
  unfold parentLinks. rewrite list_elem_of_bind. split.
  - intros (c & (q' & [= -> ->] & Hq)%list_elem_of_fmap & Hc). by exists c.
  - intros (c & Hc & <- & Hq). exists c. split; [|done].
    apply list_elem_of_fmap. by exists q.
Qed.

Lemma buildGraph_children_links (p : CommitHash) :
  childrenOf graph p = (filter (fun link => link.1 = p) (parentLinks commitList)).*2.
Proof.
  unfold childrenOf. rewrite buildGraph_children_fold, foldl_pushAt_lookup.
  by rewrite lookup_empty.
Qed.

Lemma buildGraph_children_elem (p h : CommitHash) :
  h ∈ childrenOf graph p <->
  exists commit, commit ∈ commitList /\ hash commit = h /\ p ∈ parents commit.
Proof.
  rewrite buildGraph_children_links, list_elem_of_fmap. split.
  - intros ([q h'] & -> & [Hq Hin]%list_elem_of_filter). simpl in *. subst q.
    by apply parentLinks_elem.
  - intros Hc. exists (p, h). split; [done|]. apply list_elem_of_filter.
    split; [done|]. by apply parentLinks_elem.
Qed.

(** X16. The child index is the inverse of the parent lists: the children of [p]
    are the hashes of the listed commits that name [p] as a parent, in list
    order, one entry for each time [p] is named; a hash that no commit names
    has no entry. *)
Theorem buildGraph_children (p : CommitHash) :
  let built := buildGraph commitList refList headCommit headRefName in
  childrenOf built p = (filter (fun link => link.1 = p) (parentLinks commitList)).*2 /\
  (forall h, h ∈ childrenOf built p <->
             exists commit, commit ∈ commitList /\ hash commit = h /\ p ∈ parents commit) /\
  (children built !! p = None <->
   forall commit, commit ∈ commitList -> p ∉ parents commit).
Proof.
  split; [apply buildGraph_children_links|]. split; [intros h; apply buildGraph_children_elem|].
  rewrite buildGraph_children_fold, foldl_pushAt_None. split.
  - intros Hn c Hc Hp. apply Hn. apply list_elem_of_fmap. exists (p, hash c).
    split; [done|]. apply parentLinks_elem. by exists c.
  - intros Hn ([q h] & -> & Hin)%list_elem_of_fmap. simpl in *.
    apply parentLinks_elem in Hin as (c & Hc & _ & Hp). by apply (Hn c).
Qed.

Lemma buildGraph_refsByCommit (h : CommitHash) :
  default [] (refsByCommit graph !! h) = filter (fun ref => commitHash ref = h) refList.
Proof.
  unfold buildGraph. simpl.
  assert (forall m : gmap CommitHash (list GitRef),
            foldl (fun m ref => pushAt (commitHash ref) ref m) m refList
            = foldl (fun m kv => pushAt kv.1 kv.2 m) m
                    ((fun ref => (commitHash ref, ref)) <$> refList)) as ->
    by (intros m; by rewrite foldl_fmap).
  rewrite foldl_pushAt_lookup, lookup_empty. simpl.
  induction refList as [|r rs IH]; [done|].
  rewrite fmap_cons, !filter_cons. simpl.
  destruct (decide (commitHash r = h)); [rewrite fmap_cons; simpl|]; by rewrite IH.
Qed.

Lemma buildGraph_commitsByRef (n : jsstring) :
  commitsByRef graph !! n
  = commitHash <$> last (filter (fun ref => refName ref = n \/ fullName ref = n) refList).
Proof.
  unfold buildGraph. simpl.
  induction refList as [|r rs IH] using rev_ind; [done|].
  rewrite foldl_snoc, filter_app, filter_cons, filter_nil.
  destruct (decide (fullName r = n)) as [Hf|Hf].
  - rewrite Hf, lookup_insert_eq, decide_True by (by right). by rewrite last_snoc.
  - rewrite lookup_insert_ne by done. destruct (decide (refName r = n)) as [Hn|Hn].
    + rewrite Hn, lookup_insert_eq, decide_True by (by left). by rewrite last_snoc.
    + rewrite lookup_insert_ne by done. rewrite decide_False by tauto.
      by rewrite app_nil_r.
Qed.

(** X17. The two ref indices of [buildGraph]. The refs recorded for a commit are
    the refs of the list that point at it, in list order. A name or full
    name resolves to the commit of the last ref of the list that carries it
    as its name or as its full name, so every listed ref can be looked up by
    either and a later ref hides an earlier one of the same name. *)
Theorem buildGraph_ref_indices :
  let built := buildGraph commitList refList headCommit headRefName in
  (forall h, default [] (refsByCommit built !! h)
             = filter (fun ref => commitHash ref = h) refList) /\
  (forall n, commitsByRef built !! n
             = commitHash <$> last (filter (fun ref => refName ref = n \/ fullName ref = n)
                                           refList)) /\
  (forall ref, ref ∈ refList ->
               is_Some (commitsByRef built !! refName ref) /\
               is_Some (commitsByRef built !! fullName ref)).
Proof.
  split; [apply buildGraph_refsByCommit|]. split; [apply buildGraph_commitsByRef|].
  intros ref Hin.
  assert (forall n, refName ref = n \/ fullName ref = n ->
                    is_Some (commitsByRef graph !! n)) as Hsome.
  { intros n Hn. rewrite buildGraph_commitsByRef.
    destruct (last (filter (fun ref => refName ref = n \/ fullName ref = n) refList))
      eqn:E; [done|].
    apply last_None in E.
    assert (ref ∈ filter (fun ref => refName ref = n \/ fullName ref = n) refList) as Hf
      by (by apply list_elem_of_filter).
    rewrite E in Hf. by apply elem_of_nil in Hf. }
  split; apply Hsome; tauto.
Qed.

(** X18. A hash is listed as a root exactly when some listed commit carries it
    and has no parent that is the hash of a listed commit. *)
Theorem buildGraph_roots (h : CommitHash) :
  h ∈ roots (buildGraph commitList refList headCommit headRefName) <->
  exists commit, commit ∈ commitList /\ hash commit = h /\
                 forall p, p ∈ parents commit -> p ∉ hash <$> commitList.
Proof.
  pose proof buildGraph_loaded as Hloaded.
  unfold buildGraph at 1. cbv zeta. cbn [roots]. rewrite list_elem_of_fmap. split.
  - intros (c & -> & Hc). apply list_elem_of_In, filter_In in Hc as [Hc Hroot].
    apply list_elem_of_In in Hc. exists c. split; [done|]. split; [done|].
    intros p Hp Hin. apply Hloaded in Hin.
    apply rootTest_spec with (p := p) in Hroot; [|done].
    apply bool_decide_eq_false in Hroot. by apply Hroot.
  - intros (c & Hc & <- & Hnone). exists c. split; [done|].
    apply list_elem_of_In, filter_In. split; [by apply list_elem_of_In|].
    apply rootTest_spec. intros p Hp. apply bool_decide_eq_false.
    intros Hl. apply (Hnone p Hp). by apply Hloaded.
Qed.

End BuildGraph.

(** ** From the parser to the graph *)

Lemma nsteps_reverse {A} (R : relation A) n x y :
  nsteps R n x y -> nsteps (fun a b => R b a) n y x.
Proof.
  induction 1 as [|n x y z Hxy _ IH]; [constructor|].
  eapply nsteps_r; [exact IH|exact Hxy].
Qed.

Lemma nsteps_impl {A} (R R' : relation A) n x y :
  (forall a b, R a b -> R' a b) -> nsteps R n x y -> nsteps R' n x y.
Proof.
  intros Himpl. induction 1 as [|n x y z Hxy _ IH]; [constructor|].
  econstructor; [apply Himpl; exact Hxy|exact IH].
Qed.

Section Loaded.
Context (commitList : list Commit) (refList : list GitRef)
        (headCommit : option CommitHash) (headRefName : option jsstring).

Local Abbreviation graph := (buildGraph commitList refList headCommit headRefName).

Lemma buildGraph_commits_NoDup h commit :
  NoDup (hash <$> commitList) ->
  commits graph !! h = Some commit <-> commit ∈ commitList /\ hash commit = h.
Proof.
  intros Hnd. rewrite buildGraph_commits_last. unfold commitsWithHash. split.
  - intros Hl. apply last_Some_elem_of, list_elem_of_filter in Hl. tauto.
  - intros [Hin Hh].
    destruct (last (filter (fun c => hash c = h) commitList)) as [c|] eqn:E.
    + f_equal. apply last_Some_elem_of, list_elem_of_filter in E as [Hc Hcin].
      apply list_elem_of_lookup in Hin as [i Hi]. apply list_elem_of_lookup in Hcin as [j Hj].
      assert (i = j) as ->; [|congruence].
      apply (NoDup_lookup _ _ _ h Hnd); rewrite list_lookup_fmap.
      * by rewrite Hi; simpl; rewrite Hh.
      * by rewrite Hj; simpl; rewrite Hc.
    + apply last_None in E.
      assert (commit ∈ filter (fun c => hash c = h) commitList) as Hf
        by (by apply list_elem_of_filter).
      rewrite E in Hf. by apply elem_of_nil in Hf.
Qed.

(** When no two listed commits share a hash, the child index and the parent
    lists describe the same relation. *)
Lemma buildGraph_child_parent p h :
  NoDup (hash <$> commitList) ->
  h ∈ childrenOf graph p <-> parentOf graph h p.
Proof.
  intros Hnd.
  rewrite buildGraph_children_elem.
  unfold parentOf, parentsOf. split.
  - intros (c & Hc & Hh & Hp).
    by rewrite (proj2 (buildGraph_commits_NoDup h c Hnd) (conj Hc Hh)).
  - destruct (commits graph !! h) as [c|] eqn:E; [|by intros ?%elem_of_nil].
    apply buildGraph_commits_NoDup in E as [Hc Hh]; [|done]. intros Hp. by exists c.
Qed.

(** X19. In a graph built from commits with distinct hashes, [y] is listed among
    the descendants of [x] exactly when [x] is listed among the ancestors of
    [y], for the same depth bound. *)
Theorem buildGraph_descendants_ancestors x y maxDepth descendants ancestors :
  NoDup (hash <$> commitList) ->
  getDescendants (buildGraph commitList refList headCommit headRefName) x maxDepth
    = Some descendants ->
  getAncestors (buildGraph commitList refList headCommit headRefName) y maxDepth
    = Some ancestors ->
  y ∈ descendants <-> x ∈ ancestors.
Proof.
  intros Hnd Hd Ha.
  destruct (walkToDepth_spec (childrenOf graph) (namedChildren graph)
              (childrenOf_named graph) maxDepth x) as (ds & Hds & _ & Hdesc & _).
  destruct (walkToDepth_spec (parentsOf graph) (namedParents graph)
              (parentsOf_named graph) maxDepth y) as (as' & Has & _ & Hanc & _).
  rewrite getAncestors_walk in Ha. unfold getDescendants in Hd.
  assert (Some ds = Some descendants) as [= ->].
  { rewrite <- Hds, <- Hd. by destruct (enqueueAtDepth (childrenOf graph x) 1 ∅ []). }
  assert (Some as' = Some ancestors) as [= ->] by (rewrite <- Has, <- Ha; reflexivity).
  rewrite Hdesc, Hanc. unfold withinDepth.
  assert (forall n a b, nsteps (fun a b => b ∈ childrenOf graph a) n a b <->
                        nsteps (fun a b => b ∈ parentsOf graph a) n b a) as Hrev.
  { intros n a b. split; intros Hs; apply nsteps_reverse in Hs;
      (eapply nsteps_impl; [|exact Hs]); intros u v Huv; simpl in *.
    - by apply buildGraph_child_parent.
    - by apply buildGraph_child_parent. }
  split; intros (n & Hn & Hdeep & Hs); exists n; (split; [done|split; [done|]]);
    by apply Hrev.
Qed.

(** A graph built from commits with distinct commit hashes whose parents are
    commit hashes is valid: its topological order lists each commit once and
    every hash in it is 40 lowercase hexadecimal digits. *)
Lemma buildGraph_valid :
  NoDup (hash <$> commitList) ->
  Forall (fun commit =>
            isCommitHash (hash commit) = true /\
            Forall (fun p => isCommitHash p = true) (parents commit)) commitList ->
  validGraph graph.
Proof.
  intros Hnd Hall. unfold validGraph. split; [done|]. split.
  - unfold buildGraph. simpl. apply Forall_fmap.
    eapply Forall_impl; [exact Hall|]. by intros c [? _].
  - intros h c Hc. apply buildGraph_commits_NoDup in Hc as [Hc _]; [|done].
    by destruct (proj1 (Forall_forall _ _) Hall c Hc).
Qed.

End Loaded.

(** X20. The graph built from what [parseCommits] returns is valid as soon as the
    log lists no hash twice. *)
Theorem parsed_graph_valid dateTime raw refList headCommit headRefName :
  NoDup (hash <$> Parser.commits (Parser.parseCommits dateTime raw)) ->
  validGraph (buildGraph (Parser.commits (Parser.parseCommits dateTime raw))
                         refList headCommit headRefName).
Proof.
  intros Hnd. apply buildGraph_valid; [done|].
  apply Forall_forall. intros commit. apply parsedCommits_hashes.
Qed.

(** ** Edge paths *)

(** X25. The path of an edge starts at the edge's source position and ends at its
    target position, has 2 points when the edge stays in its lane and 3 or 4
    otherwise, stays within the rows and lanes the edge spans, and each of its
    segments is horizontal or vertical. *)
Theorem getEdgePath_spec (edge : VisualEdge) :
  head (getEdgePath edge) = Some {| pointRow := fromRow edge; pointLane := fromLane edge |} /\
  last (getEdgePath edge) = Some {| pointRow := toRow edge; pointLane := toLane edge |} /\
  (2 <= length (getEdgePath edge) <= 4)%nat /\
  (length (getEdgePath edge) = 2%nat <-> fromLane edge = toLane edge) /\
  Forall (fun p =>
            Z.min (fromRow edge) (toRow edge) <= pointRow p <= Z.max (fromRow edge) (toRow edge) /\
            (pointLane p = fromLane edge \/ pointLane p = toLane edge))
         (getEdgePath edge) /\
  (forall i p q, getEdgePath edge !! i = Some p -> getEdgePath edge !! S i = Some q ->
                 axisAligned p q).
Proof.
  unfold getEdgePath.
  assert (Z.min (fromRow edge) (toRow edge) <= (fromRow edge + toRow edge) / 2
          <= Z.max (fromRow edge) (toRow edge)) as Hmid.
  { split.
    - apply Z.div_le_lower_bound; lia.
    - apply Z.div_le_upper_bound; lia. }
  destruct (decide (fromLane edge = toLane edge)) as [Heq|Hne].
  - rewrite bool_decide_eq_false_2 by tauto. simpl.
    split; [done|]. split; [done|]. split; [lia|]. split; [done|]. split.
    + repeat constructor; simpl; lia.
    + intros [|[|i]] p q; simpl; try done. intros [= <-] [= <-]. right. done.
  - rewrite bool_decide_eq_true_2 by done.
    destruct (edgeType edge); simpl.
    + split; [done|]. split; [done|]. split; [lia|]. split; [split; [done|tauto]|]. split.
      * repeat constructor; simpl; lia.
      * intros [|[|[|[|i]]]] p q; simpl; try done; intros [= <-] [= <-];
          unfold axisAligned; simpl; tauto.
    + split; [done|]. split; [done|]. split; [lia|]. split; [split; [done|tauto]|]. split.
      * repeat constructor; simpl; lia.
      * intros [|[|[|i]]] p q; simpl; try done; intros [= <-] [= <-];
          unfold axisAligned; simpl; tauto.
    + split; [done|]. split; [done|]. split; [lia|]. split; [split; [done|tauto]|]. split.
      * repeat constructor; simpl; lia.
      * intros [|[|[|[|i]]]] p q; simpl; try done; intros [= <-] [= <-];
          unfold axisAligned; simpl; tauto.
Qed.

(** ** Crossings *)

Lemma edgesCross_sym e1 e2 : edgesCross e1 e2 = edgesCross e2 e1.
Proof.
  unfold edgesCross.
  rewrite (orb_comm (Z.max (fromRow e1) (toRow e1) <=? Z.min (fromRow e2) (toRow e2))).
  destruct (_ || _); [done|].
  rewrite (orb_comm (toLane e1 - fromLane e1 =? 0)).
  destruct (_ || _); [done|].
  rewrite (orb_comm (Z.max (fromLane e1) (toLane e1) <=? Z.min (fromLane e2) (toLane e2))).
  destruct (_ || _); [done|].
  by destruct (0 <? toLane e1 - fromLane e1), (0 <? toLane e2 - fromLane e2).
Qed.

Lemma edgesCross_irrefl e : edgesCross e e = false.
Proof.
  unfold edgesCross. destruct (_ || _); [done|]. destruct (_ || _); [done|].
  destruct (_ || _); [done|]. by destruct (0 <? toLane e - fromLane e).
Qed.

Lemma length_filter_Permutation {A} (f : A -> bool) (l1 l2 : list A) :
  l1 ≡ₚ l2 -> length (List.filter f l1) = length (List.filter f l2).
Proof.
  induction 1 as [|x l1 l2 _ IH|x y l|l1 l2 l3 _ IH1 _ IH2]; simpl.
  - done.
  - destruct (f x); simpl; by rewrite IH.
  - by destruct (f x), (f y).
  - by rewrite IH1.
Qed.

Lemma countCrossings_Permutation_aux l1 l2 :
  l1 ≡ₚ l2 -> countCrossings l1 = countCrossings l2.
Proof.
  induction 1 as [|x l1 l2 Hp IH|x y l|l1 l2 l3 _ IH1 _ IH2]; simpl.
  - done.
  - by rewrite IH, (length_filter_Permutation _ _ _ Hp).
  - rewrite (edgesCross_sym y x). destruct (edgesCross x y); simpl; lia.
  - by rewrite IH1.
Qed.

(** X26. The number of crossings does not depend on the order in which the edges
    are listed; an edge never crosses itself, and it crosses another edge
    exactly when that edge crosses it. *)
Theorem countCrossings_Permutation (es1 es2 : list VisualEdge) :
  es1 ≡ₚ es2 ->
  countCrossings es1 = countCrossings es2 /\
  (forall e1 e2, edgesCross e1 e2 = edgesCross e2 e1) /\
  (forall e, edgesCross e e = false).
Proof.
  intros Hp. split; [by apply countCrossings_Permutation_aux|].
  split; [apply edgesCross_sym|apply edgesCross_irrefl].
Qed.

(** ** Lane optimisation *)

Lemma identityMapping_spec lanes k v :
  identityMapping lanes !! k = Some v <-> v = k /\ 0 <= k < lanes.
Proof.
  unfold identityMapping.
  assert (forall (ls : list Z) (m : gmap Z Z),
            foldl (fun m i => <[i := i]> m) m ls !! k = Some v <->
            (k ∈ ls /\ v = k) \/ ((k ∉ ls) /\ m !! k = Some v)) as Hfold.
  { induction ls as [|i ls IH]; intros m; simpl.
    - split; [intros ?; right; split; [by intros ?%elem_of_nil|done]|].
      intros [[?%elem_of_nil _]|[_ ?]]; done.
    - rewrite IH, elem_of_cons. destruct (decide (k = i)) as [->|Hne].
      + rewrite lookup_insert_eq. split.
        * intros [[? ->]|[? [= <-]]]; left; tauto.
        * intros [[_ ->]|[Hn _]]; [|tauto].
          destruct (decide (i ∈ ls)); [left; tauto|right; tauto].
      + rewrite lookup_insert_ne by done. split.
        * intros [[? ->]|[? ?]]; [left; tauto|right; split; [|done]]. tauto.
        * intros [[[?|?] ->]|[Hn ?]]; [done|left; tauto|right; split; [tauto|done]]. }
  rewrite Hfold, elem_of_seqZ, lookup_empty. split.
  - intros [[? ->]|[_ ?]]; [|done]. split; [done|lia].
  - intros [-> ?]. left. split; [lia|done].
Qed.

Lemma lanePermutation_identity lanes : lanePermutation lanes (identityMapping lanes).
Proof.
  split; [|split].
  - intros k Hk. exists k. split; [|done]. by apply identityMapping_spec.
  - intros k v [_ ?]%identityMapping_spec. done.
  - intros k1 k2 v [-> _]%identityMapping_spec [-> _]%identityMapping_spec. done.
Qed.

Lemma lanePermutation_swap lanes mapping l :
  lanePermutation lanes mapping -> 0 <= l -> l + 1 < lanes ->
  lanePermutation lanes
    (<[l + 1 := default 0 (mapping !! l)]> (<[l := default 0 (mapping !! (l + 1))]> mapping)).
Proof.
  intros (Hdom & Hkeys & Hinj) Hl Hl1.
  destruct (Hdom l) as (a & Ha & Hra); [lia|].
  destruct (Hdom (l + 1)) as (b & Hb & Hrb); [lia|].
  rewrite Ha, Hb. simpl.
  assert (forall k v,
            (<[l + 1 := a]> (<[l := b]> mapping)) !! k = Some v <->
            (k = l + 1 /\ v = a) \/ (k = l /\ v = b) \/
            (k <> l + 1 /\ k <> l /\ mapping !! k = Some v)) as Hlook.
  { intros k v. destruct (decide (k = l + 1)) as [->|H1].
    - rewrite lookup_insert_eq. split; [intros [= <-]; tauto|].
      intros [[_ ->]|[[? _]|[? _]]]; [done|lia|done].
    - rewrite lookup_insert_ne by done. destruct (decide (k = l)) as [->|H2].
      + rewrite lookup_insert_eq. split; [intros [= <-]; tauto|].
        intros [[? _]|[[_ ->]|[_ [? _]]]]; [lia|done|done].
      + rewrite lookup_insert_ne by done. split; [tauto|].
        intros [[? _]|[[? _]|[_ [_ ?]]]]; [done|done|done]. }
  split; [|split].
  - intros k Hk. destruct (decide (k = l + 1)) as [->|H1].
    { exists a. split; [apply Hlook; tauto|done]. }
    destruct (decide (k = l)) as [->|H2].
    { exists b. split; [apply Hlook; tauto|done]. }
    destruct (Hdom k Hk) as (v & Hv & Hr). exists v. split; [apply Hlook; tauto|done].
  - intros k v [[-> _]|[[-> _]|(_ & _ & Hk)]]%Hlook; [lia|lia|by apply (Hkeys k v)].
  - intros k1 k2 v [[-> ->]|[[-> ->]|(N1 & N2 & Hk1)]]%Hlook
                   [[-> E]|[[-> E]|(M1 & M2 & Hk2)]]%Hlook; try done.
    + subst. pose proof (Hinj _ _ _ Ha Hb). lia.
    + pose proof (Hinj _ _ _ Ha Hk2). congruence.
    + subst. pose proof (Hinj _ _ _ Ha Hb). lia.
    + pose proof (Hinj _ _ _ Hb Hk2). congruence.
    + subst. pose proof (Hinj _ _ _ Ha Hk1). congruence.
    + subst. pose proof (Hinj _ _ _ Hb Hk1). congruence.
    + by apply (Hinj k1 k2 v).
Qed.

Lemma swapPass_permutation graph crossings mapping :
  lanePermutation (totalLanes graph) mapping ->
  lanePermutation (totalLanes graph) (laneMapping (swapPass graph crossings mapping)).
Proof.
  intros Hperm. unfold swapPass.
  assert (Forall (fun l => 0 <= l /\ l + 1 < totalLanes graph)
                 (seqZ 0 (totalLanes graph - 1))) as Hls.
  { apply Forall_forall. intros l Hl%elem_of_seqZ. lia. }
  revert Hls. generalize (seqZ 0 (totalLanes graph - 1)).
  assert (lanePermutation (totalLanes graph)
            (laneMapping {| laneMapping := mapping; improved := false |})) as Hacc by done.
  revert Hacc. generalize {| laneMapping := mapping; improved := false |}.
  intros acc Hacc ls. revert acc Hacc.
  induction ls as [|l ls IH]; intros acc Hacc Hls; simpl; [done|].
  apply Forall_cons in Hls as [[Hl Hl1] Hls]. apply IH; [|done].
  unfold trySwap. destruct (_ <? _)%nat; [|done]. simpl.
  by apply lanePermutation_swap.
Qed.

Lemma swapUntilStable_permutation fuel graph crossings mapping final :
  lanePermutation (totalLanes graph) mapping ->
  swapUntilStable fuel graph crossings mapping = Some final ->
  lanePermutation (totalLanes graph) final.
Proof.
  revert mapping. induction fuel as [|fuel IH]; intros mapping Hperm; [done|].
  simpl. pose proof (swapPass_permutation graph crossings mapping Hperm) as Hpass.
  destruct (improved (swapPass graph crossings mapping)).
  - by apply IH.
  - by intros [= <-].
Qed.

Lemma mapLane_permutation lanes mapping :
  lanePermutation lanes mapping ->
  (forall l1 l2, mapLane mapping l1 = mapLane mapping l2 -> l1 = l2) /\
  (forall l, 0 <= l < lanes <-> 0 <= mapLane mapping l < lanes).
Proof.
  intros (Hdom & Hkeys & Hinj).
  assert (forall l, 0 <= l < lanes <-> 0 <= mapLane mapping l < lanes) as Hrange.
  { intros l. unfold mapLane. destruct (mapping !! l) as [v|] eqn:E; simpl.
    - pose proof (Hkeys l v E). destruct (Hdom l) as (v' & Hv' & ?); [done|].
      assert (v' = v) as -> by congruence. tauto.
    - split; [|done]. intros Hl. destruct (Hdom l Hl) as (v & Hv & _). congruence. }
  split; [|exact Hrange].
  intros l1 l2 Heq. pose proof (Hrange l1) as R1. pose proof (Hrange l2) as R2.
  unfold mapLane in *.
  destruct (mapping !! l1) as [v1|] eqn:E1, (mapping !! l2) as [v2|] eqn:E2; simpl in *.
  - subst v2. by apply (Hinj l1 l2 v1).
  - subst v1. pose proof (Hkeys l1 l2 E1).
    destruct (Hdom l2) as (v & Hv & _); [tauto|congruence].
  - subst v2. pose proof (Hkeys l2 l1 E2).
    destruct (Hdom l1) as (v & Hv & _); [tauto|congruence].
  - done.
Qed.

Lemma remapCommit_identity lanes (c : VisualCommit) :
  remapCommit (identityMapping lanes) c = c.
Proof.
  destruct c as [h r l m t ro hd rf ids]. unfold remapCommit, mapLane. simpl. f_equal.
  destruct (identityMapping lanes !! l) as [v|] eqn:E; [|done].
  by apply identityMapping_spec in E as [-> _].
Qed.

Lemma remapEdge_identity lanes (e : VisualEdge) :
  remapEdge (identityMapping lanes) e = e.
Proof.
  destruct e as [id fh th fr fl tr tl ty pi]. unfold remapEdge, mapLane. simpl. f_equal.
  - destruct (identityMapping lanes !! fl) as [v|] eqn:E; [|done].
    by apply identityMapping_spec in E as [-> _].
  - destruct (identityMapping lanes !! tl) as [v|] eqn:E; [|done].
    by apply identityMapping_spec in E as [-> _].
Qed.

(** X27. A run of [optimizeLanes] that returns only renames lanes: the commits and
    edges of the output are those of the input with every lane sent through
    one mapping, all else unchanged; the mapping sends different lanes to
    different lanes and the lanes below [totalLanes] to lanes below
    [totalLanes]; the row and lane counts stay as they were. *)
Theorem optimizeLanes_relabels fuel graph graph' :
  optimizeLanes fuel graph = Some graph' ->
  exists mapping,
    (forall l1 l2, mapLane mapping l1 = mapLane mapping l2 -> l1 = l2) /\
    (forall l, 0 <= l < totalLanes graph <-> 0 <= mapLane mapping l < totalLanes graph) /\
    vgCommits graph' = remapCommit mapping <$> vgCommits graph /\
    edges graph' = remapEdge mapping <$> edges graph /\
    totalRows graph' = totalRows graph /\
    totalLanes graph' = totalLanes graph.
Proof.
  intros Hrun.
  assert (forall mapping, lanePermutation (totalLanes graph) mapping ->
            (forall l1 l2, mapLane mapping l1 = mapLane mapping l2 -> l1 = l2) /\
            (forall l, 0 <= l < totalLanes graph <-> 0 <= mapLane mapping l < totalLanes graph))
    as Hperm by (intros m; apply mapLane_permutation).
  assert (exists mapping,
            lanePermutation (totalLanes graph) mapping /\
            vgCommits graph = remapCommit mapping <$> vgCommits graph /\
            edges graph = remapEdge mapping <$> edges graph) as Hsame.
  { exists (identityMapping (totalLanes graph)). split; [apply lanePermutation_identity|].
    split.
    - rewrite <- (list_fmap_id (vgCommits graph)) at 1. apply list_fmap_ext.
      intros _ c _. by rewrite remapCommit_identity.
    - rewrite <- (list_fmap_id (edges graph)) at 1. apply list_fmap_ext.
      intros _ e _. by rewrite remapEdge_identity. }
  unfold optimizeLanes in Hrun.
  destruct (countCrossings (edges graph) =? 0)%nat.
  { injection Hrun as <-. destruct Hsame as (m & Hm & ? & ?). exists m.
    destruct (Hperm m Hm). done. }
  destruct (swapUntilStable fuel graph _ _) as [mapping|] eqn:Hloop; [|done].
  destruct (isIdentity mapping).
  { injection Hrun as <-. destruct Hsame as (m & Hm & ? & ?). exists m.
    destruct (Hperm m Hm). done. }
  injection Hrun as <-. exists mapping.
  destruct (Hperm mapping) as [? ?]; [|done].
  apply (swapUntilStable_permutation _ _ _ _ _ (lanePermutation_identity _) Hloop).
Qed.

(** ** Lanes and lookup tables of the layout *)

Lemma allocateLane_range state :
  lanesInRange state ->
  lanesInRange (allocateLane state).2 /\
  0 <= (allocateLane state).1 <= maxLane (allocateLane state).2 /\
  maxLane state <= maxLane (allocateLane state).2 /\
  laneByCommit (allocateLane state).2 = laneByCommit state.
Proof.
  intros (Hmax & Hfree & Hres). unfold allocateLane.
  destruct (freeLanes state) as [|f fs] eqn:Ef; simpl.
  - unfold lanesInRange. simpl.
    split; [|split; [lia|split; [lia|done]]].
    split; [lia|]. split; [constructor|].
    eapply map_Forall_impl; [exact Hres|]. simpl. intros. lia.
  - pose proof (merge_sort_Permutation Z.le (f :: fs)) as Hperm.
    fold (sortAscending (f :: fs)) in Hperm.
    destruct (sortAscending (f :: fs)) as [|s ss] eqn:Es.
    { apply Permutation_nil_l in Hperm. done. }
    assert (Forall (fun l => 0 <= l <= maxLane state) (s :: ss)) as Hs
      by (by rewrite Hperm).
    apply Forall_cons in Hs as [Hs Hss]. simpl.
    split; [|split; [lia|split; [lia|done]]].
    split; [done|]. split; [done|done].
Qed.

Lemma parentLaneOf_range state l index parentHash :
  lanesInRange state -> 0 <= l <= maxLane state ->
  lanesInRange (parentLaneOf state l index parentHash).2 /\
  0 <= (parentLaneOf state l index parentHash).1
    <= maxLane (parentLaneOf state l index parentHash).2 /\
  maxLane state <= maxLane (parentLaneOf state l index parentHash).2 /\
  laneByCommit state ⊆ laneByCommit (parentLaneOf state l index parentHash).2 /\
  laneByCommit (parentLaneOf state l index parentHash).2 !! parentHash
    = Some (parentLaneOf state l index parentHash).1.
Proof.
  intros Hinv Hl. unfold parentLaneOf.
  destruct (laneByCommit state !! parentHash) as [reserved|] eqn:E; simpl.
  - destruct Hinv as (Hmax & Hfree & Hres). pose proof (Hres _ _ E) as Hr. simpl in Hr.
    split; [done|]. split; [done|]. split; [lia|]. split; [done|done].
  - destruct (index =? 0)%nat; simpl.
    + destruct Hinv as (Hmax & Hfree & Hres). split; [|split; [done|split; [lia|split]]].
      * split; [done|]. split; [done|]. simpl. by apply map_Forall_insert_2.
      * by apply insert_subseteq.
      * by rewrite lookup_insert_eq.
    + destruct (allocateLane_range state Hinv) as (Hinv' & Hfresh & Hmono & Hsame).
      destruct (allocateLane state) as [fresh state'] eqn:Ea. simpl in *.
      destruct Hinv' as (Hmax & Hfree & Hres).
      split; [|split; [done|split; [lia|split]]].
      * split; [done|]. split; [done|]. simpl. by apply map_Forall_insert_2.
      * rewrite Hsame. apply insert_subseteq. done.
      * by rewrite lookup_insert_eq.
Qed.

Lemma foldl_insert_last {K V} `{Countable K} (key : V -> K) (l new : list V)
    (m : gmap K V) :
  (forall k, m !! k = last (filter (fun x => key x = k) l)) ->
  forall k, foldl (fun m x => <[key x := x]> m) m new !! k
            = last (filter (fun x => key x = k) (l ++ new)).
Proof.
  revert l m. induction new as [|x new IH]; intros l m Hm k; simpl.
  - by rewrite app_nil_r.
  - replace (l ++ x :: new) with ((l ++ [x]) ++ new) by (by rewrite <- app_assoc).
    apply IH. intros k'. rewrite filter_app, filter_cons, filter_nil.
    destruct (decide (key x = k')) as [<-|Hne].
    + by rewrite lookup_insert_eq, last_snoc.
    + rewrite lookup_insert_ne by done. by rewrite app_nil_r.
Qed.

(** The edges one commit adds. *)
Lemma linkParents_parts h r l n i ps acc :
  lanesInRange (loopState acc) -> 0 <= l <= maxLane (loopState acc) ->
  exists new,
    loopEdges (linkParents h r l n i ps acc) = loopEdges acc ++ new /\
    loopEdgeIds (linkParents h r l n i ps acc) = loopEdgeIds acc ++ (eid <$> new) /\
    loopEdgeById (linkParents h r l n i ps acc)
      = foldl (fun m e => <[eid e := e]> m) (loopEdgeById acc) new /\
    lanesInRange (loopState (linkParents h r l n i ps acc)) /\
    maxLane (loopState acc) <= maxLane (loopState (linkParents h r l n i ps acc)) /\
    laneByCommit (loopState acc) ⊆ laneByCommit (loopState (linkParents h r l n i ps acc)) /\
    Forall (fun e =>
              fromHash e = h /\ fromRow e = r /\ fromLane e = l /\
              0 <= toLane e <= maxLane (loopState (linkParents h r l n i ps acc)) /\
              laneByCommit (loopState (linkParents h r l n i ps acc)) !! toHash e
                = Some (toLane e)) new.
Proof.
  revert i acc. induction ps as [|p ps IH]; intros i acc Hinv Hl; simpl.
  - exists []. rewrite !app_nil_r. split; [done|]. split; [done|]. split; [done|].
    split; [done|]. split; [lia|]. split; [done|constructor].
  - destruct (parentLaneOf_range (loopState acc) l i p Hinv Hl)
      as (Hinv' & Hpl & Hmono & Hsub & Hlook).
    destruct (parentLaneOf (loopState acc) l i p) as [pl st] eqn:E. simpl in *.
    match goal with
    | |- context [linkParents h r l n (S i) ps ?acc'] =>
        destruct (IH (S i) acc') as (new & E1 & E2 & E3 & Hinv'' & Hmono' & Hsub' & Hnew);
          [done|simpl; lia|]
    end.
    simpl in *. exists (newEdge h r l n i p pl :: new).
    rewrite E1, E2, E3. simpl.
    split; [by rewrite <- app_assoc|]. split; [by rewrite <- app_assoc|].
    split; [done|]. split; [done|]. split; [lia|]. split; [by etrans|].
    constructor; [|done]. simpl.
    split; [done|]. split; [done|]. split; [done|]. split; [lia|].
    eapply lookup_weaken; [exact Hlook|exact Hsub'].
Qed.

Lemma lanesInRange_final state state' l :
  lanesInRange state -> 0 <= l <= maxLane state ->
  laneByCommit state' = laneByCommit state -> maxLane state' = maxLane state ->
  Forall (fun f => f ∈ freeLanes state \/ f = l) (freeLanes state') ->
  lanesInRange state'.
Proof.
  intros (Hmax & Hfree & Hres) Hl Hby Hm Hf. unfold lanesInRange. rewrite Hby, Hm.
  split; [done|]. split; [|done].
  eapply Forall_impl; [exact Hf|]. simpl. intros f [Hin| ->]; [|done].
  by apply (proj1 (Forall_forall _ _) Hfree).
Qed.

(** What one round of the main loop adds to the layout. *)
Lemma placeCommit_parts graph r h commit refsAtCommit visualRefs layout :
  lanesInRange (laneState layout) ->
  exists l vc new,
    (forall x, laneByCommit (laneState layout) !! h = Some x -> l = x) /\
    laidCommits (placeCommit graph r h commit refsAtCommit visualRefs layout)
      = laidCommits layout ++ [vc] /\
    vcHash vc = h /\ row vc = r /\ lane vc = l /\ edgeIds vc = eid <$> new /\
    laidEdges (placeCommit graph r h commit refsAtCommit visualRefs layout)
      = laidEdges layout ++ new /\
    laidEdgeById (placeCommit graph r h commit refsAtCommit visualRefs layout)
      = foldl (fun m e => <[eid e := e]> m) (laidEdgeById layout) new /\
    laidCommitByHash (placeCommit graph r h commit refsAtCommit visualRefs layout)
      = <[h := vc]> (laidCommitByHash layout) /\
    laidCommitByRow (placeCommit graph r h commit refsAtCommit visualRefs layout)
      = <[r := vc]> (laidCommitByRow layout) /\
    lanesInRange (laneState (placeCommit graph r h commit refsAtCommit visualRefs layout)) /\
    maxLane (laneState layout)
      <= maxLane (laneState (placeCommit graph r h commit refsAtCommit visualRefs layout)) /\
    laneByCommit (laneState layout)
      ⊆ laneByCommit (laneState (placeCommit graph r h commit refsAtCommit visualRefs layout)) /\
    0 <= l <= maxLane (laneState (placeCommit graph r h commit refsAtCommit visualRefs layout)) /\
    Forall (fun e =>
              fromHash e = h /\ fromRow e = r /\ fromLane e = l /\
              0 <= toLane e
                <= maxLane (laneState (placeCommit graph r h commit refsAtCommit
                                         visualRefs layout)) /\
              laneByCommit (laneState (placeCommit graph r h commit refsAtCommit
                                         visualRefs layout)) !! toHash e
                = Some (toLane e)) new.
Proof.
  intros Hinv.
  assert (exists l st1,
            match laneByCommit (laneState layout) !! h with
            | Some reserved => (reserved, laneState layout)
            | None => allocateLane (laneState layout)
            end = (l, st1) /\
            (forall x, laneByCommit (laneState layout) !! h = Some x -> l = x) /\
            lanesInRange st1 /\ 0 <= l <= maxLane st1 /\
            maxLane (laneState layout) <= maxLane st1 /\
            laneByCommit st1 = laneByCommit (laneState layout))
    as (l & st1 & Hchoice & Hres & Hinv1 & Hl & Hmono1 & Hsame1).
  { destruct (laneByCommit (laneState layout) !! h) as [reserved|] eqn:E.
    - exists reserved, (laneState layout). split; [done|]. split; [by intros x [= ->]|].
      split; [done|]. split; [|split; [lia|done]].
      destruct Hinv as (_ & _ & Hr). apply (Hr _ _ E).
    - destruct (allocateLane_range _ Hinv) as (H1 & H2 & H3 & H4).
      destruct (allocateLane (laneState layout)) as [l st1]. simpl in *.
      exists l, st1. split; [done|]. split; [done|]. done. }
  unfold placeCommit. rewrite Hchoice. cbv beta iota zeta.
  set (acc0 := {| loopState := occupyLane st1 l h; loopEdges := laidEdges layout;
                  loopEdgeIds := []; loopEdgeById := laidEdgeById layout |}).
  destruct (linkParents_parts h r l (length (parents commit)) 0 (parents commit) acc0)
    as (new & E1 & E2 & E3 & Hinv2 & Hmono2 & Hsub2 & Hnew).
  { destruct Hinv1 as (? & ? & ?). done. }
  { simpl. lia. }
  set (linked := linkParents h r l (length (parents commit)) 0 (parents commit) acc0) in *.
  simpl in E1, E2, E3, Hmono2, Hsub2.
  assert (0 <= l <= maxLane (loopState linked)) as Hl2 by lia.
  match goal with
  | |- context [{| laneState := ?st; laidCommits := _ |}] => set (final := st)
  end.
  assert (laneByCommit final = laneByCommit (loopState linked) /\
          maxLane final = maxLane (loopState linked) /\
          Forall (fun f => f ∈ freeLanes (loopState linked) \/ f = l) (freeLanes final))
    as (Hby & Hm & Hf).
  { assert (Forall (fun f => f ∈ freeLanes (loopState linked) \/ f = l)
                   (freeLanes (loopState linked))) as Hrefl.
    { apply Forall_forall. intros f Hf. by left. }
    assert (Forall (fun f => f ∈ freeLanes (loopState linked) \/ f = l)
                   (freeLanes (freeLane (loopState linked) l))) as Hfreed.
    { unfold freeLane. simpl.
      destruct (bool_decide (l ∈ freeLanes (loopState linked))); [done|].
      apply Forall_app. split; [done|]. constructor; [by right|constructor]. }
    unfold final.
    repeat match goal with
           | |- context [if ?b then _ else _] => destruct b
           end; simpl; done. }
  eexists l, _, new. cbn [laidCommits laidEdges laidEdgeById laidCommitByHash
                          laidCommitByRow laneState].
  fold final. rewrite Hby, Hm.
  split; [exact Hres|]. split; [reflexivity|].
  cbn [vcHash row lane edgeIds].
  split; [done|]. split; [done|]. split; [done|]. split; [by rewrite E2|].
  split; [exact E1|]. split; [exact E3|]. split; [done|]. split; [done|].
  split; [by apply (lanesInRange_final (loopState linked) final l)|].
  split; [lia|]. split; [by rewrite <- Hsame1|]. split; [done|done].
Qed.

Section Placement.
Context (graph : RepositoryGraph) (options : LayoutOptions).

Lemma placementInv_empty order : placementInv order 0 emptyLayout.
Proof.
  unfold placementInv, emptyLayout, lanesInRange. simpl.
  split; [split; [lia|split; [constructor|apply map_Forall_empty]]|].
  split; [constructor|]. split; [constructor|].
  split; [by intros e vc ?%elem_of_nil|]. split; [constructor|].
  split; [intros k; by rewrite lookup_empty|].
  split; [intros k; by rewrite lookup_empty|].
  split; [intros k; by rewrite lookup_empty|]. split; constructor.
Qed.

Lemma placementInv_skip order r layout :
  placementInv order r layout -> placementInv order (S r) layout.
Proof.
  intros (P1 & P2 & P3 & P4 & P5 & P6 & P7 & P8 & P9 & P10).
  split; [done|]. split; [|split; [|done]].
  - eapply Forall_impl; [exact P2|]. intros vc (? & ? & ?). split; [done|]. split; [done|lia].
  - eapply Forall_impl; [exact P3|]. intros e (? & ? & ? & ? & ?).
    split; [done|]. split; [done|]. split; [done|]. split; [lia|done].
Qed.

Lemma placementInv_place order (r : nat) h commit refsAtCommit visualRefs layout :
  order !! r = Some h ->
  placementInv order r layout ->
  placementInv order (S r)
    (placeCommit graph (Z.of_nat r) h commit refsAtCommit visualRefs layout).
Proof.
  intros Hr (P1 & P2 & P3 & P4 & P5 & P6 & P7 & P8 & P9 & P10).
  destruct (placeCommit_parts graph (Z.of_nat r) h commit refsAtCommit visualRefs layout P1)
    as (l & vc & new & Hres & Ec & Hh & Hrow & Hlane & Hids & Ee & Ebi & Ebh & Ebr
        & Q1 & Hmono & Hsub & Hl & Hnew).
  set (layout' := placeCommit graph (Z.of_nat r) h commit refsAtCommit visualRefs layout) in *.
  assert (Forall (fun e => fromRow e < Z.of_nat r) (laidEdges layout)) as Hold.
  { eapply Forall_impl; [exact P3|]. intros e (_ & _ & _ & ? & _). simpl. lia. }
  assert (Forall (fun e => fromRow e = Z.of_nat r) new) as Hnewrow.
  { eapply Forall_impl; [exact Hnew|]. by intros e (_ & ? & _). }
  assert (Forall (fun v => row v < Z.of_nat r) (laidCommits layout)) as Holdrow.
  { eapply Forall_impl; [exact P2|]. intros v (_ & _ & ?). lia. }
  unfold placementInv. rewrite Ec, Ee, Ebi, Ebh, Ebr.
  split; [exact Q1|].
  split; [|split; [|split; [|split; [|split; [|split; [|split; [|split]]]]]]].
  - apply Forall_app. split.
    + eapply Forall_impl; [exact P2|]. intros v (? & ? & ?).
      split; [lia|]. split; [done|lia].
    + constructor; [|constructor]. split; [by rewrite Hlane|].
      rewrite Hrow, Hh, Nat2Z.id. split; [done|lia].
  - apply Forall_app. split.
    + eapply Forall_impl; [exact P3|]. intros e (? & ? & Hlook & ? & ?).
      split; [lia|]. split; [lia|]. split; [|split; [lia|done]].
      eapply lookup_weaken; [exact Hlook|exact Hsub].
    + eapply Forall_impl; [exact Hnew|]. intros e (Hfh & Hfr & Hfl & Htl & Hlook).
      split; [by rewrite Hfl|]. split; [done|]. split; [done|]. rewrite Hfr, Hfh.
      split; [lia|]. by rewrite Nat2Z.id.
  - intros e v [He|He]%elem_of_app [Hv|Hv%list_elem_of_singleton]%elem_of_app Hto Hlt.
    + by apply P4.
    + subst v. rewrite Hlane. symmetry. apply Hres.
      destruct (proj1 (Forall_forall _ _) P3 e He) as (_ & _ & Hlook & _).
      by rewrite <- Hh, <- Hto.
    + pose proof (proj1 (Forall_forall _ _) Hnewrow e He) as H1. simpl in H1.
      pose proof (proj1 (Forall_forall _ _) Holdrow v Hv) as H2. simpl in H2. lia.
    + subst v. pose proof (proj1 (Forall_forall _ _) Hnewrow e He) as H1. simpl in H1. lia.
  - apply StronglySorted_app_2; [|done|repeat constructor].
    intros a b Ha Hb%list_elem_of_singleton. subst b. rewrite Hrow.
    by apply (proj1 (Forall_forall _ _) Holdrow).
  - intros k. rewrite <- Hrow.
    apply (foldl_insert_last row (laidCommits layout) [vc] (laidCommitByRow layout) P6).
  - intros k. rewrite <- Hh.
    apply (foldl_insert_last vcHash (laidCommits layout) [vc] (laidCommitByHash layout) P7).
  - apply (foldl_insert_last eid (laidEdges layout) new (laidEdgeById layout) P8).
  - apply Forall_app. split.
    + apply Forall_forall. intros v Hv.
      rewrite (proj1 (Forall_forall _ _) P9 v Hv). f_equal.
      unfold rowEdges. rewrite filter_app, (filter_none _ new), app_nil_r; [done|].
      eapply Forall_impl; [exact Hnewrow|]. simpl. intros e He.
      pose proof (proj1 (Forall_forall _ _) Holdrow v Hv) as H2. simpl in H2. lia.
    + constructor; [|constructor]. rewrite Hids, Hrow. f_equal.
      unfold rowEdges. rewrite filter_app, (filter_none _ (laidEdges layout)).
      2:{ eapply Forall_impl; [exact Hold|]. simpl. intros e He. lia. }
      by rewrite (filter_all _ new).
  - apply Forall_app. split.
    + eapply Forall_impl; [exact P10|]. intros e (v & Hv & ?). exists v.
      split; [apply elem_of_app; by left|done].
    + eapply Forall_impl; [exact Hnew|]. intros e (Hfh & Hfr & Hfl & _). exists vc.
      split; [apply elem_of_app; right; by left|]. by rewrite Hrow, Hh, Hlane.
Qed.

Lemma layoutRows_placement order hs (r : nat) layout layout' :
  layoutRows graph options r hs layout = Returns layout' ->
  (forall j, hs !! j = order !! (r + j)%nat) ->
  placementInv order r layout ->
  placementInv order (r + length hs) layout'.
Proof.
  revert r layout. induction hs as [|h hs IH]; intros r layout; simpl.
  - intros [= <-] _. by rewrite Nat.add_0_r.
  - intros Hrun Hord Hinv.
    assert (order !! r = Some h) as Hr.
    { specialize (Hord 0%nat). rewrite Nat.add_0_r in Hord. by rewrite <- Hord. }
    assert (forall j, hs !! j = order !! (S r + j)%nat) as Hord'.
    { intros j. specialize (Hord (S j)). simpl in Hord. rewrite Hord. f_equal. lia. }
    replace (r + S (length hs))%nat with (S r + length hs)%nat by lia.
    destruct (commits graph !! h) as [commit|] eqn:Hc.
    + destruct (toVisualRefs options _) as [visualRefs|]; [|done].
      eapply IH; [exact Hrun|exact Hord'|]. by apply placementInv_place.
    + eapply IH; [exact Hrun|exact Hord'|]. by apply placementInv_skip.
Qed.

Lemma createVisualGraph_placement vg :
  createVisualGraph graph options = Returns vg ->
  exists layout,
    placementInv (reverse (topologicalOrder graph))
                 (length (topologicalOrder graph)) layout /\
    vgCommits vg = laidCommits layout /\
    edges vg = fillToRow (laidCommitByHash layout) <$> laidEdges layout /\
    totalRows vg = Z.of_nat (length (laidCommits layout)) /\
    totalLanes vg = maxLane (laneState layout) + 1 /\
    commitByHash vg = laidCommitByHash layout /\
    commitByRow vg = laidCommitByRow layout /\
    edgeById vg =
      foldl (fun m edge =>
               match laidCommitByHash layout !! toHash edge with
               | Some _ => <[eid edge := fillToRow (laidCommitByHash layout) edge]> m
               | None => m
               end) (laidEdgeById layout) (laidEdges layout).
Proof.
  unfold createVisualGraph.
  destruct (layoutRows graph options 0 _ emptyLayout) as [layout|] eqn:Hrun; [|done].
  intros [= <-]. exists layout. simpl. split; [|done].
  rewrite <- length_reverse.
  apply (layoutRows_placement _ _ 0%nat _ _ Hrun); [done|apply placementInv_empty].
Qed.

(** X21. In a visual graph that [createVisualGraph] returns, every lane of a
    commit or of an end of an edge lies between 0 and [totalLanes - 1]; the
    commits are listed by strictly increasing row, and the commit in row [r]
    is the one whose hash [r] places from the end of the topological order;
    an edge whose target was placed in a later row ends in the lane of its
    target. *)
Theorem createVisualGraph_positions vg :
  createVisualGraph graph options = Returns vg ->
  Forall (fun vc =>
            0 <= lane vc < totalLanes vg /\
            0 <= row vc < Z.of_nat (length (topologicalOrder graph)) /\
            reverse (topologicalOrder graph) !! Z.to_nat (row vc) = Some (vcHash vc))
         (vgCommits vg) /\
  StronglySorted (fun a b => row a < row b) (vgCommits vg) /\
  Forall (fun e => 0 <= fromLane e < totalLanes vg /\ 0 <= toLane e < totalLanes vg)
         (edges vg) /\
  (forall e vc, e ∈ edges vg -> vc ∈ vgCommits vg ->
                toHash e = vcHash vc -> fromRow e < row vc -> toLane e = lane vc).
Proof.
  intros Hrun.
  destruct (createVisualGraph_placement vg Hrun)
    as (layout & (P1 & P2 & P3 & P4 & P5 & _) & -> & -> & _ & -> & _).
  split; [|split; [done|split]].
  - eapply Forall_impl; [exact P2|]. intros vc (? & ? & ?). split; [lia|done].
  - apply Forall_fmap. eapply Forall_impl; [exact P3|]. intros e (? & ? & _). simpl.
    destruct (fillToRow_fields (laidCommitByHash layout) e) as (_&_&_&_& -> & -> &_).
    lia.
  - intros e vc (e0 & -> & He)%list_elem_of_fmap Hvc.
    destruct (fillToRow_fields (laidCommitByHash layout) e0) as (_&_& -> & -> &_& -> &_).
    by apply P4.
Qed.

End Placement.

(** ** Lookup tables of the visual graph *)

Lemma last_filter_unique {A K} `{EqDecision K} (key : A -> K) (l : list A) (k : K) (x : A) :
  (forall a b, a ∈ l -> b ∈ l -> key a = key b -> a = b) ->
  last (filter (fun a => key a = k) l) = Some x <-> x ∈ l /\ key x = k.
Proof.
  intros Huniq. split.
  - intros Hl. apply last_Some_elem_of, list_elem_of_filter in Hl. tauto.
  - intros [Hin Hk].
    destruct (last (filter (fun a => key a = k) l)) as [y|] eqn:E.
    + f_equal. apply last_Some_elem_of, list_elem_of_filter in E as [Hy Hyin].
      apply Huniq; [done|done|congruence].
    + apply last_None in E.
      assert (x ∈ filter (fun a => key a = k) l) as Hf by (by apply list_elem_of_filter).
      rewrite E in Hf. by apply elem_of_nil in Hf.
Qed.

Lemma StronglySorted_rows_unique (cs : list VisualCommit) a b :
  StronglySorted (fun a b => row a < row b) cs ->
  a ∈ cs -> b ∈ cs -> row a = row b -> a = b.
Proof.
  intros Hs. induction Hs as [|c cs Hs IH Hall]; [by intros ?%elem_of_nil|].
  intros [->|Ha]%elem_of_cons [->|Hb]%elem_of_cons Hrow.
  - done.
  - pose proof (proj1 (Forall_forall _ _) Hall b Hb) as Hlt. simpl in Hlt. lia.
  - pose proof (proj1 (Forall_forall _ _) Hall a Ha) as Hlt. simpl in Hlt. lia.
  - by apply IH.
Qed.

Lemma filter_ext_in {A} (P Q : A -> Prop) `{forall x, Decision (P x)}
    `{forall x, Decision (Q x)} (l : list A) :
  (forall x, x ∈ l -> P x <-> Q x) -> filter P l = filter Q l.
Proof.
  induction l as [|x l IH]; [done|]. intros Hpq. rewrite !filter_cons.
  rewrite IH by (intros y Hy; apply Hpq; by right).
  destruct (decide (P x)) as [Hp|Hp], (decide (Q x)) as [Hq|Hq]; try done.
  - exfalso. apply Hq. apply Hpq; [by left|done].
  - exfalso. apply Hp. apply Hpq; [by left|done].
Qed.

Section Tables.
Context (graph : RepositoryGraph) (options : LayoutOptions).

Lemma createVisualGraph_layout vg :
  createVisualGraph graph options = Returns vg ->
  exists layout,
    layoutInv graph (reverse (topologicalOrder graph))
              (length (reverse (topologicalOrder graph))) layout /\
    placementInv (reverse (topologicalOrder graph))
                 (length (reverse (topologicalOrder graph))) layout /\
    vg = {| vgCommits := laidCommits layout;
            edges := fillToRow (laidCommitByHash layout) <$> laidEdges layout;
            totalRows := Z.of_nat (length (laidCommits layout));
            totalLanes := maxLane (laneState layout) + 1;
            commitByHash := laidCommitByHash layout;
            commitByRow := laidCommitByRow layout;
            edgeById :=
              foldl (fun m edge =>
                       match laidCommitByHash layout !! toHash edge with
                       | Some _ => <[eid edge := fillToRow (laidCommitByHash layout) edge]> m
                       | None => m
                       end) (laidEdgeById layout) (laidEdges layout);
            activeLanesAtRow := laidActiveLanesAtRow layout |}.
Proof.
  unfold createVisualGraph.
  destruct (layoutRows graph options 0 _ emptyLayout) as [layout|] eqn:Hrun; [|done].
  intros [= <-]. exists layout. split; [|split; [|done]].
  - apply (layoutRows_inv graph options _ _ 0%nat _ _ Hrun); [done|apply layoutInv_empty].
  - apply (layoutRows_placement graph options _ _ 0%nat _ _ Hrun);
      [done|apply placementInv_empty].
Qed.

Lemma laidCommits_hash_unique order r layout a b :
  NoDup order -> placementInv order r layout ->
  a ∈ laidCommits layout -> b ∈ laidCommits layout -> vcHash a = vcHash b -> a = b.
Proof.
  intros Hnd (_ & P2 & _ & _ & P5 & _) Ha Hb Hh.
  destruct (proj1 (Forall_forall _ _) P2 a Ha) as (_ & Oa & Ra).
  destruct (proj1 (Forall_forall _ _) P2 b Hb) as (_ & Ob & Rb).
  apply (StronglySorted_rows_unique _ _ _ P5 Ha Hb).
  rewrite <- Hh in Ob.
  pose proof (NoDup_lookup _ _ _ _ Hnd Oa Ob). lia.
Qed.

Lemma fillToRow_table (byHash : gmap CommitHash VisualCommit) (es : list VisualEdge)
    (orig : gmap jsstring VisualEdge) (id : jsstring) :
  (forall e, e ∈ es -> orig !! eid e = Some e) ->
  (forall id', orig !! id' = None \/ exists e, orig !! id' = Some e /\ eid e = id') ->
  foldl (fun m edge =>
           match byHash !! toHash edge with
           | Some _ => <[eid edge := fillToRow byHash edge]> m
           | None => m
           end) orig es !! id
  = if decide (id ∈ eid <$> es) then fillToRow byHash <$> orig !! id else orig !! id.
Proof.
  intros Horig _. induction es as [|e es IH] using rev_ind.
  - done.
  - assert (forall e', e' ∈ es -> orig !! eid e' = Some e') as Horig'.
    { intros e' He'. apply Horig. apply elem_of_app. by left. }
    specialize (IH Horig'). rewrite foldl_snoc.
    assert (orig !! eid e = Some e) as He.
    { apply Horig. apply elem_of_app. right. by left. }
    destruct (decide (id = eid e)) as [->|Hne].
    + rewrite decide_True.
      2:{ rewrite fmap_app. apply elem_of_app. right. by left. }
      rewrite He. simpl. destruct (byHash !! toHash e) eqn:Eb.
      * by rewrite lookup_insert_eq.
      * rewrite IH, He. simpl. unfold fillToRow. rewrite Eb. by destruct (decide _).
    + assert ((id ∈ eid <$> es ++ [e]) <-> id ∈ eid <$> es) as Hmem.
      { rewrite fmap_app, elem_of_app. change (eid <$> [e]) with [eid e].
        rewrite list_elem_of_singleton. tauto. }
      destruct (byHash !! toHash e).
      * rewrite lookup_insert_ne by done. rewrite IH.
        destruct (decide (id ∈ eid <$> es)), (decide (id ∈ eid <$> es ++ [e])); tauto.
      * rewrite IH.
        destruct (decide (id ∈ eid <$> es)), (decide (id ∈ eid <$> es ++ [e])); tauto.
Qed.

(** X22. In a visual graph laid out from a valid repository graph the lookup
    tables agree with the two arrays: a hash, a row or an edge id finds
    exactly the commit or edge of the array that carries it, and the edge ids
    a commit records are the ids of the edges that leave it, in order. *)
Theorem createVisualGraph_tables vg :
  validGraph graph ->
  createVisualGraph graph options = Returns vg ->
  (forall h vc, commitByHash vg !! h = Some vc <-> vc ∈ vgCommits vg /\ vcHash vc = h) /\
  (forall r vc, commitByRow vg !! r = Some vc <-> vc ∈ vgCommits vg /\ row vc = r) /\
  (forall id e, edgeById vg !! id = Some e <-> e ∈ edges vg /\ eid e = id) /\
  Forall (fun vc => edgeIds vc = eid <$> outgoingEdges vg vc) (vgCommits vg).
Proof.
  intros Hvalid Hrun.
  destruct (createVisualGraph_layout vg Hrun) as (layout & Hlay & Hpl & ->).
  pose proof (laidEdges_ids_NoDup graph layout _ Hvalid Hlay) as Hids.
  assert (NoDup (reverse (topologicalOrder graph))) as Hnd.
  { destruct Hvalid as (Hnd & _). by rewrite reverse_Permutation. }
  pose proof (fun a b => laidCommits_hash_unique _ _ layout a b Hnd Hpl) as Hhash.
  destruct Hpl as (P1 & P2 & P3 & P4 & P5 & P6 & P7 & P8 & P9 & P10).
  cbn [commitByHash commitByRow edgeById vgCommits edges].
  assert (forall e, e ∈ laidEdges layout -> laidEdgeById layout !! eid e = Some e) as Hby.
  { intros e He. rewrite P8. apply last_filter_unique; [|done].
    intros a b Ha Hb Hab. apply list_elem_of_lookup in Ha as [i Hi].
    apply list_elem_of_lookup in Hb as [j Hj].
    assert (i = j) as ->; [|congruence].
    apply (NoDup_lookup _ _ _ (eid a) Hids); rewrite list_lookup_fmap.
    - by rewrite Hi.
    - rewrite Hj. simpl. by rewrite Hab. }
  split; [|split; [|split]].
  - intros h vc. rewrite P7. apply last_filter_unique.
    intros a b Ha Hb. by apply Hhash.
  - intros r vc. rewrite P6. apply last_filter_unique.
    intros a b Ha Hb. by apply (StronglySorted_rows_unique (laidCommits layout)).
  - intros id e. rewrite (fillToRow_table _ _ _ _ Hby).
    2:{ intros id'. destruct (laidEdgeById layout !! id') as [e'|] eqn:E; [|by left].
        right. exists e'. split; [done|]. rewrite P8 in E.
        apply last_Some_elem_of, list_elem_of_filter in E. tauto. }
    destruct (decide (id ∈ eid <$> laidEdges layout)) as [Hin|Hnin];
      rewrite list_elem_of_fmap.
    + apply list_elem_of_fmap in Hin as (e0 & -> & He0). rewrite (Hby e0 He0). simpl.
      split.
      * intros [= <-]. split; [by exists e0|].
        by destruct (fillToRow_fields (laidCommitByHash layout) e0) as (-> & _).
      * intros ((e1 & -> & He1) & Hid).
        destruct (fillToRow_fields (laidCommitByHash layout) e1) as (Hid1 & _).
        rewrite Hid1 in Hid. f_equal. f_equal.
        apply list_elem_of_lookup in He0 as [i Hi].
        apply list_elem_of_lookup in He1 as [j Hj].
        assert (i = j) as ->; [|congruence].
        apply (NoDup_lookup _ _ _ (eid e0) Hids); rewrite list_lookup_fmap.
        -- by rewrite Hi.
        -- rewrite Hj. simpl. by rewrite Hid.
    + split.
      * intros E. exfalso. apply Hnin. rewrite P8 in E.
        apply last_Some_elem_of, list_elem_of_filter in E as [<- E].
        apply list_elem_of_fmap. by exists e.
      * intros ((e1 & -> & He1) & Hid). exfalso. apply Hnin.
        destruct (fillToRow_fields (laidCommitByHash layout) e1) as (Hid1 & _).
        rewrite Hid1 in Hid. apply list_elem_of_fmap. by exists e1.
  - apply Forall_forall. intros vc Hvc.
    rewrite (proj1 (Forall_forall _ _) P9 vc Hvc).
    unfold outgoingEdges, rowEdges. cbn [edges].
    rewrite filter_fmap, <- list_fmap_compose.
    assert (filter (fun e => fromRow e = row vc) (laidEdges layout)
            = filter (fun e => fromHash (fillToRow (laidCommitByHash layout) e) = vcHash vc /\
                               fromRow (fillToRow (laidCommitByHash layout) e) = row vc)
                     (laidEdges layout)) as ->.
    { apply filter_ext_in. intros e He.
      destruct (fillToRow_fields (laidCommitByHash layout) e) as (_ & -> & _ & -> & _).
      split; [|tauto]. intros Hrow. split; [|done].
      destruct (proj1 (Forall_forall _ _) P3 e He) as (_ & _ & _ & _ & Oe).
      destruct (proj1 (Forall_forall _ _) P2 vc Hvc) as (_ & Ov & _).
      rewrite Hrow in Oe. congruence. }
    apply list_fmap_ext. intros _ e _. simpl.
    by destruct (fillToRow_fields (laidCommitByHash layout) e) as (-> & _).
Qed.

(** X23. In a visual graph laid out from a valid repository graph, every edge
    leaves the position of a commit of the graph, the one its source hash
    names; when its target is a commit of the graph the edge ends in the row
    of that commit, and also in its lane when that row is further down. *)
Theorem createVisualGraph_edge_ends vg e :
  validGraph graph ->
  createVisualGraph graph options = Returns vg ->
  e ∈ edges vg ->
  (exists source, source ∈ vgCommits vg /\ vcHash source = fromHash e /\
                  row source = fromRow e /\ lane source = fromLane e) /\
  (forall target, target ∈ vgCommits vg -> vcHash target = toHash e ->
                  toRow e = row target /\ (fromRow e < toRow e -> toLane e = lane target)).
Proof.
  intros Hvalid Hrun He.
  destruct (createVisualGraph_layout vg Hrun) as (layout & Hlay & Hpl & ->).
  assert (NoDup (reverse (topologicalOrder graph))) as Hnd.
  { destruct Hvalid as (Hnd & _). by rewrite reverse_Permutation. }
  pose proof (fun a b => laidCommits_hash_unique _ _ layout a b Hnd Hpl) as Hhash.
  destruct Hpl as (P1 & P2 & P3 & P4 & P5 & P6 & P7 & P8 & P9 & P10).
  cbn [vgCommits edges] in *.
  apply list_elem_of_fmap in He as (e0 & -> & He0).
  destruct (fillToRow_fields (laidCommitByHash layout) e0)
    as (_ & Hfh & Hth & Hfr & Hfl & Htl & _).
  rewrite Hfh, Hth, Hfr, Hfl, Htl. split.
  - destruct (proj1 (Forall_forall _ _) P10 e0 He0) as (vc & ? & ? & ? & ?). by exists vc.
  - intros target Ht Hh.
    assert (laidCommitByHash layout !! toHash e0 = Some target) as Hlook.
    { rewrite P7. apply last_filter_unique; [|done].
      intros a b Ha Hb. by apply Hhash. }
    assert (toRow (fillToRow (laidCommitByHash layout) e0) = row target) as Hrow.
    { unfold fillToRow. by rewrite Hlook. }
    split; [done|]. rewrite Hrow. intros Hlt. by apply (P4 e0 target).
Qed.

End Tables.

(** ** Visible commits *)

Lemma StronglySorted_seq i k : StronglySorted lt (seq i k).
Proof.
  revert i. induction k as [|k IH]; intros i; simpl; constructor; [apply IH|].
  apply Forall_forall. intros j Hj%elem_of_seq. lia.
Qed.

Lemma StronglySorted_seqZ m n : StronglySorted Z.lt (seqZ m n).
Proof.
  unfold seqZ. apply (StronglySorted_fmap _ lt); [|apply StronglySorted_seq].
  intros x y Hxy. lia.
Qed.

Lemma StronglySorted_omap {A B} (R : relation A) (S : relation B) (f : A -> option B)
    (l : list A) :
  (forall x y x' y', R x y -> f x = Some x' -> f y = Some y' -> S x' y') ->
  StronglySorted R l -> StronglySorted S (omap f l).
Proof.
  intros Hf. induction 1 as [|x l Hs IH Hall]; simpl; [constructor|].
  destruct (f x) as [x'|] eqn:Ex; [|done].
  constructor; [done|]. apply Forall_forall. intros y' (y & Hy & Ey)%list_elem_of_omap.
  apply (Hf x y); [|done|done]. by apply (proj1 (Forall_forall _ _) Hall).
Qed.

Lemma StronglySorted_rows_NoDup (cs : list VisualCommit) :
  StronglySorted (fun a b => row a < row b) cs -> NoDup cs.
Proof.
  induction 1 as [|c cs Hs IH Hall]; constructor; [|done].
  intros Hin. pose proof (proj1 (Forall_forall _ _) Hall c Hin) as Hlt. simpl in Hlt. lia.
Qed.

Lemma StronglySorted_sub {A} (R : relation A) (P : A -> Prop) `{forall x, Decision (P x)}
    (l : list A) :
  StronglySorted R l -> StronglySorted R (filter P l).
Proof.
  induction 1 as [|x l Hs IH Hall]; [constructor|].
  rewrite filter_cons. destruct (decide (P x)); [|done].
  constructor; [done|]. apply Forall_forall. intros y [_ Hy]%list_elem_of_filter.
  by apply (proj1 (Forall_forall _ _) Hall).
Qed.

Lemma omap_rows_filter (cs : list VisualCommit) (byRow : gmap Z VisualCommit) (s n : Z) :
  StronglySorted (fun a b => row a < row b) cs ->
  (forall k, byRow !! k = last (filter (fun vc => row vc = k) cs)) ->
  omap (fun r => byRow !! r) (seqZ s n) = filter (fun vc => s <= row vc < s + n) cs.
Proof.
  intros Hs Hby.
  assert (forall k vc, byRow !! k = Some vc <-> vc ∈ cs /\ row vc = k) as Hlook.
  { intros k vc. rewrite Hby. apply last_filter_unique.
    intros a b Ha Hb. by apply (StronglySorted_rows_unique cs). }
  assert (StronglySorted (fun a b => row a < row b)
            (omap (fun r => byRow !! r) (seqZ s n))) as Hs1.
  { apply (StronglySorted_omap Z.lt); [|apply StronglySorted_seqZ].
    intros x y x' y' Hxy [_ <-]%Hlook [_ <-]%Hlook. done. }
  assert (StronglySorted (fun a b => row a < row b)
            (filter (fun vc => s <= row vc < s + n) cs)) as Hs2
    by (by apply StronglySorted_sub).
  apply (StronglySorted_unique_strong (fun a b => row a < row b)); [|done|done|].
  { intros x1 x2 _ _ H1 H2. lia. }
  apply NoDup_Permutation; [by apply StronglySorted_rows_NoDup..|].
  intros vc. rewrite list_elem_of_omap, list_elem_of_filter. split.
  - intros (k & Hk%elem_of_seqZ & [Hin <-]%Hlook). split; [lia|done].
  - intros [Hr Hin]. exists (row vc). split; [apply elem_of_seqZ; lia|].
    by apply Hlook.
Qed.

Section VisibleCommits.
Context (graph : RepositoryGraph) (options : LayoutOptions).

Lemma layoutRows_count hs (r : nat) layout layout' :
  layoutRows graph options r hs layout = Returns layout' ->
  Forall (fun h => is_Some (commits graph !! h)) hs ->
  length (laidCommits layout') = (length (laidCommits layout) + length hs)%nat.
Proof.
  revert r layout. induction hs as [|h hs IH]; intros r layout; simpl.
  - intros [= <-] _. lia.
  - intros Hrun [[commit Hc] Hall]%Forall_cons. rewrite Hc in Hrun.
    destruct (toVisualRefs options _) as [visualRefs|]; [|done].
    rewrite (IH _ _ Hrun Hall).
    destruct (placeCommit_shape graph (Z.of_nat r) h commit
                (default [] (refsByCommit graph !! h)) visualRefs layout)
      as (vc & new & _ & -> & _).
    rewrite length_app. simpl. lia.
Qed.

(** X24. For a visual graph that [createVisualGraph] returns, [getVisibleCommits]
    gives the commits of the graph whose row lies in the range asked for and
    below [totalRows], in row order. When every hash of the topological order
    is a loaded commit, as in a graph that [buildGraph] returns, every row
    lies below [totalRows]. *)
Theorem getVisibleCommits_spec vg (startRow endRow : Z) :
  createVisualGraph graph options = Returns vg ->
  getVisibleCommits vg startRow endRow
    = filter (fun vc => startRow <= row vc <= endRow /\ row vc < totalRows vg)
             (vgCommits vg) /\
  (allLoaded graph ->
   getVisibleCommits vg startRow endRow
     = filter (fun vc => startRow <= row vc <= endRow) (vgCommits vg)).
Proof.
  intros Hrun.
  assert (getVisibleCommits vg startRow endRow
          = filter (fun vc => startRow <= row vc <= endRow /\ row vc < totalRows vg)
                   (vgCommits vg)) as Hgen.
  { destruct (createVisualGraph_layout graph options vg Hrun) as (layout & _ & Hpl & ->).
    destruct Hpl as (_ & _ & _ & _ & P5 & P6 & _).
    unfold getVisibleCommits, visibleRows. cbn [commitByRow totalRows vgCommits].
    rewrite (omap_rows_filter _ _ _ _ P5 P6). apply list_filter_iff. intros vc. lia. }
  split; [exact Hgen|]. intros Hall. rewrite Hgen.
  apply filter_ext_in. intros vc Hvc. split; [tauto|]. intros Hr. split; [done|].
  unfold createVisualGraph in Hrun.
  destruct (layoutRows graph options 0 _ emptyLayout) as [layout|] eqn:Hrows; [|done].
  pose proof (layoutRows_count _ _ _ _ Hrows) as Hcount.
  pose proof (layoutRows_placement graph options (reverse (topologicalOrder graph))
                _ 0%nat _ _ Hrows (fun j => eq_refl) (placementInv_empty _)) as Hpl.
  injection Hrun as <-. cbn [totalRows vgCommits] in *.
  rewrite Hcount by (by apply Forall_reverse). simpl.
  destruct Hpl as (_ & P2 & _).
  destruct (proj1 (Forall_forall _ _) P2 vc Hvc) as (_ & _ & ?). lia.
Qed.

End VisibleCommits.

(** ** The allow list *)

Import Executor.

Lemma validateCommand_plain (subcommand : jsstring) (rest : list jsstring) :
  subcommand ∈ SAFE_SUBCOMMANDS ->
  subcommand <> js "config" -> subcommand <> js "remote" ->
  validateCommand (subcommand :: rest) = Returns tt
  <-> Forall (fun arg => arg ∉ DANGEROUS_FLAGS) rest.
Proof.
  intros Hsafe Hc Hr.
  assert (subcommand <> []) as Hne.
  { assert (([] : jsstring) ∉ SAFE_SUBCOMMANDS) as Hn
      by (refine (proj1 (bool_decide_eq_false _) _); by vm_compute).
    by intros ->. }
  assert (subcommand ∉ DANGEROUS_FLAGS) as Hnd.
  { assert (Forall (fun s => s ∉ DANGEROUS_FLAGS) SAFE_SUBCOMMANDS) as Hall
      by (refine (proj1 (bool_decide_eq_true _) _); by vm_compute).
    by apply (proj1 (Forall_forall _ _) Hall). }
  unfold validateCommand.
  rewrite (bool_decide_eq_false_2 _ Hne), (bool_decide_eq_true_2 _ Hsafe).
  rewrite (bool_decide_eq_false_2 _ Hc), (bool_decide_eq_false_2 _ Hr).
  cbn [negb orb andb existsb]. rewrite (bool_decide_eq_false_2 _ Hnd). cbn [orb].
  destruct (existsb _ rest) eqn:E.
  - split; [done|]. intros Hall. apply existsb_exists in E as (arg & Harg & Hd).
    apply bool_decide_eq_true in Hd. apply list_elem_of_In in Harg.
    by destruct (proj1 (Forall_forall _ _) Hall arg Harg).
  - split; [|done]. intros _. apply Forall_forall. intros arg Harg Hd.
    apply not_true_iff_false in E. apply E, existsb_exists. exists arg.
    split; [by apply list_elem_of_In|by apply bool_decide_eq_true].
Qed.

Lemma validateCommand_config (rest : list jsstring) :
  validateCommand (js "config" :: rest) = Returns tt
  <-> Forall (fun arg => arg ∉ DANGEROUS_FLAGS) rest /\
      (exists arg, arg ∈ rest /\ arg ∈ readFlags) /\
      Forall (fun arg => EQUALS ∉ arg) rest.
Proof.
  unfold validateCommand.
  replace (bool_decide (js "config" = [])) with false by (by vm_compute).
  replace (bool_decide (js "config" ∈ SAFE_SUBCOMMANDS)) with true by (by vm_compute).
  rewrite (bool_decide_eq_true_2 (js "config" = js "config") eq_refl).
  replace (bool_decide (js "config" = js "remote")) with false by (by vm_compute).
  cbn [negb orb andb existsb].
  replace (bool_decide (js "config" ∈ DANGEROUS_FLAGS)) with false by (by vm_compute).
  replace (bool_decide (js "config" ∈ readFlags)) with false by (by vm_compute).
  replace (bool_decide (EQUALS ∈ js "config")) with false by (by vm_compute).
  cbn [orb].
  assert (forall P (HP : forall a : jsstring, Decision (P a)),
            existsb (fun a => bool_decide (P a)) rest = false
            <-> Forall (fun a => ~ P a) rest) as Hnone.
  { intros P HP. rewrite <- not_true_iff_false, existsb_exists, Forall_forall. split.
    - intros Hn a Ha HPa. apply Hn. exists a.
      split; [by apply list_elem_of_In|by apply bool_decide_eq_true].
    - intros Hall (a & Ha%list_elem_of_In & HPa%bool_decide_eq_true). by apply (Hall a). }
  assert (existsb (fun a => bool_decide (a ∈ readFlags)) rest = true
          <-> exists arg, arg ∈ rest /\ arg ∈ readFlags) as Hread.
  { rewrite existsb_exists. split.
    - intros (a & Ha%list_elem_of_In & HPa%bool_decide_eq_true). by exists a.
    - intros (a & Ha & HPa). exists a.
      split; [by apply list_elem_of_In|by apply bool_decide_eq_true]. }
  rewrite <- (Hnone (fun a => a ∈ DANGEROUS_FLAGS) _), <- Hread,
          <- (Hnone (fun a => EQUALS ∈ a) _).
  destruct (existsb (fun a => bool_decide (a ∈ DANGEROUS_FLAGS)) rest),
           (existsb (fun a => bool_decide (a ∈ readFlags)) rest),
           (existsb (fun a => bool_decide (EQUALS ∈ a)) rest); cbn; intuition discriminate.
Qed.

(** X28. Every command that [GitCommands] builds without arguments passes
    [validateCommand], and so does [showFile] for every commit and path. A
    [diff], [listTree] or [getConfig] command passes exactly when no argument
    given to the builder is itself one of the dangerous flags and, for
    [getConfig], the key has no equals sign. *)
Theorem GitCommands_validate :
  Forall (fun args => validateCommand args = Returns tt)
         [GitCommands.refs; GitCommands.headRef; GitCommands.headCommit;
          GitCommands.verifyRepo; GitCommands.listConfig] /\
  (forall commitish path,
     validateCommand (GitCommands.showFile commitish path) = Returns tt) /\
  (forall from to nameOnly,
     validateCommand (GitCommands.diff from to nameOnly) = Returns tt
     <-> (from ∉ DANGEROUS_FLAGS) /\ (to ∉ DANGEROUS_FLAGS)) /\
  (forall commitish path,
     validateCommand (GitCommands.listTree commitish path) = Returns tt
     <-> (commitish ∉ DANGEROUS_FLAGS) /\
         forall p, path = Some p -> p ∉ DANGEROUS_FLAGS) /\
  (forall key,
     validateCommand (GitCommands.getConfig key) = Returns tt
     <-> (key ∉ DANGEROUS_FLAGS) /\ (EQUALS ∉ key)).
Proof.
  assert (forall s : jsstring, s ∈ readFlags \/ s = js "--name-only" \/ s = js "-r"
                               \/ s = js "--" -> s ∉ DANGEROUS_FLAGS) as Hflag.
  { intros s Hs Hd.
    assert (Forall (fun s => s ∉ DANGEROUS_FLAGS)
                   (js "--name-only" :: js "-r" :: js "--" :: readFlags)) as Hall
      by (refine (proj1 (bool_decide_eq_true _) _); by vm_compute).
    apply (proj1 (Forall_forall _ _) Hall s); [|done].
    rewrite !elem_of_cons. tauto. }
  split; [repeat constructor; by vm_compute|].
  split.
  { intros commitish path. unfold GitCommands.showFile.
    apply validateCommand_plain; [by refine (proj1 (bool_decide_eq_true _) _); vm_compute|done|done|].
    constructor; [|constructor]. intros Hd.
    assert (Forall (fun flag => 58%N ∉ flag) DANGEROUS_FLAGS) as Hall
      by (refine (proj1 (bool_decide_eq_true _) _); by vm_compute).
    apply (proj1 (Forall_forall _ _) Hall _ Hd).
    apply elem_of_app. right. by left. }
  split.
  { intros from to nameOnly. unfold GitCommands.diff.
    destruct nameOnly; cbn [app];
      (rewrite validateCommand_plain;
         [|by refine (proj1 (bool_decide_eq_true _) _); vm_compute|done|done]);
      rewrite !Forall_cons, Forall_nil; [|tauto].
    split; [tauto|]. intros [? ?]. repeat split; [done..|]. apply Hflag. tauto. }
  split.
  { intros commitish path. unfold GitCommands.listTree.
    assert (js "-r" ∉ DANGEROUS_FLAGS) as H1 by (apply Hflag; tauto).
    assert (js "--name-only" ∉ DANGEROUS_FLAGS) as H2 by (apply Hflag; tauto).
    assert (js "--" ∉ DANGEROUS_FLAGS) as H3 by (apply Hflag; tauto).
    assert (([] : jsstring) ∉ DANGEROUS_FLAGS) as H4
      by (refine (proj1 (bool_decide_eq_false _) _); by vm_compute).
    destruct path as [p|]; [destruct (bool_decide_reflect (p = [])) as [->|Hp]|].
    - rewrite validateCommand_plain; [|by refine (proj1 (bool_decide_eq_true _) _); vm_compute|done..].
      rewrite !Forall_cons, Forall_nil. split; [|tauto].
      intros (_ & _ & Hc & _). split; [done|]. by intros p [= <-].
    - cbn [app]. rewrite validateCommand_plain;
        [|by refine (proj1 (bool_decide_eq_true _) _); vm_compute|done..].
      rewrite !Forall_cons, Forall_nil. split.
      + intros (_ & _ & Hc & _ & Hpd & _). split; [done|]. by intros p' [= <-].
      + intros [Hc Hpd]. repeat split; try done. by apply Hpd.
    - rewrite validateCommand_plain; [|by refine (proj1 (bool_decide_eq_true _) _); vm_compute|done..].
      rewrite !Forall_cons, Forall_nil. split; [|tauto].
      intros (_ & _ & Hc & _). split; [done|]. by intros p [=]. }
  intros key. unfold GitCommands.getConfig. rewrite validateCommand_config.
  rewrite !Forall_cons, Forall_nil. split.
  - intros ((_ & Hk & _) & _ & (_ & He & _)). done.
  - intros [Hk He]. split; [|split].
    + split; [|by split]. apply Hflag. left.
      by refine (proj1 (bool_decide_eq_true _) _); vm_compute.
    + exists (js "--get"). split; [by left|by refine (proj1 (bool_decide_eq_true _) _); vm_compute].
    + split; [|by split]. refine (proj1 (bool_decide_eq_false _) _); by vm_compute.
Qed.

(** ** Mutations *)

Lemma globMatches_no_star pattern name :
  RegExp.STAR ∉ pattern -> globMatches pattern name = bool_decide (pattern = name).
Proof.
  revert name. induction pattern as [|c pattern IH]; intros name Hstar.
  - by destruct name.
  - assert (c <> RegExp.STAR) as Hc by (intros ->; apply Hstar; by left).
    assert (RegExp.STAR ∉ pattern) as Hrest by (intros ?; apply Hstar; by right).
    simpl. apply N.eqb_neq in Hc. rewrite Hc.
    destruct name as [|d name]; [done|]. rewrite (IH name Hrest).
    destruct (N.eqb_spec d c) as [->|Hd]; simpl.
    + destruct (decide (pattern = name)) as [->|Hne].
      * by rewrite !bool_decide_eq_true_2.
      * rewrite !bool_decide_eq_false_2; [done|congruence|done].
    + symmetry. apply bool_decide_eq_false_2. congruence.
Qed.

Lemma isProtectedBranch_plain name patterns :
  Forall plainPattern patterns -> singleLine name ->
  Mutations.isProtectedBranch name patterns = Returns (protectedBySpec name patterns).
Proof.
  intros Hps Hn. induction Hps as [|pattern patterns Hp _ IH]; [done|].
  cbn [Mutations.isProtectedBranch protectedBySpec existsb].
  fold (protectedBySpec name patterns).
  destruct (decide (pattern = name)) as [->|Hne].
  - rewrite bool_decide_eq_true_2 by done. by rewrite globMatches_refl.
  - rewrite (bool_decide_eq_false_2 _ Hne).
    destruct (bool_decide_reflect (RegExp.STAR ∈ pattern)) as [Hstar|Hstar].
    + unfold RegExp.testAnchored. fold (regexSource pattern).
      rewrite (parseTerms_regexSource _ Hp), (matchTerms_termsOf _ _ Hn).
      destruct (globMatches pattern name); [done|]. by rewrite IH.
    + rewrite (globMatches_no_star _ _ Hstar), (bool_decide_eq_false_2 _ Hne). by rewrite IH.
Qed.

Lemma find_none_iff {A} (f : A -> bool) (l : list A) :
  List.find f l = None <-> forall x, x ∈ l -> f x = false.
Proof.
  induction l as [|a l IH]; simpl.
  - split; [by intros _ x ?%elem_of_nil|done].
  - destruct (f a) eqn:E.
    + split; [done|]. intros H. rewrite (H a) in E; [done|by left].
    + rewrite IH. split.
      * intros H x [->|Hx]%elem_of_cons; [done|by apply H].
      * intros H x Hx. apply H. by right.
Qed.

(** X29. For protected patterns without a question mark and branch names without
    a line terminator [validateMutation] returns, [valid] says that there
    are no errors, and the mutation is valid exactly when: for a branch
    deletion, the name matches no protected pattern (a star standing for any
    characters), the branch is not the current one unless that is allowed,
    it is not a remote branch unless that is allowed, and it is fully merged
    unless the deletion is forced or forcing is allowed by the
    configuration; for a rename, the old name matches no protected pattern
    and no local branch has the new name; a tag deletion is always valid. *)
Theorem validateMutation_spec mutation config graph :
  Forall plainPattern (Mutations.protectedBranches config) ->
  Forall singleLine (mutationNames mutation) ->
  exists result,
    Mutations.validateMutation mutation config graph = Returns result /\
    (Mutations.valid result = true <-> Mutations.errors result = []) /\
    (Mutations.valid result = true <->
     match mutation with
     | Mutations.BranchDelete _ branchName branchType isFullyMerged force _ =>
         protectedBySpec branchName (Mutations.protectedBranches config) = false /\
         (headRef graph = Some branchName ->
          Mutations.allowDeleteCurrentBranch config = true) /\
         (branchType = Mutations.RemoteBranch -> Mutations.allowDeleteRemote config = true) /\
         (isFullyMerged = false ->
          force = true \/ Mutations.allowForceDelete config = true)
     | Mutations.BranchRename _ oldName newName =>
         protectedBySpec oldName (Mutations.protectedBranches config) = false /\
         (forall r, r ∈ refs graph -> refType r = local -> refName r <> newName)
     | Mutations.TagDelete _ _ _ => True
     end).
Proof.
  intros Hplain Hnames.
  assert (forall acc : Mutations.Findings,
            (length (Mutations.foundErrors acc) =? 0)%nat = true
            <-> Mutations.foundErrors acc = []) as Hlen.
  { intros acc. rewrite Nat.eqb_eq. apply length_zero_iff_nil. }
  unfold Mutations.validateMutation.
  destruct mutation as [base branchName branchType isFullyMerged force h
                       |base oldName newName|base tagName h];
    cbn [mutationNames] in Hnames.
  - apply Forall_cons in Hnames as [Hname _].
    unfold Mutations.validateBranchDelete.
    rewrite (isProtectedBranch_plain _ _ Hplain Hname).
    eexists. split; [reflexivity|]. cbn [Mutations.valid Mutations.errors].
    split; [apply Hlen|].
    destruct (protectedBySpec branchName (Mutations.protectedBranches config));
      destruct (bool_decide_reflect (headRef graph = Some branchName)) as [Hhead|Hhead];
      destruct (Mutations.allowDeleteCurrentBranch config);
      destruct branchType;
      destruct (Mutations.allowDeleteRemote config);
      destruct isFullyMerged; destruct force;
      destruct (Mutations.allowForceDelete config);
      cbn [negb andb Mutations.pushError Mutations.pushWarning Mutations.foundErrors
           Mutations.foundWarnings app length Nat.eqb];
      (split; [try discriminate; intros _|try (intros _; reflexivity)]);
      try (repeat split; first [done|intros; by auto|by intros [=]]);
      try (intros (H1 & H2 & H3 & H4); exfalso;
           first [discriminate H1
                 |by specialize (H2 Hhead)
                 |by specialize (H3 eq_refl)
                 |by destruct (H4 eq_refl)]).
  - apply Forall_cons in Hnames as [Hold [Hnew _]%Forall_cons].
    unfold Mutations.validateBranchRename.
    rewrite (isProtectedBranch_plain _ _ Hplain Hold),
            (isProtectedBranch_plain _ _ Hplain Hnew).
    eexists. split; [reflexivity|]. cbn [Mutations.valid Mutations.errors].
    split; [apply Hlen|].
    assert (List.find (fun r => bool_decide (refType r = local)
                                && bool_decide (refName r = newName)) (refs graph) = None
            <-> forall r, r ∈ refs graph -> refType r = local -> refName r <> newName)
      as Hfind.
    { rewrite find_none_iff. split.
      - intros H r Hr Ht Hn. specialize (H r Hr).
        by rewrite (bool_decide_eq_true_2 _ Ht), (bool_decide_eq_true_2 _ Hn) in H.
      - intros H r Hr. apply andb_false_iff.
        destruct (bool_decide_reflect (refType r = local)) as [Ht|Ht]; [|by left].
        right. apply bool_decide_eq_false_2. by apply H. }
    rewrite <- Hfind.
    destruct (protectedBySpec oldName (Mutations.protectedBranches config));
      destruct (protectedBySpec newName (Mutations.protectedBranches config));
      destruct (List.find _ (refs graph));
      cbn [Mutations.pushError Mutations.pushWarning Mutations.foundErrors
           Mutations.foundWarnings app length Nat.eqb];
      intuition discriminate.
  - eexists. split; [reflexivity|]. cbn [Mutations.valid Mutations.errors].
    split; [apply Hlen|]. done.
Qed.

(** X30. The read-only executor refuses every command that
    [buildBranchDeleteCommand] builds, whatever the branch. *)
Theorem buildBranchDeleteCommand_refused branchType branchName force isFullyMerged :
  Executor.validateCommand
    (Mutations.buildBranchDeleteCommand branchType branchName force isFullyMerged)
  = Throws.
Proof.
  assert (bool_decide (js "-D" ∈ Executor.DANGEROUS_FLAGS) = true) as HD by (by vm_compute).
  assert (bool_decide (js "-d" ∈ Executor.DANGEROUS_FLAGS) = true) as Hd by (by vm_compute).
  assert (bool_decide (js "branch" = []) = false) as Hne by (by vm_compute).
  assert (bool_decide (js "branch" ∈ Executor.SAFE_SUBCOMMANDS) = true) as Hsafe
    by (by vm_compute).
  unfold Mutations.buildBranchDeleteCommand, Executor.validateCommand.
  destruct branchType, force, isFullyMerged;
    cbn [orb negb existsb]; rewrite Hne, Hsafe, ?HD, ?Hd; cbn [orb negb];
    by rewrite orb_true_r.
Qed.

(** ** The further properties at sample inputs *)

Lemma isAncestor_findMergeBase_witness :
  isAncestor forkGraph (h40 "a") (h40 "b") = Some true /\
  findMergeBase forkGraph (h40 "b") (h40 "a") = Some (Some (h40 "a")).
Proof.
  assert (isAncestor forkGraph (h40 "a") (h40 "b") = Some true) as Hyes
    by (vm_compute; reflexivity).
  split; [exact Hyes|].
  exact (isAncestor_findMergeBase forkGraph (h40 "a") (h40 "b") Hyes).
Defined.

Lemma findMergeBase_common_witness :
  findMergeBase forkGraph (h40 "b") (h40 "c") = Some (Some (h40 "a")) /\
  reaches forkGraph (h40 "b") (h40 "a") /\ reaches forkGraph (h40 "c") (h40 "a").
Proof.
  assert (findMergeBase forkGraph (h40 "b") (h40 "c") = Some (Some (h40 "a"))) as Hbase
    by (vm_compute; reflexivity).
  split; [exact Hbase|].
  exact (findMergeBase_common forkGraph (h40 "b") (h40 "c") (h40 "a") Hbase).
Defined.

Lemma sampleParsedRefs_returns :
  Refs.parseRefs sampleRefOutput sampleRefOptions = Returns sampleParsedRefs.
Proof. vm_compute. reflexivity. Qed.

Lemma parseRefs_wellFormed_witness :
  Refs.parseRefs sampleRefOutput sampleRefOptions = Returns sampleParsedRefs /\
  Forall (wellFormedRef (Some (js "main"))) (Refs.refs sampleParsedRefs).
Proof.
  split; [exact sampleParsedRefs_returns|].
  exact (parseRefs_wellFormed sampleRefOutput (Some (js "main")) [js "main"; js "release/*"]
           sampleParsedRefs sampleParsedRefs_returns).
Defined.

Lemma parseRefs_partition_witness :
  Refs.parseRefs sampleRefOutput sampleRefOptions = Returns sampleParsedRefs /\
  Refs.branchRef <$> Refs.branches sampleParsedRefs
    = filter (fun ref => refType ref <> tag) (Refs.refs sampleParsedRefs) /\
  Refs.tagRef <$> Refs.tags sampleParsedRefs
    = filter (fun ref => refType ref = tag) (Refs.refs sampleParsedRefs) /\
  Forall (fun branch =>
            Parser.matchesProtectedPattern (refName (Refs.branchRef branch))
                                           [js "main"; js "release/*"]
              = Returns (Refs.branchIsProtected branch) /\
            Refs.remoteName branch =
              match refType (Refs.branchRef branch) with
              | remote => Some (Refs.extractRemoteName (refName (Refs.branchRef branch)))
              | _ => None
              end) (Refs.branches sampleParsedRefs) /\
  (length (Refs.refs sampleParsedRefs) + length (Refs.errors sampleParsedRefs)
   <= length (Refs.refLines sampleRefOutput))%nat.
Proof.
  split; [exact sampleParsedRefs_returns|].
  exact (parseRefs_partition sampleRefOutput (Some (js "main")) [js "main"; js "release/*"]
           sampleParsedRefs sampleParsedRefs_returns).
Defined.

Lemma parseRefs_plain_witness :
  Forall plainPattern [js "main"; js "release/*"] /\
  exists res,
    Refs.parseRefs sampleRefOutput sampleRefOptions = Returns res /\
    Forall (fun branch =>
              Refs.branchIsProtected branch
              = protectedBySpec (refName (Refs.branchRef branch)) [js "main"; js "release/*"])
           (Refs.branches res).
Proof.
  assert (Forall plainPattern [js "main"; js "release/*"]) as Hplain.
  { repeat constructor; by vm_compute. }
  split; [exact Hplain|].
  exact (parseRefs_plain sampleRefOutput (Some (js "main")) [js "main"; js "release/*"] Hplain).
Defined.

Lemma buildGraph_descendants_ancestors_witness :
  NoDup (hash <$> diamondCommits) /\
  getDescendants diamondGraph (h40 "a") Infinity = Some [h40 "b"; h40 "c"; h40 "d"] /\
  getAncestors diamondGraph (h40 "d") Infinity = Some [h40 "b"; h40 "c"; h40 "a"] /\
  (h40 "d" ∈ [h40 "b"; h40 "c"; h40 "d"] <-> h40 "a" ∈ [h40 "b"; h40 "c"; h40 "a"]).
Proof.
  assert (NoDup (hash <$> diamondCommits)) as Hnd.
  { apply (bool_decide_unpack _). vm_compute. exact I. }
  assert (getDescendants diamondGraph (h40 "a") Infinity
          = Some [h40 "b"; h40 "c"; h40 "d"]) as Hd by (vm_compute; reflexivity).
  assert (getAncestors diamondGraph (h40 "d") Infinity
          = Some [h40 "b"; h40 "c"; h40 "a"]) as Ha by (vm_compute; reflexivity).
  split; [exact Hnd|]. split; [exact Hd|]. split; [exact Ha|].
  exact (buildGraph_descendants_ancestors diamondCommits [] (Some (h40 "d")) None
           (h40 "a") (h40 "d") Infinity _ _ Hnd Hd Ha).
Defined.

Lemma parsed_graph_valid_witness :
  NoDup (hash <$> Parser.commits (Parser.parseCommits sampleDateTime sampleLog)) /\
  validGraph (buildGraph (Parser.commits (Parser.parseCommits sampleDateTime sampleLog))
                         [] (Some (h40 "b")) None).
Proof.
  assert (NoDup (hash <$> Parser.commits (Parser.parseCommits sampleDateTime sampleLog)))
    as Hnd.
  { apply (bool_decide_unpack _). vm_compute. exact I. }
  split; [exact Hnd|].
  exact (parsed_graph_valid sampleDateTime sampleLog [] (Some (h40 "b")) None Hnd).
Defined.

Lemma countCrossings_Permutation_witness :
  edges crossedPair ≡ₚ reverse (edges crossedPair) /\
  countCrossings (edges crossedPair) = countCrossings (reverse (edges crossedPair)) /\
  (forall e1 e2, edgesCross e1 e2 = edgesCross e2 e1) /\
  (forall e, edgesCross e e = false).
Proof.
  assert (edges crossedPair ≡ₚ reverse (edges crossedPair)) as Hperm
    by (symmetry; apply reverse_Permutation).
  split; [exact Hperm|].
  exact (countCrossings_Permutation (edges crossedPair) (reverse (edges crossedPair)) Hperm).
Defined.

Lemma optimizeLanes_relabels_witness :
  optimizeLanes 3 tangledEdges = Some untangledEdges /\
  exists mapping,
    (forall l1 l2, mapLane mapping l1 = mapLane mapping l2 -> l1 = l2) /\
    (forall l, 0 <= l < totalLanes tangledEdges
               <-> 0 <= mapLane mapping l < totalLanes tangledEdges) /\
    vgCommits untangledEdges = remapCommit mapping <$> vgCommits tangledEdges /\
    edges untangledEdges = remapEdge mapping <$> edges tangledEdges /\
    totalRows untangledEdges = totalRows tangledEdges /\
    totalLanes untangledEdges = totalLanes tangledEdges.
Proof.
  assert (optimizeLanes 3 tangledEdges = Some untangledEdges) as Hrun
    by (vm_compute; reflexivity).
  split; [exact Hrun|].
  exact (optimizeLanes_relabels 3 tangledEdges untangledEdges Hrun).
Defined.

Lemma createVisualGraph_positions_witness :
  createVisualGraph diamondGraph noOptions = Returns (layoutOf diamondGraph) /\
  Forall (fun vc =>
            0 <= lane vc < totalLanes (layoutOf diamondGraph) /\
            0 <= row vc < Z.of_nat (length (topologicalOrder diamondGraph)) /\
            reverse (topologicalOrder diamondGraph) !! Z.to_nat (row vc) = Some (vcHash vc))
         (vgCommits (layoutOf diamondGraph)) /\
  StronglySorted (fun a b => row a < row b) (vgCommits (layoutOf diamondGraph)) /\
  Forall (fun e => 0 <= fromLane e < totalLanes (layoutOf diamondGraph) /\
                   0 <= toLane e < totalLanes (layoutOf diamondGraph))
         (edges (layoutOf diamondGraph)) /\
  (forall e vc, e ∈ edges (layoutOf diamondGraph) -> vc ∈ vgCommits (layoutOf diamondGraph) ->
                toHash e = vcHash vc -> fromRow e < row vc -> toLane e = lane vc).
Proof.
  split; [apply layoutOf_returns|].
  exact (createVisualGraph_positions diamondGraph noOptions (layoutOf diamondGraph)
           (layoutOf_returns diamondGraph)).
Defined.

Lemma createVisualGraph_tables_witness :
  validGraph partialGraph /\
  createVisualGraph partialGraph noOptions = Returns (layoutOf partialGraph) /\
  (forall h vc, commitByHash (layoutOf partialGraph) !! h = Some vc
                <-> vc ∈ vgCommits (layoutOf partialGraph) /\ vcHash vc = h) /\
  (forall r vc, commitByRow (layoutOf partialGraph) !! r = Some vc
                <-> vc ∈ vgCommits (layoutOf partialGraph) /\ row vc = r) /\
  (forall id e, edgeById (layoutOf partialGraph) !! id = Some e
                <-> e ∈ edges (layoutOf partialGraph) /\ eid e = id) /\
  Forall (fun vc => edgeIds vc = eid <$> outgoingEdges (layoutOf partialGraph) vc)
         (vgCommits (layoutOf partialGraph)).
Proof.
  split; [exact validGraph_partialGraph|]. split; [apply layoutOf_returns|].
  exact (createVisualGraph_tables partialGraph noOptions (layoutOf partialGraph)
           validGraph_partialGraph (layoutOf_returns partialGraph)).
Defined.

Lemma danglingEdge_laid : danglingEdge ∈ edges (layoutOf partialGraph).
Proof. vm_compute. right. left. Qed.

Lemma createVisualGraph_edge_ends_witness :
  validGraph partialGraph /\
  createVisualGraph partialGraph noOptions = Returns (layoutOf partialGraph) /\
  danglingEdge ∈ edges (layoutOf partialGraph) /\
  (exists source, source ∈ vgCommits (layoutOf partialGraph) /\
                  vcHash source = fromHash danglingEdge /\
                  row source = fromRow danglingEdge /\ lane source = fromLane danglingEdge) /\
  (forall target, target ∈ vgCommits (layoutOf partialGraph) ->
                  vcHash target = toHash danglingEdge ->
                  toRow danglingEdge = row target /\
                  (fromRow danglingEdge < toRow danglingEdge ->
                   toLane danglingEdge = lane target)).
Proof.
  split; [exact validGraph_partialGraph|]. split; [apply layoutOf_returns|].
  split; [exact danglingEdge_laid|].
  exact (createVisualGraph_edge_ends partialGraph noOptions (layoutOf partialGraph)
           danglingEdge validGraph_partialGraph (layoutOf_returns partialGraph)
           danglingEdge_laid).
Defined.

Lemma getVisibleCommits_spec_witness :
  createVisualGraph diamondGraph noOptions = Returns (layoutOf diamondGraph) /\
  allLoaded diamondGraph /\
  getVisibleCommits (layoutOf diamondGraph) 1 2
    = filter (fun vc => 1 <= row vc <= 2 /\ row vc < totalRows (layoutOf diamondGraph))
             (vgCommits (layoutOf diamondGraph)) /\
  getVisibleCommits (layoutOf diamondGraph) 1 2
    = filter (fun vc => 1 <= row vc <= 2) (vgCommits (layoutOf diamondGraph)).
Proof.
  assert (allLoaded diamondGraph) as Hall.
  { apply (bool_decide_unpack _). vm_compute. exact I. }
  split; [apply layoutOf_returns|]. split; [exact Hall|].
  destruct (getVisibleCommits_spec diamondGraph noOptions (layoutOf diamondGraph) 1 2
              (layoutOf_returns diamondGraph)) as [Hrows Hloaded].
  split; [exact Hrows|]. exact (Hloaded Hall).
Defined.

Lemma validateMutation_spec_witness :
  Forall plainPattern (Mutations.protectedBranches Mutations.DEFAULT_MUTATION_CONFIG) /\
  Forall singleLine (mutationNames (sampleDeletion (js "release/1.0"))) /\
  exists result,
    Mutations.validateMutation (sampleDeletion (js "release/1.0"))
                               Mutations.DEFAULT_MUTATION_CONFIG forkGraph
      = Returns result /\
    (Mutations.valid result = true <-> Mutations.errors result = []) /\
    (Mutations.valid result = true <->
     protectedBySpec (js "release/1.0")
                     (Mutations.protectedBranches Mutations.DEFAULT_MUTATION_CONFIG) = false /\
     (headRef forkGraph = Some (js "release/1.0") ->
      Mutations.allowDeleteCurrentBranch Mutations.DEFAULT_MUTATION_CONFIG = true) /\
     (Mutations.LocalBranch = Mutations.RemoteBranch ->
      Mutations.allowDeleteRemote Mutations.DEFAULT_MUTATION_CONFIG = true) /\
     (true = false ->
      false = true \/ Mutations.allowForceDelete Mutations.DEFAULT_MUTATION_CONFIG = true)).
Proof.
  assert (Forall plainPattern
                 (Mutations.protectedBranches Mutations.DEFAULT_MUTATION_CONFIG)) as Hplain.
  { repeat constructor; by vm_compute. }
  assert (Forall singleLine (mutationNames (sampleDeletion (js "release/1.0")))) as Hnames.
  { repeat constructor. }
  split; [exact Hplain|]. split; [exact Hnames|].
  exact (validateMutation_spec (sampleDeletion (js "release/1.0"))
           Mutations.DEFAULT_MUTATION_CONFIG forkGraph Hplain Hnames).
Defined.
